(** * Chunk graph core: SortableSet, Chunk, DependenciesBlock

  A shallow embedding of [lib/util/SortableSet.js], [lib/Chunk.js] and
  [lib/DependenciesBlock.js].  JavaScript objects live in a store indexed
  by references; a method that mutates its receiver or its arguments
  becomes a function from stores to stores. *)

From Stdlib Require Import List ZArith Bool Arith Lia String Ascii.
From Stdlib Require Import Permutation Sorted DecimalString.
Import ListNotations.

Set Implicit Arguments.

(* ================================================================== *)
(** * Part I: definitions                                              *)
(* ================================================================== *)

(** ** The built-in [Set] interface

  A JavaScript [Set] iterates in insertion order and holds every value at
  most once.  It is represented by the list of its members in iteration
  order. *)

Module JsSet.
Section Ops.
Variable A : Type.
Variable eq_dec : forall x y : A, {x = y} + {x <> y}.

Definition has (v : A) (l : list A) : bool :=
  if in_dec eq_dec v l then true else false.

(** [Set.prototype.add]: appended when absent, otherwise untouched. *)
Definition add (v : A) (l : list A) : list A :=
  if has v l then l else l ++ [v].

(** [Set.prototype.delete]: the member is taken out, the others keep
  their relative order. *)
Definition delete (v : A) (l : list A) : list A := remove eq_dec v l.

(** [new Set(iterable)] and a run of [add] calls. *)
Definition add_all (vs : list A) (l : list A) : list A :=
  fold_left (fun acc v => add v acc) vs l.
End Ops.
End JsSet.

(** ** SortableSet.js *)

Module SortableSet.
Section Defs.
Variable A : Type.
Variable eq_dec : forall x y : A, {x = y} + {x <> y}.

(** A comparator is a function object: [===] on two of them compares the
  references, never the code. *)
Record Comparator : Type := mkComparator {
    fn_ref : nat;
    fn_call : A -> A -> Z
  }.

Definition same_fn (f g : Comparator) : bool := fn_ref f =? fn_ref g.

Record t : Type := mk {
    elements : list A;
    _sortFn : Comparator;
    _lastActiveSortFn : option Comparator;   (* [None] is [null] *)
    noCache : bool
  }.

(** [constructor(initialIterable, defaultSort, noCache)] *)
Definition make (initialIterable : list A) (defaultSort : Comparator)
    (noCache : bool) : t :=
  {| elements := JsSet.add_all eq_dec initialIterable [];
     _sortFn := defaultSort;
     _lastActiveSortFn := None;
     noCache := noCache |}.

Definition size (s : t) : nat := List.length (elements s).
Definition has (v : A) (s : t) : bool := JsSet.has eq_dec v (elements s).

(** [add(value)]: the remembered comparator is dropped first, whatever
  the membership of [value]. *)
Definition add (v : A) (s : t) : t :=
  {| elements := JsSet.add eq_dec v (elements s);
     _sortFn := _sortFn s;
     _lastActiveSortFn := None;
     noCache := noCache s |}.

(** [delete] and [clear] are inherited from [Set]. *)
Definition delete (v : A) (s : t) : bool * t :=
  (has v s,
   {| elements := JsSet.delete eq_dec v (elements s);
      _sortFn := _sortFn s;
      _lastActiveSortFn := _lastActiveSortFn s;
      noCache := noCache s |}).

Definition clear (s : t) : t :=
  {| elements := [];
     _sortFn := _sortFn s;
     _lastActiveSortFn := _lastActiveSortFn s;
     noCache := noCache s |}.

(** [Array.prototype.sort(sortFn)], as a stable insertion sort that also
  counts how often [sortFn] is called. *)
Fixpoint insert_counting (f : A -> A -> Z) (x : A) (l : list A)
    : list A * nat :=
  match l with
  | [] => ([x], 0)
  | y :: l' =>
      if (0 <? f y x)%Z then (x :: y :: l', 1)
      else let (r, n) := insert_counting f x l' in (y :: r, S n)
  end.

Definition array_sort (f : A -> A -> Z) (l : list A) : list A * nat :=
  fold_left
    (fun (acc : list A * nat) x =>
       let (r, k) := insert_counting f x (fst acc) in (r, snd acc + k))
    l ([], 0).

Definition is_last (sortFn : Comparator) (s : t) : bool :=
  match _lastActiveSortFn s with
  | Some g => same_fn sortFn g
  | None => false
  end.

(** [sortWith(sortFn)], paired with the number of comparator calls it
  made. *)
Definition sortWith (sortFn : Comparator) (s : t) : t * nat :=
  if negb (noCache s) && ((size s =? 0) || is_last sortFn s) then (s, 0)
  else
    let (sortedArray, calls) := array_sort (fn_call sortFn) (elements s) in
    ({| elements := JsSet.add_all eq_dec sortedArray [];
        _sortFn := _sortFn s;
        _lastActiveSortFn := Some sortFn;
        noCache := noCache s |}, calls).

Definition sort (s : t) : t * nat := sortWith (_sortFn s) s.
End Defs.
End SortableSet.

(** ** Arrays and errors *)

Module JsArray.
Section Ops.
Variable A : Type.
Variable eq_dec : forall x y : A, {x = y} + {x <> y}.

Fixpoint index_from (i : Z) (x : A) (l : list A) : Z :=
  match l with
  | [] => (-1)%Z
  | y :: l' => if eq_dec x y then i else index_from (i + 1)%Z x l'
  end.

(** [Array.prototype.indexOf]: first position, or -1. *)
Definition indexOf (x : A) (l : list A) : Z := index_from 0%Z x l.

(** [array.splice(idx, 1)] at [idx = array.indexOf(x) >= 0]: the first
  occurrence goes, later ones stay. *)
Fixpoint splice_first (x : A) (l : list A) : list A :=
  match l with
  | [] => []
  | y :: l' => if eq_dec x y then l' else y :: splice_first x l'
  end.
End Ops.
End JsArray.

Inductive ConstraintViolation : Type :=
| DuplicateChild (chunk child : nat)
| ChildMissingParent (chunk child : nat)
| DuplicateParent (chunk parentChunk : nat)
| ParentMissingChild (parentChunk chunk : nat).

Inductive JsError : Type :=
| TypeError                       (* a property read on [null]/[undefined] *)
| Error (v : ConstraintViolation) (* [throw new Error(...)]                *)
| ExternalError.                  (* raised inside a collaborator          *)

(** How a call ends.  The store a throwing call leaves behind is the one
  reached at the [throw]. *)
Inductive Completion (A : Type) : Type :=
| Normal (a : A)
| Throw (e : JsError).
Arguments Normal {A} a.
Arguments Throw {A} e.

(** ** Object layouts and the store *)

Definition ChunkRef := nat.
Definition BlockRef := nat.
Definition OriginRef := nat.
Definition ModuleRef := nat.
Definition EntryRef := nat.
Definition Reason := string.

(** The collaborator [Module]: [size()], [identifier()] and the list of
  chunks it belongs to.  (Its provenance records, rewritten by
  [rewriteChunkInReasons], are not held in the store.) *)
Module ModuleObj.
Record t : Type := mk {
    size : Z;
    identifier : string;
    chunks : list ChunkRef
  }.
End ModuleObj.

(** The collaborator [Entrypoint]: an ordered list of chunks. *)
Module EntrypointObj.
Record t : Type := mk { chunks : list ChunkRef }.
End EntrypointObj.

(** An origin record [{module, loc, name, reasons?}]. *)
Module OriginObj.
Record t : Type := mk {
    module : ModuleRef;
    loc : nat;
    name : option string;
    reasons : option (list Reason)      (* [None]: the property is unset *)
  }.
End OriginObj.

(** A [DependenciesBlock]: its child blocks, the back-reference set by
  [addBlock], the [identifier()] method when the class has one, and the
  two fields [Chunk] assigns.  ([dependencies] and [variables] play no
  part in what follows.) *)
Module BlockObj.
Record t : Type := mk {
    blocks : list BlockRef;
    parent : option BlockRef;
    identifier : option string;
    chunks : option (list ChunkRef);    (* [None]: [null] or unset *)
    chunkReason : option Reason
  }.
End BlockObj.

(** A [Chunk].  [_modules], [_chunks] and [_parents] are SortableSets; the
  methods below reach them through the inherited [Set] interface only
  ([has], [add], [delete], [clear], [forEach], [size]), which neither
  reads nor depends on the sort cache, so each is held as its members in
  iteration order.  [id], [ids], [debugId], [files] and [rendered] are
  not read by these methods. *)
Module ChunkObj.
Record t : Type := mk {
    name : option string;
    _modules : list ModuleRef;
    entrypoints : list EntryRef;
    _chunks : list ChunkRef;
    _parents : list ChunkRef;
    blocks : list BlockRef;
    origins : list OriginRef
  }.

(** [new Chunk(name)] with no module. *)
Definition fresh (name : option string) : t :=
  {| name := name; _modules := []; entrypoints := []; _chunks := [];
     _parents := []; blocks := []; origins := [] |}.
End ChunkObj.

Record Store : Type := mkStore {
  chunk : ChunkRef -> ChunkObj.t;
  block : BlockRef -> BlockObj.t;
  origin : OriginRef -> OriginObj.t;
  module : ModuleRef -> ModuleObj.t;
  entrypoint : EntryRef -> EntrypointObj.t
}.

Definition upd {T : Type} (f : nat -> T) (k : nat) (v : T) : nat -> T :=
  fun x => if x =? k then v else f x.

Definition set_chunk (c : ChunkRef) (v : ChunkObj.t) (st : Store) : Store :=
  {| chunk := upd (chunk st) c v; block := block st; origin := origin st;
     module := module st; entrypoint := entrypoint st |}.

Definition set_block (b : BlockRef) (v : BlockObj.t) (st : Store) : Store :=
  {| chunk := chunk st; block := upd (block st) b v; origin := origin st;
     module := module st; entrypoint := entrypoint st |}.

Definition set_origin (o : OriginRef) (v : OriginObj.t) (st : Store) : Store :=
  {| chunk := chunk st; block := block st; origin := upd (origin st) o v;
     module := module st; entrypoint := entrypoint st |}.

Definition set_module (m : ModuleRef) (v : ModuleObj.t) (st : Store) : Store :=
  {| chunk := chunk st; block := block st; origin := origin st;
     module := upd (module st) m v; entrypoint := entrypoint st |}.

(** Field reads. *)
Definition modules_of (st : Store) (c : ChunkRef) := ChunkObj._modules (chunk st c).
Definition chunks_of (st : Store) (c : ChunkRef) := ChunkObj._chunks (chunk st c).
Definition parents_of (st : Store) (c : ChunkRef) := ChunkObj._parents (chunk st c).
Definition blocks_of (st : Store) (c : ChunkRef) := ChunkObj.blocks (chunk st c).
Definition origins_of (st : Store) (c : ChunkRef) := ChunkObj.origins (chunk st c).
Definition entrypoints_of (st : Store) (c : ChunkRef) := ChunkObj.entrypoints (chunk st c).

(** Field writes. *)
Definition write_modules (c : ChunkRef) (l : list ModuleRef) (st : Store) : Store :=
  let o := chunk st c in
  set_chunk c {| ChunkObj.name := ChunkObj.name o; ChunkObj._modules := l;
                 ChunkObj.entrypoints := ChunkObj.entrypoints o;
                 ChunkObj._chunks := ChunkObj._chunks o;
                 ChunkObj._parents := ChunkObj._parents o;
                 ChunkObj.blocks := ChunkObj.blocks o;
                 ChunkObj.origins := ChunkObj.origins o |} st.

Definition write_chunks (c : ChunkRef) (l : list ChunkRef) (st : Store) : Store :=
  let o := chunk st c in
  set_chunk c {| ChunkObj.name := ChunkObj.name o; ChunkObj._modules := ChunkObj._modules o;
                 ChunkObj.entrypoints := ChunkObj.entrypoints o;
                 ChunkObj._chunks := l;
                 ChunkObj._parents := ChunkObj._parents o;
                 ChunkObj.blocks := ChunkObj.blocks o;
                 ChunkObj.origins := ChunkObj.origins o |} st.

Definition write_parents (c : ChunkRef) (l : list ChunkRef) (st : Store) : Store :=
  let o := chunk st c in
  set_chunk c {| ChunkObj.name := ChunkObj.name o; ChunkObj._modules := ChunkObj._modules o;
                 ChunkObj.entrypoints := ChunkObj.entrypoints o;
                 ChunkObj._chunks := ChunkObj._chunks o;
                 ChunkObj._parents := l;
                 ChunkObj.blocks := ChunkObj.blocks o;
                 ChunkObj.origins := ChunkObj.origins o |} st.

Definition write_blocks (c : ChunkRef) (l : list BlockRef) (st : Store) : Store :=
  let o := chunk st c in
  set_chunk c {| ChunkObj.name := ChunkObj.name o; ChunkObj._modules := ChunkObj._modules o;
                 ChunkObj.entrypoints := ChunkObj.entrypoints o;
                 ChunkObj._chunks := ChunkObj._chunks o;
                 ChunkObj._parents := ChunkObj._parents o;
                 ChunkObj.blocks := l;
                 ChunkObj.origins := ChunkObj.origins o |} st.

Definition write_origins (c : ChunkRef) (l : list OriginRef) (st : Store) : Store :=
  let o := chunk st c in
  set_chunk c {| ChunkObj.name := ChunkObj.name o; ChunkObj._modules := ChunkObj._modules o;
                 ChunkObj.entrypoints := ChunkObj.entrypoints o;
                 ChunkObj._chunks := ChunkObj._chunks o;
                 ChunkObj._parents := ChunkObj._parents o;
                 ChunkObj.blocks := ChunkObj.blocks o;
                 ChunkObj.origins := l |} st.

Definition write_entrypoints (c : ChunkRef) (l : list EntryRef) (st : Store) : Store :=
  let o := chunk st c in
  set_chunk c {| ChunkObj.name := ChunkObj.name o; ChunkObj._modules := ChunkObj._modules o;
                 ChunkObj.entrypoints := l;
                 ChunkObj._chunks := ChunkObj._chunks o;
                 ChunkObj._parents := ChunkObj._parents o;
                 ChunkObj.blocks := ChunkObj.blocks o;
                 ChunkObj.origins := ChunkObj.origins o |} st.

Definition write_block_chunks (b : BlockRef) (cs : option (list ChunkRef)) (st : Store) : Store :=
  let o := block st b in
  set_block b {| BlockObj.blocks := BlockObj.blocks o; BlockObj.parent := BlockObj.parent o;
                 BlockObj.identifier := BlockObj.identifier o;
                 BlockObj.chunks := cs;
                 BlockObj.chunkReason := BlockObj.chunkReason o |} st.

Definition write_block_chunkReason (b : BlockRef) (r : option Reason) (st : Store) : Store :=
  let o := block st b in
  set_block b {| BlockObj.blocks := BlockObj.blocks o; BlockObj.parent := BlockObj.parent o;
                 BlockObj.identifier := BlockObj.identifier o;
                 BlockObj.chunks := BlockObj.chunks o;
                 BlockObj.chunkReason := r |} st.

Definition write_block_blocks (b : BlockRef) (l : list BlockRef) (st : Store) : Store :=
  let o := block st b in
  set_block b {| BlockObj.blocks := l; BlockObj.parent := BlockObj.parent o;
                 BlockObj.identifier := BlockObj.identifier o;
                 BlockObj.chunks := BlockObj.chunks o;
                 BlockObj.chunkReason := BlockObj.chunkReason o |} st.

Definition write_block_parent (b : BlockRef) (p : option BlockRef) (st : Store) : Store :=
  let o := block st b in
  set_block b {| BlockObj.blocks := BlockObj.blocks o; BlockObj.parent := p;
                 BlockObj.identifier := BlockObj.identifier o;
                 BlockObj.chunks := BlockObj.chunks o;
                 BlockObj.chunkReason := BlockObj.chunkReason o |} st.

Definition write_reasons (o : OriginRef) (rs : option (list Reason)) (st : Store) : Store :=
  let r := origin st o in
  set_origin o {| OriginObj.module := OriginObj.module r; OriginObj.loc := OriginObj.loc r;
                  OriginObj.name := OriginObj.name r; OriginObj.reasons := rs |} st.

Definition write_module_chunks (m : ModuleRef) (cs : list ChunkRef) (st : Store) : Store :=
  let o := module st m in
  set_module m {| ModuleObj.size := ModuleObj.size o;
ModuleObj.identifier := ModuleObj.identifier o;
ModuleObj.chunks := cs |} st.

(** ** Collaborators of [Chunk] that are not part of these sources *)

Module Collaborators.
(** Modelled from the spec: [Module.removeChunk(chunk)], the reciprocal
  notification hook of the collaborator [Module], whose source is not
  at hand; it "drops the module's own back-reference to this chunk". *)
Definition Module_removeChunk (m : ModuleRef) (c : ChunkRef) (st : Store) : Store :=
  write_module_chunks m
    (JsArray.splice_first Nat.eq_dec c (ModuleObj.chunks (module st m))) st.

(** Modelled from the spec: [Module.addChunk(chunk)], by which
  [moveModule] "attaches" the module to its target chunk. *)
Definition Module_addChunk (m : ModuleRef) (c : ChunkRef) (st : Store) : Store :=
  if JsSet.has Nat.eq_dec c (ModuleObj.chunks (module st m)) then st
  else write_module_chunks m (ModuleObj.chunks (module st m) ++ [c]) st.

(** The part of the store an [Entrypoint] may read and write: each
  chunk's [entrypoints] array and each entrypoint's chunk list. *)
Record EntrySide : Type := mkEntrySide {
    es_entrypoints : ChunkRef -> list EntryRef;
    es_chunks : EntryRef -> list ChunkRef
  }.

Definition entrySide (st : Store) : EntrySide :=
  {| es_entrypoints := entrypoints_of st;
     es_chunks := fun e => EntrypointObj.chunks (entrypoint st e) |}.

Definition putEntrySide (es : EntrySide) (st : Store) : Store :=
  {| chunk := fun c =>
       let o := chunk st c in
       {| ChunkObj.name := ChunkObj.name o; ChunkObj._modules := ChunkObj._modules o;
          ChunkObj.entrypoints := es_entrypoints es c;
          ChunkObj._chunks := ChunkObj._chunks o;
          ChunkObj._parents := ChunkObj._parents o;
          ChunkObj.blocks := ChunkObj.blocks o;
          ChunkObj.origins := ChunkObj.origins o |};
     block := block st; origin := origin st; module := module st;
     entrypoint := fun e => EntrypointObj.mk (es_chunks es e) |}.
End Collaborators.

(** ** Chunk.js *)

Module Chunk.
Import Collaborators.

Definition set_has := JsSet.has Nat.eq_dec.
Definition set_add := JsSet.add Nat.eq_dec.
Definition set_delete := JsSet.delete Nat.eq_dec.

Definition isInitial (st : Store) (self : ChunkRef) : bool :=
  0 <? List.length (entrypoints_of st self).

(** [addToCollection(collection, item)] as [addBlock] uses it.  Its first
  test, [item === this], compares a block with a chunk and never
  holds. *)
Definition addBlock (self : ChunkRef) (b : BlockRef) (st : Store) : bool * Store :=
  if (-1 <? JsArray.indexOf Nat.eq_dec b (blocks_of st self))%Z then (false, st)
  else (true, write_blocks self (blocks_of st self ++ [b]) st).

Definition addChunk (self chunk : ChunkRef) (st : Store) : bool * Store :=
  if set_has chunk (chunks_of st self) then (false, st)
  else (true, write_chunks self (set_add chunk (chunks_of st self)) st).

Definition addParent (self parentChunk : ChunkRef) (st : Store) : bool * Store :=
  if set_has parentChunk (parents_of st self) then (false, st)
  else (true, write_parents self (set_add parentChunk (parents_of st self)) st).

Definition addModule (self : ChunkRef) (m : ModuleRef) (st : Store) : bool * Store :=
  if negb (set_has m (modules_of st self))
  then (true, write_modules self (set_add m (modules_of st self)) st)
  else (false, st).

Definition removeModule (self : ChunkRef) (m : ModuleRef) (st : Store) : bool * Store :=
  if set_has m (modules_of st self)
  then (true, Module_removeChunk m self
                (write_modules self (set_delete m (modules_of st self)) st))
  else (false, st).

(** [removeChunk] and [removeParent] call each other.  The recursion is
  cut by a step budget; three steps are always enough
  ([removeChunk_fuel_enough]). *)
Fixpoint removeChunk_fuel (n : nat) (self chunk : ChunkRef) (st : Store)
      : option (bool * Store) :=
    match n with
    | 0 => None
    | S n' =>
        if negb (set_has chunk (chunks_of st self)) then Some (false, st)
        else
          let st1 := write_chunks self (set_delete chunk (chunks_of st self)) st in
          match removeParent_fuel n' chunk self st1 with
          | Some (_, st2) => Some (true, st2)
          | None => None
          end
    end
  with removeParent_fuel (n : nat) (self chunk : ChunkRef) (st : Store)
      : option (bool * Store) :=
    match n with
    | 0 => None
    | S n' =>
        if negb (set_has chunk (parents_of st self)) then Some (false, st)
        else
          let st1 := write_parents self (set_delete chunk (parents_of st self)) st in
          match removeChunk_fuel n' chunk self st1 with
          | Some (_, st2) => Some (true, st2)
          | None => None
          end
    end.

Definition removeChunk (self chunk : ChunkRef) (st : Store) : bool * Store :=
  match removeChunk_fuel 3 self chunk st with
  | Some r => r
  | None => (false, st)
  end.

Definition removeParent (self chunk : ChunkRef) (st : Store) : bool * Store :=
  match removeParent_fuel 3 self chunk st with
  | Some r => r
  | None => (false, st)
  end.

(** *** remove(reason) *)

(** The inner [this._chunks.forEach]: the sub chunk gets the parent, the
  parent gets the sub chunk. *)
Definition remove_connect (parentChunk : ChunkRef) (st : Store) (chunk : ChunkRef) : Store :=
  snd (addChunk parentChunk chunk (snd (addParent chunk parentChunk st))).

(** One round of the outer [this._parents.forEach]. *)
Definition remove_parent_step (self : ChunkRef) (st : Store) (parentChunk : ChunkRef) : Store :=
  let st1 := write_chunks parentChunk (set_delete self (chunks_of st parentChunk)) st in
  fold_left (remove_connect parentChunk) (chunks_of st1 self) st1.

Definition remove_child_step (self : ChunkRef) (st : Store) (chunk : ChunkRef) : Store :=
  write_parents chunk (set_delete self (parents_of st chunk)) st.

(** The two edge loops.  No round of either loop changes the set the loop
  runs over, so each loop is a fold over the set as it stands when the
  loop starts. *)
Definition remove_edges (self : ChunkRef) (st : Store) : Store :=
  let st1 := fold_left (remove_parent_step self) (parents_of st self) st in
  fold_left (remove_child_step self) (chunks_of st1 self) st1.

(** One round of [this.blocks.forEach]: [block.chunks.indexOf] on a
  [null] list is a TypeError. *)
Definition remove_block_step (self : ChunkRef) (reason : Reason)
    (st : Store) (b : BlockRef) : Store * Completion unit :=
  match BlockObj.chunks (block st b) with
  | None => (st, Throw TypeError)
  | Some cs =>
      if (0 <=? JsArray.indexOf Nat.eq_dec self cs)%Z then
        match JsArray.splice_first Nat.eq_dec self cs with
        | [] => (write_block_chunkReason b (Some reason)
                   (write_block_chunks b None st), Normal tt)
        | cs' => (write_block_chunks b (Some cs') st, Normal tt)
        end
      else (st, Normal tt)
  end.

(** [array.forEach] with a body that may throw. *)
Fixpoint forEach {A : Type} (body : Store -> A -> Store * Completion unit)
    (l : list A) (st : Store) : Store * Completion unit :=
  match l with
  | [] => (st, Normal tt)
  | x :: l' =>
      match body st x with
      | (st1, Normal _) => forEach body l' st1
      | (st1, Throw e) => (st1, Throw e)
      end
  end.

Definition remove_modules (self : ChunkRef) (st : Store) : Store :=
  fold_left (fun s m => Module_removeChunk m self s) (modules_of st self) st.

Definition remove (self : ChunkRef) (reason : Reason) (st : Store)
    : Store * Completion unit :=
  let st1 := remove_modules self st in
  let st2 := remove_edges self st1 in
  forEach (remove_block_step self reason) (blocks_of st2 self) st2.

(** *** integrate(otherChunk, reason) and its helpers *)

(** [this.moveModule(module, otherChunk)] *)
Definition moveModule (self : ChunkRef) (m : ModuleRef) (otherChunk : ChunkRef)
    (st : Store) : Store :=
  let st1 := Module_removeChunk m self st in
  let st2 := Module_addChunk m otherChunk st1 in
  snd (addModule otherChunk m st2).

(** [this.replaceChunk(oldChunk, newChunk)] *)
Definition replaceChunk (self oldChunk newChunk : ChunkRef) (st : Store) : Store :=
  let st1 := write_chunks self (set_delete oldChunk (chunks_of st self)) st in
  if negb (self =? newChunk) then
    let (added, st2) := addParent newChunk self st1 in
    if added then snd (addChunk self newChunk st2) else st2
  else st1.

(** [this.replaceParentChunk(oldParentChunk, newParentChunk)] *)
Definition replaceParentChunk (self oldParentChunk newParentChunk : ChunkRef)
    (st : Store) : Store :=
  let st1 := write_parents self (set_delete oldParentChunk (parents_of st self)) st in
  if negb (self =? newParentChunk) then
    let (added, st2) := addChunk newParentChunk self st1 in
    if added then snd (addParent self newParentChunk st2) else st2
  else st1.

Definition canBeIntegrated (st : Store) (self otherChunk : ChunkRef) : bool :=
  if isInitial st otherChunk then false
  else if isInitial st self then
    if negb (List.length (parents_of st otherChunk) =? 1)
       || negb (set_has self (parents_of st otherChunk))
    then false else true
  else true.

Definition integrate_block_step (self otherChunk : ChunkRef) (reason : Reason)
    (st : Store) (b : BlockRef) : Store :=
  let cs := match BlockObj.chunks (block st b) with
            | Some l => map (fun c => if c =? otherChunk then self else c) l
            | None => [self]
            end in
  let st1 := write_block_chunks b (Some cs) st in
  let st2 := write_block_chunkReason b (Some reason) st1 in
  snd (addBlock self b st2).

Definition integrate_origin_step (reason : Reason) (st : Store) (o : OriginRef) : Store :=
  match OriginObj.reasons (origin st o) with
  | None => write_reasons o (Some [reason]) st
  | Some [] => write_reasons o (Some [reason]) st
  | Some (r :: rs) =>
      if string_dec r reason then st
      else write_reasons o (Some (reason :: r :: rs)) st
  end.

Definition integrate_modules (self otherChunk : ChunkRef) (st : Store) : Store :=
  let otherChunkModules := modules_of st otherChunk in
  let st1 := fold_left (fun s m => moveModule otherChunk m self s) otherChunkModules st in
  write_modules otherChunk [] st1.

Definition integrate_parents (self otherChunk : ChunkRef) (st : Store) : Store :=
  let st1 := fold_left (fun s parentChunk => replaceChunk parentChunk otherChunk self s)
               (parents_of st otherChunk) st in
  write_parents otherChunk [] st1.

Definition integrate_children (self otherChunk : ChunkRef) (st : Store) : Store :=
  let st1 := fold_left (fun s chunk => replaceParentChunk chunk otherChunk self s)
               (chunks_of st otherChunk) st in
  write_chunks otherChunk [] st1.

Definition integrate_blocks (self otherChunk : ChunkRef) (reason : Reason)
    (st : Store) : Store :=
  let st1 := fold_left (integrate_block_step self otherChunk reason)
               (blocks_of st otherChunk) st in
  write_blocks otherChunk [] st1.

Definition integrate_origins (self otherChunk : ChunkRef) (reason : Reason)
    (st : Store) : Store :=
  let st1 := write_origins self (origins_of st self ++ origins_of st otherChunk) st in
  fold_left (integrate_origin_step reason) (origins_of st1 self) st1.

(** The four closing [delete] calls. *)
Definition integrate_cleanup (self otherChunk : ChunkRef) (st : Store) : Store :=
  let st1 := write_chunks self (set_delete otherChunk (chunks_of st self)) st in
  let st2 := write_chunks self (set_delete self (chunks_of st1 self)) st1 in
  let st3 := write_parents self (set_delete otherChunk (parents_of st2 self)) st2 in
  write_parents self (set_delete self (parents_of st3 self)) st3.

Definition integrate (self otherChunk : ChunkRef) (reason : Reason) (st : Store)
    : bool * Store :=
  if negb (canBeIntegrated st self otherChunk) then (false, st)
  else
    let st1 := integrate_modules self otherChunk st in
    let st2 := integrate_parents self otherChunk st1 in
    let st3 := integrate_children self otherChunk st2 in
    let st4 := integrate_blocks self otherChunk reason st3 in
    let st5 := integrate_origins self otherChunk reason st4 in
    (true, integrate_cleanup self otherChunk st5).

(** *** split(newChunk) *)

Definition split_block_step (newChunk : ChunkRef) (st : Store) (b : BlockRef)
    : Store * Completion unit :=
  let st1 := write_blocks newChunk (blocks_of st newChunk ++ [b]) st in
  match BlockObj.chunks (block st1 b) with
  | None => (st1, Throw TypeError)
  | Some cs => (write_block_chunks b (Some (cs ++ [newChunk])) st1, Normal tt)
  end.

Definition split_child_step (newChunk : ChunkRef) (st : Store) (chunk : ChunkRef) : Store :=
  snd (addParent chunk newChunk (snd (addChunk newChunk chunk st))).

Definition split_parent_step (newChunk : ChunkRef) (st : Store) (parentChunk : ChunkRef) : Store :=
  snd (addParent newChunk parentChunk (snd (addChunk parentChunk newChunk st))).

Definition split_edges (self newChunk : ChunkRef) (st : Store) : Store :=
  let st1 := fold_left (split_child_step newChunk) (chunks_of st self) st in
  fold_left (split_parent_step newChunk) (parents_of st1 self) st1.

Section WithEntrypoint.
(** [Entrypoint.insertChunk(newChunk, afterChunk)] belongs to a
  collaborator whose source is not at hand.  It is taken as given:
  any function of the entry side of the store, [None] when the call
  raises. *)
Variable insertChunk :
  EntryRef -> ChunkRef -> ChunkRef -> EntrySide -> option EntrySide.

Definition split_entry_step (self newChunk : ChunkRef) (st : Store) (e : EntryRef)
    : Store * Completion unit :=
  match insertChunk e newChunk self (entrySide st) with
  | Some es => (putEntrySide es st, Normal tt)
  | None => (st, Throw ExternalError)
  end.

Definition split (self newChunk : ChunkRef) (st : Store) : Store * Completion unit :=
  match forEach (split_block_step newChunk) (blocks_of st self) st with
  | (st1, Throw e) => (st1, Throw e)
  | (st1, Normal _) =>
      let st2 := split_edges self newChunk st1 in
      forEach (split_entry_step self newChunk) (entrypoints_of st2 self) st2
  end.
End WithEntrypoint.

(** *** The cost model

  Sizes are whole numbers.  An option of the [options] object is either
  a number or absent. *)
Record Options : Type := mkOptions {
    chunkOverhead : option Z;
    entryChunkMultiplicator : option Z
  }.

Definition addMultiplierAndOverhead (st : Store) (self : ChunkRef)
    (size : Z) (options : Options) : Z :=
  let overhead := match chunkOverhead options with
                  | Some n => n            (* typeof ... === "number" *)
                  | None => 10000%Z
                  end in
  let multiplicator :=
    if isInitial st self then
      match entryChunkMultiplicator options with
      | Some n => if (n =? 0)%Z then 10%Z else n     (* [n || 10] *)
      | None => 10%Z
      end
    else 1%Z in
  (size * multiplicator + overhead)%Z.

Definition modulesSize (st : Store) (self : ChunkRef) : Z :=
  fold_left (fun count m => (count + ModuleObj.size (module st m))%Z)
    (modules_of st self) 0%Z.

Definition size (st : Store) (self : ChunkRef) (options : Options) : Z :=
  addMultiplierAndOverhead st self (modulesSize st self) options.

(** [integratedSize]: [None] is the [false] it returns when the chunks
  cannot be integrated. *)
Definition integratedSize (st : Store) (self otherChunk : ChunkRef)
    (options : Options) : option Z :=
  if negb (canBeIntegrated st self otherChunk) then None
  else
    let integratedModulesSize :=
      fold_left
        (fun acc otherModule =>
           if negb (set_has otherModule (modules_of st self))
           then (acc + ModuleObj.size (module st otherModule))%Z
           else acc)
        (modules_of st otherChunk) (modulesSize st self) in
    Some (addMultiplierAndOverhead st self integratedModulesSize options).

(** *** checkConstraints() *)

Fixpoint check_children (st : Store) (chunk : ChunkRef)
    (chunks rest : list ChunkRef) (idx : Z) : Completion unit :=
  match rest with
  | [] => Normal tt
  | child :: rest' =>
      if negb (JsArray.indexOf Nat.eq_dec child chunks =? idx)%Z
      then Throw (Error (DuplicateChild chunk child))
      else if negb (set_has chunk (parents_of st child))
      then Throw (Error (ChildMissingParent chunk child))
      else check_children st chunk chunks rest' (idx + 1)%Z
  end.

Fixpoint check_parents (st : Store) (chunk : ChunkRef)
    (parents rest : list ChunkRef) (idx : Z) : Completion unit :=
  match rest with
  | [] => Normal tt
  | parentChunk :: rest' =>
      if negb (JsArray.indexOf Nat.eq_dec parentChunk parents =? idx)%Z
      then Throw (Error (DuplicateParent chunk parentChunk))
      else if (JsArray.indexOf Nat.eq_dec chunk (chunks_of st parentChunk) <? 0)%Z
      then Throw (Error (ParentMissingChild parentChunk chunk))
      else check_parents st chunk parents rest' (idx + 1)%Z
  end.

Definition checkConstraints (st : Store) (chunk : ChunkRef) : Completion unit :=
  let chunks := chunks_of st chunk in
  match check_children st chunk chunks chunks 0%Z with
  | Throw e => Throw e
  | Normal _ =>
      let parents := parents_of st chunk in
      check_parents st chunk parents parents 0%Z
  end.
End Chunk.

(** ** DependenciesBlock.js *)

Module DependenciesBlock.
(** [addBlock(block)] *)
Definition addBlock (self block_ : BlockRef) (st : Store) : Store :=
  let st1 := write_block_blocks self (BlockObj.blocks (block st self) ++ [block_]) st in
  write_block_parent block_ (Some self) st1.

(** A number inside a template literal, or as an array element under
  [join]. *)
Definition number_toString (z : Z) : string :=
  DecimalString.NilZero.string_of_int (Z.to_int z).

Definition join (sep : string) (parts : list string) : string :=
  String.concat sep parts.

Section WithIdentifierUtils.
(** [identifierUtils.makePathsRelative(context, identifier)] comes from
  a module that is not part of these sources. *)
Variable makePathsRelative : string -> string -> string.

(** The [while(parent)] loop.  [parent] walks up the chain; the segment
  pushed in each round is computed from [p = this.parent] and [this].
  [None]: the step budget ran out (a cyclic parent chain). *)
Fixpoint walk_parents (fuel : nat) (st : Store) (self p : BlockRef)
    (parent : option BlockRef) (ident : list string) : option (list string) :=
  match parent with
  | None => Some ident
  | Some pr =>
      match fuel with
      | 0 => None
      | S fuel' =>
          let idx := JsArray.indexOf Nat.eq_dec self (BlockObj.blocks (block st p)) in
          let l := (Z.of_nat (List.length (BlockObj.blocks (block st p))) - 1)%Z in
          let seg := (number_toString idx ++ "/" ++ number_toString l)%string in
          walk_parents fuel' st self p (BlockObj.parent (block st pr)) (seg :: ident)
      end
  end.

(** [getIdentForChunk(chunk, context)]: [Normal None] is [null]. *)
Definition getIdentForChunk (fuel : nat) (st : Store) (self : BlockRef)
    (chunk_ : ChunkRef) (context : string) : option (Completion (option string)) :=
  match BlockObj.identifier (block st self) with
  | None => Some (Normal None)
  | Some identifier_ =>
      match BlockObj.chunks (block st self) with
      | None => Some (Throw TypeError)
      | Some cs =>
          let ident0 :=
            if 1 <? List.length cs
            then [number_toString (JsArray.indexOf Nat.eq_dec chunk_ cs)]
            else [] in
          let walked :=
            match BlockObj.parent (block st self) with
            | None => Some ident0
            | Some p => walk_parents fuel st self p (Some p) ident0
            end in
          match walked with
          | None => None
          | Some ident =>
              Some (Normal (Some
                (join ":" (makePathsRelative context identifier_ :: ident))))
          end
      end
  end.
End WithIdentifierUtils.
End DependenciesBlock.

(** ** Sequences of graph operations

  The calls an optimizer issues against the chunk graph.  [Connect] is
  the matched pair [parentChunk.addChunk(chunk); chunk.addParent(parentChunk)]
  in which every caller in [Chunk.js] issues the two one-sided calls. *)

Module Trace.
Import Collaborators.

Inductive Op : Type :=
  | Integrate (self otherChunk : ChunkRef) (reason : Reason)
  | Split (self newChunk : ChunkRef)
  | Remove (self : ChunkRef) (reason : Reason)
  | RemoveChunk (self chunk_ : ChunkRef)
  | RemoveParent (self parentChunk : ChunkRef)
  | Connect (parentChunk chunk_ : ChunkRef)
  | AddChunk (self chunk_ : ChunkRef)
  | AddParent (self parentChunk : ChunkRef).

(** Every call but a one-sided [addChunk] or [addParent]. *)
Definition two_sided (op : Op) : bool :=
  match op with
  | AddChunk _ _ | AddParent _ _ => false
  | _ => true
  end.

(** The chunk an operation takes out of the graph. *)
Definition removed (op : Op) : list ChunkRef :=
  match op with
  | Remove x _ => [x]
  | _ => []
  end.

Section WithEntrypoint.
Variable insertChunk :
  EntryRef -> ChunkRef -> ChunkRef -> EntrySide -> option EntrySide.

Definition step (op : Op) (st : Store) : Store * Completion unit :=
  match op with
  | Integrate a b r => (snd (Chunk.integrate a b r st), Normal tt)
  | Split a n => Chunk.split insertChunk a n st
  | Remove x r => Chunk.remove x r st
  | RemoveChunk a b => (snd (Chunk.removeChunk a b st), Normal tt)
  | RemoveParent a b => (snd (Chunk.removeParent a b st), Normal tt)
  | Connect p c => (snd (Chunk.addParent c p (snd (Chunk.addChunk p c st))), Normal tt)
  | AddChunk a b => (snd (Chunk.addChunk a b st), Normal tt)
  | AddParent a b => (snd (Chunk.addParent a b st), Normal tt)
  end.

(** Runs the calls in order; an exception ends the run.  The result
  is the store reached and the chunks on which [remove] was called. *)
Fixpoint run (ops : list Op) (st : Store) (gone : list ChunkRef)
    : Store * list ChunkRef * Completion unit :=
  match ops with
  | [] => (st, gone, Normal tt)
  | op :: ops' =>
      match step op st with
      | (st1, Normal _) => run ops' st1 (removed op ++ gone)
      | (st1, Throw e) => (st1, removed op ++ gone, Throw e)
      end
  end.
End WithEntrypoint.
End Trace.

(** ** Specification predicates *)

Module Spec.
(** [b] is in [a]'s child set / [a] is in [b]'s parent set. *)
Definition child_edge (st : Store) (a b : ChunkRef) : Prop := In b (chunks_of st a).
Definition parent_edge (st : Store) (a b : ChunkRef) : Prop := In a (parents_of st b).

Definition symmetric (st : Store) : Prop :=
  forall a b, child_edge st a b <-> parent_edge st a b.

Definition no_duplicates (st : Store) : Prop :=
  forall c, NoDup (chunks_of st c) /\ NoDup (parents_of st c).

(** Every edge a chunk outside [gone] records is recorded at its other
  end as well: what [checkConstraints] looks for, chunk by chunk. *)
Definition backed (gone : list ChunkRef) (st : Store) : Prop :=
  (forall a b, ~ In a gone -> child_edge st a b -> parent_edge st a b) /\
  (forall a b, ~ In b gone -> parent_edge st a b -> child_edge st a b).

(** What holds between two rounds of integrate's loop over
  [otherChunk._parents], with [todo] the parents still to come: edges
  that do not point at [other] are backed, and whoever still has
  [other] as a child is still to come. *)
Definition parents_loop_inv (gone : list ChunkRef) (other : ChunkRef)
    (todo : list ChunkRef) (st : Store) : Prop :=
  (forall a b, b <> other -> ~ In a gone -> child_edge st a b -> parent_edge st a b)
  /\ (forall a b, b <> other -> ~ In b gone -> parent_edge st a b -> child_edge st a b)
  /\ (forall a, ~ In a gone -> child_edge st a other -> In a todo)
  /\ (forall p, In p todo -> parent_edge st p other).

(** The same for the loop over [otherChunk._chunks]. *)
Definition children_loop_inv (gone : list ChunkRef) (other : ChunkRef)
    (todo : list ChunkRef) (st : Store) : Prop :=
  (forall a b, a <> other -> ~ In a gone -> child_edge st a b -> parent_edge st a b)
  /\ (forall a b, a <> other -> ~ In b gone -> parent_edge st a b -> child_edge st a b)
  /\ (forall b, ~ In b gone -> parent_edge st other b -> In b todo)
  /\ (forall c, In c todo -> child_edge st other c)
  /\ (~ In other gone -> ~ In other todo /\ forall a, ~ parent_edge st a other).

(** A block's chunk list is a non-empty list, or [null] with a recorded
  reason. *)
Definition block_ok (st : Store) (b : BlockRef) : Prop :=
  match BlockObj.chunks (block st b) with
  | Some [] => False
  | Some (_ :: _) => True
  | None => BlockObj.chunkReason (block st b) <> None
  end.

(** What one round of [integrate]'s closing origin loop leaves in
  [origin.reasons]. *)
Definition reasons_after (reason : Reason) (before : option (list Reason))
    : option (list Reason) :=
  match before with
  | None => Some [reason]
  | Some [] => Some [reason]
  | Some (r :: rs) => if string_dec r reason then Some (r :: rs)
                      else Some (reason :: r :: rs)
  end.

(** The order a comparator stands for: [a] may come before [b]. *)
Definition cmp_le (A : Type) (f : A -> A -> Z) (a b : A) : Prop := (f a b <= 0)%Z.

(** The least a comparator must satisfy for a sort to make sense. *)
Definition cmp_consistent (A : Type) (f : A -> A -> Z) : Prop :=
  forall a b, (0 < f a b)%Z -> (f b a <= 0)%Z.

(** Stores that agree on every block, every origin and every chunk's
  [blocks], [origins] and [entrypoints]: all that a step working on
  edges or modules leaves alone. *)
Definition same_records (st st' : Store) : Prop :=
  (forall b, block st' b = block st b) /\
  (forall o, origin st' o = origin st o) /\
  (forall c, blocks_of st' c = blocks_of st c) /\
  (forall c, origins_of st' c = origins_of st c) /\
  (forall c, entrypoints_of st' c = entrypoints_of st c).

(** The one segment [getIdentForChunk]'s loop computes: the position of
  the block itself among the children of its own parent. *)
Definition own_segment (st : Store) (self p : BlockRef) : string :=
  (DependenciesBlock.number_toString
     (JsArray.indexOf Nat.eq_dec self (BlockObj.blocks (block st p)))
   ++ "/"
   ++ DependenciesBlock.number_toString
        (Z.of_nat (List.length (BlockObj.blocks (block st p))) - 1))%string.

(** Stores that agree on every block. *)
Definition same_blocks (st st' : Store) : Prop :=
  forall b, block st' b = block st b.

(** Stores that agree on every origin and every chunk's [origins]. *)
Definition same_origins (st st' : Store) : Prop :=
  (forall o, origin st' o = origin st o) /\
  (forall c, origins_of st' c = origins_of st c).

(** The reading of integrate's origin step under which only the origins
  the receiver held before the append are given the reason. *)
Definition reason_for_pre_existing_origins_only : Prop :=
  forall (st : Store) (self other : ChunkRef) (reason : Reason),
    Chunk.canBeIntegrated st self other = true ->
    let st' := snd (Chunk.integrate self other reason st) in
    origins_of st' self = origins_of st self ++ origins_of st other
    /\ (forall o, In o (origins_of st self) ->
         OriginObj.reasons (origin st' o) =
           reasons_after reason (OriginObj.reasons (origin st o)))
    /\ (forall o, In o (origins_of st other) -> ~ In o (origins_of st self) ->
         OriginObj.reasons (origin st' o) = OriginObj.reasons (origin st o)).

(** Stores that agree on every chunk's two edge sets. *)
Definition same_edges (st st' : Store) : Prop :=
  (forall x, chunks_of st' x = chunks_of st x) /\
  (forall x, parents_of st' x = parents_of st x).
End Spec.

(** ** Concrete objects used in the examples *)

Module Examples.
Definition ascending : SortableSet.Comparator Z :=
  SortableSet.mkComparator 1 (fun a b => (a - b)%Z).
Definition descending : SortableSet.Comparator Z :=
  SortableSet.mkComparator 2 (fun a b => (b - a)%Z).

(** [new SortableSet(undefined, ascending)] followed by the inserts
  3, 1, 2. *)
Definition set312 : SortableSet.t Z :=
  SortableSet.add Z.eq_dec 2%Z
    (SortableSet.add Z.eq_dec 1%Z
       (SortableSet.add Z.eq_dec 3%Z
          (SortableSet.make Z.eq_dec [] ascending false))).

(** A store in which every object is freshly constructed. *)
Definition empty_store : Store :=
  {| chunk := fun _ => ChunkObj.fresh None;
     block := fun _ => BlockObj.mk [] None None None None;
     origin := fun _ => OriginObj.mk 0 0 None None;
     module := fun _ => ModuleObj.mk 0%Z EmptyString [];
     entrypoint := fun _ => EntrypointObj.mk [] |}.

(** Two chunks outside every entrypoint, each with one origin record
  that carries no [reasons] yet: chunk 0 holds origin 0, chunk 1 holds
  origin 1. *)
Definition two_origins : Store :=
  write_origins 1 [1] (write_origins 0 [0] empty_store).

(** A module (block 0) with two code-split points (blocks 1 and 2), the
  second of which nests three more (blocks 3, 4 and 5), wired up by
  [addBlock].  Block 5 has an [identifier()] method and produces the
  single chunk 7. *)
Definition nested_blocks : Store :=
  DependenciesBlock.addBlock 2 5
    (DependenciesBlock.addBlock 2 4
       (DependenciesBlock.addBlock 2 3
          (DependenciesBlock.addBlock 0 2
             (DependenciesBlock.addBlock 0 1
                (set_block 5 (BlockObj.mk [] None (Some "lazy"%string) (Some [7]) None)
                   empty_store))))).

(** [parentChunk.addChunk(chunk); chunk.addParent(parentChunk)] *)
Definition connect (parentChunk chunk_ : ChunkRef) (st : Store) : Store :=
  snd (Chunk.addParent chunk_ parentChunk (snd (Chunk.addChunk parentChunk chunk_ st))).

(** The chain 0 -> 1 -> 2. *)
Definition chain : Store := connect 1 2 (connect 0 1 empty_store).

(** The chain 0 -> 1 -> 2 with a fourth chunk that is both parent and
  child of chunk 1 (chunks 1 and 3 load each other). *)
Definition looped : Store :=
  connect 3 1 (connect 1 3 (connect 1 2 (connect 0 1 empty_store))).

(** An [Entrypoint.insertChunk] that leaves the entry side as it is. *)
Definition insertChunk_idle (e : EntryRef) (newChunk afterChunk : ChunkRef)
  (es : Collaborators.EntrySide) : option Collaborators.EntrySide := Some es.

(** A run of calls of every two-sided kind. *)
Definition session : list Trace.Op :=
  [Trace.Connect 0 1; Trace.Connect 1 2; Trace.Split 1 3;
   Trace.Integrate 0 3 "merge"%string; Trace.Remove 1 "unused"%string;
   Trace.RemoveChunk 0 2; Trace.RemoveParent 2 0].

(** A [makePathsRelative] that has nothing to shorten. *)
Definition keep_path (context identifier : string) : string := identifier.
End Examples.

Module Scenario.
(** Chunk 0 ("A") is initial and holds modules 0 and 1 of sizes 60 and
  40; chunk 1 ("B") is not initial, has the single parent A and holds
  module 2 of size 50. *)
Definition st : Store :=
  {| chunk := fun c =>
       match c with
       | 0 => {| ChunkObj.name := None; ChunkObj._modules := [0; 1];
                 ChunkObj.entrypoints := [0]; ChunkObj._chunks := [1];
                 ChunkObj._parents := []; ChunkObj.blocks := [];
                 ChunkObj.origins := [] |}
       | 1 => {| ChunkObj.name := None; ChunkObj._modules := [2];
                 ChunkObj.entrypoints := []; ChunkObj._chunks := [];
                 ChunkObj._parents := [0]; ChunkObj.blocks := [];
                 ChunkObj.origins := [] |}
       | _ => ChunkObj.fresh None
       end;
     block := fun _ => BlockObj.mk [] None None None None;
     origin := fun _ => OriginObj.mk 0 0 None None;
     module := fun m =>
       match m with
       | 0 => ModuleObj.mk 60%Z "a0" [0]
       | 1 => ModuleObj.mk 40%Z "a1" [0]
       | 2 => ModuleObj.mk 50%Z "b0" [1]
       | _ => ModuleObj.mk 0%Z EmptyString []
       end;
     entrypoint := fun _ => EntrypointObj.mk [0] |}.

Definition options : Chunk.Options :=
  {| Chunk.chunkOverhead := Some 10000%Z; Chunk.entryChunkMultiplicator := Some 10%Z |}.
End Scenario.

(** ** Further methods of [Chunk] *)

Module ChunkQueries.
(** [hasRuntime()]: the chunk is the first chunk of its first entrypoint.
    An entrypoint without chunks gives [undefined === this], false. *)
Definition hasRuntime (st : Store) (self : ChunkRef) : bool :=
  match entrypoints_of st self with
  | [] => false
  | e :: _ =>
      match EntrypointObj.chunks (entrypoint st e) with
      | [] => false
      | c :: _ => c =? self
      end
  end.

(** [containsModule(module)], [getNumberOfModules()] and [isEmpty()] *)
Definition containsModule (st : Store) (self : ChunkRef) (m : ModuleRef) : bool :=
  Chunk.set_has m (modules_of st self).

Definition getNumberOfModules (st : Store) (self : ChunkRef) : nat :=
  List.length (modules_of st self).

Definition isEmpty (st : Store) (self : ChunkRef) : bool :=
  getNumberOfModules st self =? 0.
End ChunkQueries.


(** ** Further concrete stores *)

Module MoreExamples.
(** The chain 0 -> 1 -> 2 in which chunk 1 is produced by block 5, and
    block 5 lists chunk 1 alone. *)
Definition with_block : Store :=
  write_blocks 1 [5] (write_block_chunks 5 (Some [1]) Examples.chain).

(** The same, but block 5 has no chunk list. *)
Definition with_null_block : Store :=
  write_blocks 1 [5] Examples.chain.

(** The same, block 5 having no chunk list but a recorded reason. *)
Definition with_reasoned_null_block : Store :=
  write_block_chunkReason 5 (Some "emptied"%string) with_null_block.

(** The chain 0 -> 1 -> 2 with modules 0, 1 and 2 of sizes 60, 40 and 50:
    chunk 1 holds modules 0 and 1, chunk 2 holds modules 1 and 2. *)
Definition shared_module : Store :=
  write_modules 2 [1; 2]
    (write_modules 1 [0; 1]
       (set_module 2 (ModuleObj.mk 50%Z "m2" [2])
          (set_module 1 (ModuleObj.mk 40%Z "m1" [1; 2])
             (set_module 0 (ModuleObj.mk 60%Z "m0" [1]) Examples.chain)))).
End MoreExamples.


(** ** Runs of SortableSet calls *)

Module SetTrace.
Section Defs.
Variable A : Type.
Variable eq_dec : forall x y : A, {x = y} + {x <> y}.

Inductive Op : Type :=
| Add (v : A)
| Delete (v : A)
| Clear
| SortWith (f : SortableSet.Comparator A)
| Sort.

Definition step (o : Op) (s : SortableSet.t A) : SortableSet.t A :=
  match o with
  | Add v => SortableSet.add eq_dec v s
  | Delete v => snd (SortableSet.delete eq_dec v s)
  | Clear => SortableSet.clear s
  | SortWith f => fst (SortableSet.sortWith eq_dec f s)
  | Sort => fst (SortableSet.sort eq_dec s)
  end.

Definition run (ops : list Op) (s : SortableSet.t A) : SortableSet.t A :=
  fold_left (fun s o => step o s) ops s.

(** The comparators a run passes to [sortWith]. *)
Definition comparators (ops : list Op) : list (SortableSet.Comparator A) :=
  flat_map (fun o => match o with SortWith f => [f] | _ => [] end) ops.

(** A comparator that stands for a total preorder. *)
Definition lawful (f : A -> A -> Z) : Prop :=
  Spec.cmp_consistent f
  /\ (forall a b c, Spec.cmp_le f a b -> Spec.cmp_le f b c -> Spec.cmp_le f a c).

(** Comparators that are lawful, and of which any two with the same
    reference are the same function. *)
Definition lawful_family (cs : list (SortableSet.Comparator A)) : Prop :=
  (forall g, In g cs -> lawful (SortableSet.fn_call g))
  /\ (forall g h, In g cs -> In h cs ->
        SortableSet.fn_ref g = SortableSet.fn_ref h ->
        forall a b, SortableSet.fn_call g a b = SortableSet.fn_call h a b).

(** What every call keeps: the members are distinct, the default
    comparator is one of [cs], and a remembered comparator is one of [cs]
    in whose order the members are. *)
Definition cache_sound (cs : list (SortableSet.Comparator A))
    (s : SortableSet.t A) : Prop :=
  NoDup (SortableSet.elements s)
  /\ In (SortableSet._sortFn s) cs
  /\ (forall g, SortableSet._lastActiveSortFn s = Some g ->
        In g cs
        /\ StronglySorted (Spec.cmp_le (SortableSet.fn_call g)) (SortableSet.elements s)).
End Defs.
End SetTrace.



(** ** DependenciesBlock: variables *)

Module BlockVariables.
(** Modelled from the spec: a block variable is the record of the three
    arguments of [new DependenciesBlockVariable(name, expression,
    dependencies)]. *)
Record DependenciesBlockVariable : Type := mkVariable {
    name : string;
    expression : string;
    dependencies : list nat
  }.

Definition key (v : DependenciesBlockVariable) : string * string :=
  (name v, expression v).

(** [v.name === name && v.expression === expression] *)
Definition matches (name_ expression_ : string) (v : DependenciesBlockVariable) : bool :=
  String.eqb (name v) name_ && String.eqb (expression v) expression_.

(** [addVariable(name, expression, dependencies)] on [this.variables] *)
Definition addVariable (variables : list DependenciesBlockVariable)
    (name_ expression_ : string) (dependencies_ : list nat)
    : list DependenciesBlockVariable :=
  if existsb (matches name_ expression_) variables then variables
  else variables ++ [mkVariable name_ expression_ dependencies_].
End BlockVariables.

(** ** HarmonyExportImportedSpecifierDependency.js *)

Module HarmonyExportImportedSpecifierDependency.
(** [usedExports] and [providedExports]: an array of names, another
    truthy value ([true]), or a falsy one. *)
Inductive ExportsInfo : Type :=
| Listed (ids : list string)
| Truthy
| Falsy.

Record ImportedModule : Type := mkImportedModule {
    module_ref : ModuleRef;
    providedExports : ExportsInfo
  }.

(** The dependency, with what it reads of its neighbours:
    [this.originModule.usedExports] and [this.importDependency.module]. *)
Record t : Type := mk {
    originModule_usedExports : ExportsInfo;
    importDependency_module : option ImportedModule;
    id : option string;
    name : option string
  }.

(** Truthiness of a value that is a string or [undefined]. *)
Definition truthy (s : option string) : bool :=
  match s with
  | Some EmptyString => false
  | Some _ => true
  | None => false
  end.

Definition is_default (i : string) : bool := String.eqb i "default".

Definition index_of (i : string) (l : list string) : Z :=
  JsArray.indexOf string_dec i l.

(** [importedNames]: an array of names, or [true]. *)
Inductive ImportedNames : Type :=
| Names (ids : list string)
| AllNames.

Record Reference : Type := mkReference {
    module : ImportedModule;
    importedNames : ImportedNames
  }.

(** [getReference()].  [used], [active] and [activeExports] are what
    [originModule.isUsed(this.name)], [HarmonyModulesHelpers.isActive] and
    [HarmonyModulesHelpers.getActiveExports] answer; [None] is [null]. *)
Definition getReference (used active : bool) (activeExports : list string)
    (dep : t) : option Reference :=
  match importDependency_module dep with
  | None => None
  | Some importedModule =>
      if negb used || negb active then None
      else
        match originModule_usedExports dep with
        | Falsy => None
        | usedExports =>
            if negb (truthy (name dep)) then
              match usedExports, providedExports importedModule with
              | Listed used_, Listed provided =>
                  Some (mkReference importedModule
                          (Names (filter
                                    (fun i => (index_of i activeExports <? 0)%Z
                                              && (0 <=? index_of i provided)%Z
                                              && negb (is_default i))
                                    used_)))
              | Listed used_, _ =>
                  Some (mkReference importedModule
                          (Names (filter
                                    (fun i => (index_of i activeExports <? 0)%Z
                                              && negb (is_default i))
                                    used_)))
              | _, Listed provided =>
                  Some (mkReference importedModule
                          (Names (filter (fun i => negb (is_default i)) provided)))
              | _, _ => Some (mkReference importedModule AllNames)
              end
            else
              let unused :=
                match usedExports, name dep with
                | Listed used_, Some n => (index_of n used_ <? 0)%Z
                | _, _ => false
                end in
              if unused then None
              else
                match id dep with
                | Some i =>
                    if truthy (id dep) then Some (mkReference importedModule (Names [i]))
                    else Some (mkReference importedModule AllNames)
                | None => Some (mkReference importedModule AllNames)
                end
        end
  end.

(** The object [getExports()] returns; an absent [dependencies] property
    is [None]. *)
Record Exports : Type := mkExports {
    exports : ExportsInfo;
    exports_dependencies : option (list ImportedModule)
  }.

(** [getExports()] below the test of [this.name]. *)
Definition star_exports (dep : t) : Exports :=
  match importDependency_module dep with
  | Some importedModule =>
      match providedExports importedModule with
      | Listed provided =>
          mkExports (Listed (filter (fun i => negb (is_default i)) provided))
            (Some [importedModule])
      | Truthy => mkExports Truthy None
      | Falsy => mkExports Falsy (Some [importedModule])
      end
  | None => mkExports Falsy None
  end.

Definition getExports (dep : t) : Exports :=
  match name dep with
  | Some n => if truthy (Some n) then mkExports (Listed [n]) None else star_exports dep
  | None => star_exports dep
  end.
End HarmonyExportImportedSpecifierDependency.

Module HarmonyExamples.
Import HarmonyExportImportedSpecifierDependency.
(** [export * from "./lib"], where the library provides [default], [a],
    [b] and [c], and [a], [c] and [d] of the re-exporting module are
    used. *)
Definition star : t :=
  {| originModule_usedExports := Listed ["a"; "c"; "d"; "default"]%string;
     importDependency_module :=
       Some (mkImportedModule 7 (Listed ["default"; "a"; "b"; "c"]%string));
     id := None;
     name := None |}.
End HarmonyExamples.



(** ** Chunk.js: [getChunkMaps] *)

Module ChunkMaps.
(** An object used as a map from property keys to strings. *)
Definition JsObject : Type := string -> option string.

Definition empty_object : JsObject := fun _ => None.

(** [object[key] = value] *)
Definition set_property (key value : string) (o : JsObject) : JsObject :=
  fun k => if String.eqb k key then Some value else o k.

Record State : Type := mkState {
    chunksProcessed : list ChunkRef;
    chunkHashMap : JsObject;
    chunkNameMap : JsObject
  }.

Section Defs.
Variable st : Store.
(** The property key [chunk.id] stands for, [chunk.hash] and
    [chunk.renderedHash]. *)
Variable chunk_id : ChunkRef -> string.
Variable chunk_hash : ChunkRef -> string.
Variable chunk_renderedHash : ChunkRef -> string.
Variable includeEntries : bool.
Variable realHash : bool.

(** The body of the inner [addChunk] between the test of
    [chunksProcessed] and the loop over the children. *)
Definition visit (chunk_ : ChunkRef) (s : State) : State :=
  let processed := chunksProcessed s ++ [chunk_] in
  if negb (ChunkQueries.hasRuntime st chunk_) || includeEntries then
    {| chunksProcessed := processed;
       chunkHashMap :=
         set_property (chunk_id chunk_)
           (if realHash then chunk_hash chunk_ else chunk_renderedHash chunk_)
           (chunkHashMap s);
       chunkNameMap :=
         match ChunkObj.name (chunk st chunk_) with
         | Some EmptyString => chunkNameMap s
         | Some n => set_property (chunk_id chunk_) n (chunkNameMap s)
         | None => chunkNameMap s
         end |}
  else
    {| chunksProcessed := processed;
       chunkHashMap := chunkHashMap s;
       chunkNameMap := chunkNameMap s |}.

(** The inner [addChunk], its recursion cut by a depth budget. *)
Fixpoint addChunk (fuel : nat) (chunk_ : ChunkRef) (s : State) : option State :=
  match fuel with
  | 0 => None
  | S fuel' =>
      if (0 <=? JsArray.indexOf Nat.eq_dec chunk_ (chunksProcessed s))%Z then Some s
      else
        fold_left
          (fun acc child =>
             match acc with
             | Some a => addChunk fuel' child a
             | None => None
             end)
          (chunks_of st chunk_) (Some (visit chunk_ s))
  end.

Definition getChunkMaps (fuel : nat) (self : ChunkRef) : option (JsObject * JsObject) :=
  match addChunk fuel self (mkState [] empty_object empty_object) with
  | Some s => Some (chunkHashMap s, chunkNameMap s)
  | None => None
  end.

(** [b] is [a] or a descendant of [a] along child edges. *)
Inductive reachable (a : ChunkRef) : ChunkRef -> Prop :=
| reach_self : reachable a a
| reach_child (b c : ChunkRef) :
    reachable a b -> In c (chunks_of st b) -> reachable a c.

(** What a visit of a chunk writes to the hash map and to the name map:
    the key and the value, if any. *)
Definition hash_entry (c : ChunkRef) : option (string * string) :=
  if negb (ChunkQueries.hasRuntime st c) || includeEntries
  then Some (chunk_id c, if realHash then chunk_hash c else chunk_renderedHash c)
  else None.

Definition name_entry (c : ChunkRef) : option (string * string) :=
  if negb (ChunkQueries.hasRuntime st c) || includeEntries
  then match ChunkObj.name (chunk st c) with
       | Some EmptyString => None
       | Some n => Some (chunk_id c, n)
       | None => None
       end
  else None.

Definition write (e : option (string * string)) (o : JsObject) : JsObject :=
  match e with
  | Some (k, v) => set_property k v o
  | None => o
  end.

(** The chunks of [universe] not yet processed. *)
Definition pending (universe processed : list ChunkRef) : nat :=
  List.length (filter (fun c => negb (JsSet.has Nat.eq_dec c processed)) universe).

(** [s'] comes from [s] by visits: the processed chunks grow, stay
    distinct, and a map ([proj], written with [entry]) changes at the keys
    of newly processed chunks only, where it holds what one of them
    wrote. *)
Definition extends (proj : State -> JsObject)
    (entry : ChunkRef -> option (string * string)) (s s' : State) : Prop :=
  incl (chunksProcessed s) (chunksProcessed s')
  /\ (NoDup (chunksProcessed s) -> NoDup (chunksProcessed s'))
  /\ (forall k,
        proj s' k = proj s k
        \/ exists y v, In y (chunksProcessed s') /\ ~ In y (chunksProcessed s)
                       /\ entry y = Some (k, v) /\ proj s' k = Some v)
  /\ (forall x k v,
        In x (chunksProcessed s') -> ~ In x (chunksProcessed s) ->
        entry x = Some (k, v) ->
        exists y v', In y (chunksProcessed s') /\ ~ In y (chunksProcessed s)
                     /\ entry y = Some (k, v') /\ proj s' k = Some v').

(** [s'] comes from [s] by the traversal started at [c]. *)
Definition explored (c : ChunkRef) (s s' : State) : Prop :=
  incl (chunksProcessed s) (chunksProcessed s')
  /\ In c (chunksProcessed s')
  /\ (forall x, In x (chunksProcessed s') ->
        In x (chunksProcessed s) \/ reachable c x)
  /\ (forall x, In x (chunksProcessed s') -> ~ In x (chunksProcessed s) ->
        forall d, In d (chunks_of st x) -> In d (chunksProcessed s')).
End Defs.
End ChunkMaps.

Module MapExamples.
(** Chunk 0 has the children 1 and 2, chunks 1 and 2 both have the child
    3, and chunk 3 has the child 0 again; chunk 0, named "main", has the
    runtime. *)
Definition diamond : Store :=
  {| chunk := fun c =>
       match c with
       | 0 => {| ChunkObj.name := Some "main"%string; ChunkObj._modules := [];
                 ChunkObj.entrypoints := [0]; ChunkObj._chunks := [1; 2];
                 ChunkObj._parents := [3]; ChunkObj.blocks := [];
                 ChunkObj.origins := [] |}
       | 1 => {| ChunkObj.name := Some "left"%string; ChunkObj._modules := [];
                 ChunkObj.entrypoints := []; ChunkObj._chunks := [3];
                 ChunkObj._parents := [0]; ChunkObj.blocks := [];
                 ChunkObj.origins := [] |}
       | 2 => {| ChunkObj.name := None; ChunkObj._modules := [];
                 ChunkObj.entrypoints := []; ChunkObj._chunks := [3];
                 ChunkObj._parents := [0]; ChunkObj.blocks := [];
                 ChunkObj.origins := [] |}
       | 3 => {| ChunkObj.name := None; ChunkObj._modules := [];
                 ChunkObj.entrypoints := []; ChunkObj._chunks := [0];
                 ChunkObj._parents := [1; 2]; ChunkObj.blocks := [];
                 ChunkObj.origins := [] |}
       | _ => ChunkObj.fresh None
       end;
     block := fun _ => BlockObj.mk [] None None None None;
     origin := fun _ => OriginObj.mk 0 0 None None;
     module := fun _ => ModuleObj.mk 0%Z EmptyString [];
     entrypoint := fun _ => EntrypointObj.mk [0] |}.

Definition chunk_id (c : ChunkRef) : string :=
  DependenciesBlock.number_toString (Z.of_nat c).

Definition chunk_hash (c : ChunkRef) : string :=
  ("full" ++ DependenciesBlock.number_toString (Z.of_nat c))%string.

Definition chunk_renderedHash (c : ChunkRef) : string :=
  ("short" ++ DependenciesBlock.number_toString (Z.of_nat c))%string.
End MapExamples.



(* ================================================================== *)
(** * Part II: proofs                                                  *)
(* ================================================================== *)

(** ** The built-in [Set] *)

Section JsSetFacts.
Variable A : Type.
Variable eq_dec : forall x y : A, {x = y} + {x <> y}.

Lemma has_true_iff (v : A) (l : list A) :
  JsSet.has eq_dec v l = true <-> In v l.
Proof.
  unfold JsSet.has. destruct (in_dec eq_dec v l); split; intros; auto; discriminate.
Qed.

Lemma has_false_iff (v : A) (l : list A) :
  JsSet.has eq_dec v l = false <-> ~ In v l.
Proof.
  unfold JsSet.has. destruct (in_dec eq_dec v l); split; intros; auto;
    try discriminate; contradiction.
Qed.

Lemma add_In (v y : A) (l : list A) :
  In y (JsSet.add eq_dec v l) <-> In y l \/ y = v.
Proof.
  unfold JsSet.add. destruct (JsSet.has eq_dec v l) eqn:E.
  - apply has_true_iff in E. split; [auto|]. intros [H | ->]; auto.
  - rewrite in_app_iff. simpl. intuition congruence.
Qed.

Lemma add_NoDup (v : A) (l : list A) :
  NoDup l -> NoDup (JsSet.add eq_dec v l).
Proof.
  intros H. unfold JsSet.add. destruct (JsSet.has eq_dec v l) eqn:E; auto.
  apply has_false_iff in E.
  apply NoDup_app; auto.
  - constructor; [intros [] | constructor].
  - intros x Hx [<- | []]. contradiction.
Qed.

Lemma delete_In (v y : A) (l : list A) :
  In y (JsSet.delete eq_dec v l) <-> In y l /\ y <> v.
Proof.
  unfold JsSet.delete. split.
  - apply in_remove.
  - intros [H1 H2]. apply in_in_remove; auto.
Qed.

Lemma delete_NoDup (v : A) (l : list A) :
  NoDup l -> NoDup (JsSet.delete eq_dec v l).
Proof.
  unfold JsSet.delete. induction 1 as [| x l Hx Hl IH]; simpl.
  - constructor.
  - destruct (eq_dec v x); auto.
    constructor; auto. intros Hin. apply in_remove in Hin. tauto.
Qed.

Lemma add_all_app (vs acc : list A) :
  NoDup (acc ++ vs) -> JsSet.add_all eq_dec vs acc = acc ++ vs.
Proof.
  revert acc. induction vs as [| v vs IH]; intros acc H; simpl.
  - now rewrite app_nil_r.
  - assert (Hv : ~ In v acc).
    { apply NoDup_remove_2 in H. intros Hin. apply H.
      apply in_or_app. now left. }
    unfold JsSet.add at 1.
    apply has_false_iff in Hv. rewrite Hv.
    rewrite IH; rewrite <- app_assoc; simpl; auto.
Qed.

Lemma add_all_nil (vs : list A) :
  NoDup vs -> JsSet.add_all eq_dec vs [] = vs.
Proof. intros H. now rewrite add_all_app. Qed.
End JsSetFacts.

(** ** SortableSet *)

Section SortableSetFacts.
Variable A : Type.
Variable eq_dec : forall x y : A, {x = y} + {x <> y}.

Import SortableSet Spec.

Lemma insert_counting_perm (f : A -> A -> Z) (x : A) (l : list A) :
  Permutation (x :: l) (fst (insert_counting f x l)).
Proof.
  induction l as [| y l IH]; simpl.
  - apply Permutation_refl.
  - destruct (0 <? f y x)%Z; simpl.
    + apply Permutation_refl.
    + destruct (insert_counting f x l) as [r n] eqn:E. simpl in *.
      eapply perm_trans; [apply perm_swap|]. now apply perm_skip.
Qed.

Lemma insert_counting_hd (f : A -> A -> Z) (x y : A) (l : list A) :
  cmp_le f y x -> HdRel (cmp_le f) y l ->
  HdRel (cmp_le f) y (fst (insert_counting f x l)).
Proof.
  intros Hyx Hl. destruct l as [| z l]; simpl.
  - now constructor.
  - destruct (0 <? f z x)%Z; simpl.
    + now constructor.
    + destruct (insert_counting f x l) as [r n]. simpl.
      constructor. now inversion Hl.
Qed.

Lemma insert_counting_sorted (f : A -> A -> Z) (x : A) (l : list A) :
  cmp_consistent f -> Sorted (cmp_le f) l ->
  Sorted (cmp_le f) (fst (insert_counting f x l)).
Proof.
  intros Hf. induction 1 as [| y l Hs IH Hhd]; simpl.
  - repeat constructor.
  - destruct (0 <? f y x)%Z eqn:E; simpl.
    + apply Z.ltb_lt in E. constructor.
      * now constructor.
      * constructor. now apply Hf.
    + apply Z.ltb_ge in E.
      pose proof (@insert_counting_hd f x y l E Hhd) as Hh.
      destruct (insert_counting f x l) as [r n]. simpl in *.
      now constructor.
Qed.

Lemma array_sort_fold_fst (f : A -> A -> Z) (l : list A) (acc : list A * nat) :
  Permutation (fst acc ++ l)
    (fst (fold_left
            (fun (acc : list A * nat) x =>
               let (r, k) := insert_counting f x (fst acc) in (r, snd acc + k))
            l acc)) /\
  (cmp_consistent f -> Sorted (cmp_le f) (fst acc) ->
   Sorted (cmp_le f)
     (fst (fold_left
             (fun (acc : list A * nat) x =>
                let (r, k) := insert_counting f x (fst acc) in (r, snd acc + k))
             l acc))).
Proof.
  revert acc. induction l as [| x l IH]; intros acc; simpl.
  - rewrite app_nil_r. split; auto.
  - pose proof (insert_counting_perm f x (fst acc)) as Hp.
    pose proof (@insert_counting_sorted f x (fst acc)) as Hs.
    destruct (insert_counting f x (fst acc)) as [r k]. simpl in *.
    destruct (IH (r, snd acc + k)) as [IH1 IH2]. simpl in *. split.
    + eapply perm_trans; [| exact IH1].
      eapply perm_trans; [apply Permutation_sym, Permutation_middle|].
      change (x :: fst acc ++ l) with ((x :: fst acc) ++ l).
      now apply Permutation_app_tail.
    + intros Hf Hacc. apply IH2; auto.
Qed.

Lemma array_sort_perm (f : A -> A -> Z) (l : list A) :
  Permutation l (fst (array_sort f l)).
Proof. exact (proj1 (array_sort_fold_fst f l ([], 0))). Qed.

Lemma array_sort_sorted (f : A -> A -> Z) (l : list A) :
  cmp_consistent f -> Sorted (cmp_le f) (fst (array_sort f l)).
Proof.
  intros Hf. apply (proj2 (array_sort_fold_fst f l ([], 0))); auto.
Qed.

(** Every SortableSet operation keeps the members distinct. *)
Lemma make_NoDup (l : list A) f nc :
  NoDup (SortableSet.elements (SortableSet.make eq_dec l f nc)).
Proof.
  unfold SortableSet.make, JsSet.add_all. simpl.
  assert (G : forall acc, NoDup acc ->
              NoDup (fold_left (fun acc v => JsSet.add eq_dec v acc) l acc)).
  { induction l as [| v l IH]; intros acc H; simpl; auto.
    apply IH. now apply add_NoDup. }
  apply G. constructor.
Qed.

Lemma sortWith_miss (f : SortableSet.Comparator A) (s : SortableSet.t A) :
  negb (SortableSet.noCache s)
    && ((SortableSet.size s =? 0) || SortableSet.is_last f s) = false ->
  NoDup (SortableSet.elements s) ->
  SortableSet.sortWith eq_dec f s =
    ({| SortableSet.elements := fst (array_sort (SortableSet.fn_call f) (SortableSet.elements s));
        SortableSet._sortFn := SortableSet._sortFn s;
        SortableSet._lastActiveSortFn := Some f;
        SortableSet.noCache := SortableSet.noCache s |},
     snd (array_sort (SortableSet.fn_call f) (SortableSet.elements s))).
Proof.
  intros Hc Hnd. unfold SortableSet.sortWith. rewrite Hc.
  pose proof (array_sort_perm (SortableSet.fn_call f) (SortableSet.elements s)) as Hp.
  destruct (array_sort (SortableSet.fn_call f) (SortableSet.elements s)) as [sorted calls].
  simpl in *. rewrite add_all_nil; auto.
  eapply Permutation_NoDup; eauto.
Qed.
End SortableSetFacts.

(** C3.  SortableSet cache semantics.  [add] forgets the remembered
  comparator whether or not the value is new (and inserts it when it is
  absent); [delete] leaves the remembered comparator alone; [sortWith] does
  nothing, and calls the comparator zero times, when no-cache mode is off
  and the set is empty or the comparator is the very function object
  remembered; in every other case it replaces the contents by the sorted
  array (a permutation of the members, in comparator order when the
  comparator is consistent) and remembers the comparator.  Concretely,
  inserting 3, 1, 2 and sorting ascending gives 1, 2, 3; sorting again
  costs zero comparator calls; deleting 2 and sorting with the same
  comparator costs zero comparator calls and leaves 1, 3. *)
Theorem sortable_set_cache_semantics :
  (forall (A : Type) (eq_dec : forall x y : A, {x = y} + {x <> y})
          (s : SortableSet.t A) (v : A) (f : SortableSet.Comparator A),
      SortableSet._lastActiveSortFn (SortableSet.add eq_dec v s) = None
      /\ SortableSet.elements (SortableSet.add eq_dec v s) =
           (if SortableSet.has eq_dec v s then SortableSet.elements s
            else SortableSet.elements s ++ [v])
      /\ SortableSet._lastActiveSortFn (snd (SortableSet.delete eq_dec v s)) =
           SortableSet._lastActiveSortFn s
      /\ (SortableSet.noCache s = false ->
          (SortableSet.elements s = [] \/
           exists g, SortableSet._lastActiveSortFn s = Some g /\
                     SortableSet.fn_ref g = SortableSet.fn_ref f) ->
          SortableSet.sortWith eq_dec f s = (s, 0))
      /\ (NoDup (SortableSet.elements s) ->
          ~ (SortableSet.noCache s = false /\
             (SortableSet.elements s = [] \/
              exists g, SortableSet._lastActiveSortFn s = Some g /\
                        SortableSet.fn_ref g = SortableSet.fn_ref f)) ->
          let s' := fst (SortableSet.sortWith eq_dec f s) in
          SortableSet.elements s' =
            fst (SortableSet.array_sort (SortableSet.fn_call f) (SortableSet.elements s))
          /\ SortableSet._lastActiveSortFn s' = Some f
          /\ Permutation (SortableSet.elements s) (SortableSet.elements s')
          /\ (Spec.cmp_consistent (SortableSet.fn_call f) ->
              Sorted (Spec.cmp_le (SortableSet.fn_call f)) (SortableSet.elements s'))))
  /\ (let s1 := fst (SortableSet.sortWith Z.eq_dec Examples.ascending Examples.set312) in
      let s2 := snd (SortableSet.delete Z.eq_dec 2%Z s1) in
      SortableSet.elements Examples.set312 = [3; 1; 2]%Z
      /\ SortableSet.elements s1 = [1; 2; 3]%Z
      /\ SortableSet.sortWith Z.eq_dec Examples.ascending s1 = (s1, 0)
      /\ SortableSet.sortWith Z.eq_dec Examples.ascending s2 = (s2, 0)
      /\ SortableSet.elements s2 = [1; 3]%Z
      /\ Sorted (Spec.cmp_le (SortableSet.fn_call Examples.ascending)) (SortableSet.elements s2)).
Proof.
  split.
  - intros A eq_dec s v f.
    split; [reflexivity|].
    split; [unfold SortableSet.add, SortableSet.has, JsSet.add; simpl;
            now destruct (JsSet.has eq_dec v (SortableSet.elements s))|].
    split; [reflexivity|].
    split.
    + intros Hnc Hhit. unfold SortableSet.sortWith. rewrite Hnc. simpl.
      destruct Hhit as [Hemp | [g [Hg Href]]].
      * unfold SortableSet.size. now rewrite Hemp.
      * unfold SortableSet.is_last, SortableSet.same_fn. rewrite Hg.
        rewrite Href, Nat.eqb_refl. now rewrite orb_true_r.
    + intros Hnd Hmiss s'.
      assert (Hc : negb (SortableSet.noCache s)
                   && ((SortableSet.size s =? 0) || SortableSet.is_last f s) = false).
      { destruct (SortableSet.noCache s) eqn:Hnc; [reflexivity|]. simpl.
        apply orb_false_iff. split.
        - apply Nat.eqb_neq. intros Hz. apply Hmiss. split; [reflexivity|]. left.
          unfold SortableSet.size in Hz. now apply length_zero_iff_nil.
        - unfold SortableSet.is_last.
          destruct (SortableSet._lastActiveSortFn s) as [g|] eqn:Hg; [|reflexivity].
          unfold SortableSet.same_fn. apply Nat.eqb_neq. intros Href.
          apply Hmiss. split; [reflexivity|]. right. exists g. split; congruence. }
      subst s'. rewrite (sortWith_miss eq_dec f s Hc Hnd). simpl.
      split; [reflexivity|]. split; [reflexivity|].
      split; [apply array_sort_perm|]. apply array_sort_sorted.
  - cbv zeta. repeat split; try reflexivity.
    vm_compute. repeat constructor; discriminate.
Qed.

(** ** Reading the store after a write *)

Ltac store_unfold :=
  unfold Spec.child_edge, Spec.parent_edge,
    chunks_of, parents_of, blocks_of, origins_of, modules_of, entrypoints_of,
    write_chunks, write_parents, write_blocks, write_origins, write_modules,
    write_entrypoints, write_block_chunks, write_block_chunkReason,
    write_block_blocks, write_block_parent, write_reasons, write_module_chunks,
    set_chunk, set_block, set_origin, set_module, upd in *;
  simpl in *.

Ltac store_cases :=
  repeat (rewrite ?Nat.eqb_refl;
          match goal with
          | |- context [?x =? ?c] =>
              destruct (Nat.eqb_spec x c); subst; simpl; try congruence
          end).

Ltac store_crush := intros; store_unfold; store_cases; try reflexivity; try congruence.

Section StoreFacts.
Import Spec.

Lemma chunks_write_chunks c l st x :
  chunks_of (write_chunks c l st) x = if x =? c then l else chunks_of st x.
Proof. store_crush. Qed.

Lemma parents_write_chunks c l st x :
  parents_of (write_chunks c l st) x = parents_of st x.
Proof. store_crush. Qed.

Lemma parents_write_parents c l st x :
  parents_of (write_parents c l st) x = if x =? c then l else parents_of st x.
Proof. store_crush. Qed.

Lemma chunks_write_parents c l st x :
  chunks_of (write_parents c l st) x = chunks_of st x.
Proof. store_crush. Qed.

Lemma origins_write_origins c l st x :
  origins_of (write_origins c l st) x = if x =? c then l else origins_of st x.
Proof. store_crush. Qed.

Lemma origin_write_origins c l st o :
  origin (write_origins c l st) o = origin st o.
Proof. store_crush. Qed.

Lemma same_edges_refl st : same_edges st st.
Proof. split; reflexivity. Qed.

Lemma same_edges_trans st1 st2 st3 :
  same_edges st1 st2 -> same_edges st2 st3 -> same_edges st1 st3.
Proof.
  intros [H1 H2] [H3 H4]. split; intros x; [rewrite H3, H1 | rewrite H4, H2]; reflexivity.
Qed.

(** A loop whose every round leaves the edges alone leaves them alone. *)
Lemma same_edges_fold (A : Type) (f : Store -> A -> Store) (l : list A) :
  (forall s x, same_edges s (f s x)) ->
  forall st, same_edges st (fold_left f l st).
Proof.
  intros Hf. induction l as [| x l IH]; intros st; simpl.
  - apply same_edges_refl.
  - eapply same_edges_trans; [apply Hf | apply IH].
Qed.

Lemma same_edges_forEach (A : Type)
    (body : Store -> A -> Store * Completion unit) (l : list A) :
  (forall s x, same_edges s (fst (body s x))) ->
  forall st, same_edges st (fst (Chunk.forEach body l st)).
Proof.
  intros Hf. induction l as [| x l IH]; intros st; simpl.
  - apply same_edges_refl.
  - specialize (Hf st x). destruct (body st x) as [st1 [u | e]]; simpl in *; auto.
    eapply same_edges_trans; [exact Hf | apply IH].
Qed.

Lemma same_edges_child st st' a b :
  same_edges st st' -> (child_edge st' a b <-> child_edge st a b).
Proof. intros [H _]. unfold child_edge. now rewrite H. Qed.

Lemma same_edges_parent st st' a b :
  same_edges st st' -> (parent_edge st' a b <-> parent_edge st a b).
Proof. intros [_ H]. unfold parent_edge. now rewrite H. Qed.

Lemma same_edges_backed gone st st' :
  same_edges st st' -> backed gone st -> backed gone st'.
Proof.
  intros He [H1 H2]. split; intros a b Hg Hab.
  - apply (same_edges_parent a b He). apply H1; auto.
    now apply (same_edges_child a b He).
  - apply (same_edges_child a b He). apply H2; auto.
    now apply (same_edges_parent a b He).
Qed.

Lemma same_edges_no_duplicates st st' :
  same_edges st st' -> no_duplicates st -> no_duplicates st'.
Proof.
  intros [H1 H2] H c. rewrite H1, H2. apply H.
Qed.
End StoreFacts.

(** ** canBeIntegrated and the cost model *)

Section CostFacts.
Import Chunk.

Lemma isInitial_true_iff st c : isInitial st c = true <-> entrypoints_of st c <> [].
Proof.
  unfold isInitial. destruct (entrypoints_of st c); simpl; split; intros H;
    try discriminate; try reflexivity; congruence.
Qed.

Lemma isInitial_false_iff st c : isInitial st c = false <-> entrypoints_of st c = [].
Proof.
  unfold isInitial. destruct (entrypoints_of st c); simpl; split; intros H;
    try discriminate; try reflexivity.
Qed.

Lemma single_parent_iff (self : ChunkRef) (l : list ChunkRef) :
  (negb (List.length l =? 1) || negb (set_has self l)) = false <-> l = [self].
Proof.
  unfold set_has. split.
  - intros H. apply orb_false_iff in H. destruct H as [H1 H2].
    apply negb_false_iff in H1, H2. apply Nat.eqb_eq in H1.
    apply has_true_iff in H2.
    destruct l as [| x [| y l]]; simpl in H1; try discriminate.
    destruct H2 as [-> | []]. reflexivity.
  - intros ->. simpl. unfold JsSet.has. simpl.
    destruct (Nat.eq_dec self self); [reflexivity | congruence].
Qed.

(** The size [integratedSize] accumulates: the receiver's modules, then
  those modules of the other chunk that the receiver lacks. *)
Lemma fold_left_Zadd (l : list Z) (acc : Z) :
  fold_left Z.add l acc = (acc + fold_right Z.add 0 l)%Z.
Proof.
  revert acc. induction l as [| x l IH]; intros acc; simpl; [lia|].
  rewrite IH. lia.
Qed.

Lemma modulesSize_sum st c :
  modulesSize st c =
    fold_right Z.add 0%Z (map (fun m => ModuleObj.size (module st m)) (modules_of st c)).
Proof.
  unfold modulesSize.
  assert (G : forall l acc,
             fold_left (fun count m => (count + ModuleObj.size (module st m))%Z) l acc
             = (acc + fold_right Z.add 0 (map (fun m => ModuleObj.size (module st m)) l))%Z).
  { induction l as [| m l IH]; intros acc; simpl; [lia|]. rewrite IH. lia. }
  rewrite G. lia.
Qed.

Lemma integrated_fold st (mine : list ModuleRef) (l : list ModuleRef) (acc : Z) :
  fold_left
    (fun acc otherModule =>
       if negb (set_has otherModule mine)
       then (acc + ModuleObj.size (module st otherModule))%Z else acc) l acc
  = (acc + fold_right Z.add 0
             (map (fun m => ModuleObj.size (module st m))
                  (filter (fun m => negb (set_has m mine)) l)))%Z.
Proof.
  revert acc. induction l as [| m l IH]; intros acc; simpl; [lia|].
  rewrite IH. destruct (negb (set_has m mine)); simpl; lia.
Qed.
End CostFacts.


(** C4.  [canBeIntegrated(other)] is false whenever [other] is initial
  (has an entrypoint); when [other] is not initial and the receiver is,
  it is true exactly when [other]'s parents are the receiver and nothing
  else; when neither is initial it is true. *)
Theorem canBeIntegrated_cases (st : Store) (self other : ChunkRef) :
  (entrypoints_of st other <> [] -> Chunk.canBeIntegrated st self other = false)
  /\ (entrypoints_of st other = [] -> entrypoints_of st self <> [] ->
      (Chunk.canBeIntegrated st self other = true <-> parents_of st other = [self]))
  /\ (entrypoints_of st other = [] -> entrypoints_of st self = [] ->
      Chunk.canBeIntegrated st self other = true).
Proof.
  unfold Chunk.canBeIntegrated. repeat split.
  - intros H. apply isInitial_true_iff in H. now rewrite H.
  - apply isInitial_false_iff in H. apply isInitial_true_iff in H0.
    rewrite H, H0. intros H1. apply single_parent_iff.
    destruct (negb _ || negb _); [discriminate | reflexivity].
  - apply isInitial_false_iff in H. apply isInitial_true_iff in H0.
    rewrite H, H0. intros H1. apply single_parent_iff in H1. now rewrite H1.
  - intros H H0. apply isInitial_false_iff in H, H0. now rewrite H, H0.
Qed.

(** C5.  [integratedSize(other, options)] returns the "not mergeable"
  value when [canBeIntegrated(other)] is false; otherwise it is
  [addMultiplierAndOverhead] of the receiver's [modulesSize] plus the
  sizes of those modules of [other] that are not members of the receiver.
  In the scenario (A initial, 100 in modules; B with the single parent A
  and one module of size 50; overhead 10000, multiplier 10) the result is
  11500. *)
Theorem integratedSize_spec :
  (forall (st : Store) (self other : ChunkRef) (options : Chunk.Options),
      (Chunk.canBeIntegrated st self other = false ->
       Chunk.integratedSize st self other options = None)
      /\ (Chunk.canBeIntegrated st self other = true ->
          Chunk.integratedSize st self other options =
            Some (Chunk.addMultiplierAndOverhead st self
                    (Chunk.modulesSize st self
                     + fold_right Z.add 0
                         (map (fun m => ModuleObj.size (module st m))
                              (filter (fun m => negb (Chunk.set_has m (modules_of st self)))
                                      (modules_of st other))))%Z
                    options)))
  /\ (Chunk.isInitial Scenario.st 0 = true
      /\ Chunk.isInitial Scenario.st 1 = false
      /\ parents_of Scenario.st 1 = [0]
      /\ Chunk.modulesSize Scenario.st 0 = 100%Z
      /\ Chunk.integratedSize Scenario.st 0 1 Scenario.options = Some 11500%Z).
Proof.
  split.
  - intros st self other options. unfold Chunk.integratedSize. split; intros H; rewrite H; simpl.
    + reflexivity.
    + now rewrite integrated_fold.
  - repeat split; reflexivity.
Qed.

(** C10.  In [addMultiplierAndOverhead] a zero [entryChunkMultiplicator]
  is replaced by the default 10 for an initial chunk, while a zero
  [chunkOverhead] is honoured: with both zero an initial chunk gets
  [size * 10], not 0. *)
Theorem addMultiplierAndOverhead_falsy_multiplier
    (st : Store) (self : ChunkRef) (size : Z) :
  Chunk.isInitial st self = true ->
  (forall overhead : Z,
      Chunk.addMultiplierAndOverhead st self size
        {| Chunk.chunkOverhead := Some overhead;
           Chunk.entryChunkMultiplicator := Some 0%Z |}
      = (size * 10 + overhead)%Z)
  /\ Chunk.addMultiplierAndOverhead st self size
       {| Chunk.chunkOverhead := None; Chunk.entryChunkMultiplicator := Some 0%Z |}
     = (size * 10 + 10000)%Z
  /\ (forall multiplicator : Z, multiplicator <> 0%Z ->
      Chunk.addMultiplierAndOverhead st self size
        {| Chunk.chunkOverhead := Some 0%Z;
           Chunk.entryChunkMultiplicator := Some multiplicator |}
      = (size * multiplicator)%Z)
  /\ Chunk.addMultiplierAndOverhead st self size
       {| Chunk.chunkOverhead := Some 0%Z; Chunk.entryChunkMultiplicator := Some 0%Z |}
     = (size * 10)%Z.
Proof.
  intros Hi. unfold Chunk.addMultiplierAndOverhead. rewrite Hi. simpl.
  repeat split; intros; try lia.
  destruct (Z.eqb_spec multiplicator 0); [contradiction | lia].
Qed.

(** ** Steps that leave blocks and origins alone *)

Section RecordFacts.
Import Spec Chunk Collaborators.

Lemma same_records_refl st : same_records st st.
Proof. repeat split. Qed.

Lemma same_records_trans st1 st2 st3 :
  same_records st1 st2 -> same_records st2 st3 -> same_records st1 st3.
Proof.
  intros (A1 & A2 & A3 & A4 & A5) (B1 & B2 & B3 & B4 & B5).
  repeat split; intros x;
    [rewrite B1, A1 | rewrite B2, A2 | rewrite B3, A3 | rewrite B4, A4 | rewrite B5, A5];
    reflexivity.
Qed.

Lemma same_records_fold (A : Type) (f : Store -> A -> Store) (l : list A) :
  (forall s x, same_records s (f s x)) ->
  forall st, same_records st (fold_left f l st).
Proof.
  intros Hf. induction l as [| x l IH]; intros st; simpl.
  - apply same_records_refl.
  - eapply same_records_trans; [apply Hf | apply IH].
Qed.

Lemma same_records_write_chunks c l st : same_records st (write_chunks c l st).
Proof. repeat split; store_crush. Qed.

Lemma same_records_write_parents c l st : same_records st (write_parents c l st).
Proof. repeat split; store_crush. Qed.

Lemma same_records_write_modules c l st : same_records st (write_modules c l st).
Proof. repeat split; store_crush. Qed.

Lemma same_records_write_module_chunks m l st :
  same_records st (write_module_chunks m l st).
Proof. repeat split; store_crush. Qed.

Lemma same_records_addChunk a b st : same_records st (snd (addChunk a b st)).
Proof.
  unfold addChunk. destruct (set_has b (chunks_of st a)); simpl.
  - apply same_records_refl.
  - apply same_records_write_chunks.
Qed.

Lemma same_records_addParent a b st : same_records st (snd (addParent a b st)).
Proof.
  unfold addParent. destruct (set_has b (parents_of st a)); simpl.
  - apply same_records_refl.
  - apply same_records_write_parents.
Qed.

Lemma same_records_addModule a m st : same_records st (snd (addModule a m st)).
Proof.
  unfold addModule. destruct (negb (set_has m (modules_of st a))); simpl.
  - apply same_records_write_modules.
  - apply same_records_refl.
Qed.

Lemma same_records_Module_removeChunk m c st :
  same_records st (Module_removeChunk m c st).
Proof. apply same_records_write_module_chunks. Qed.

Lemma same_records_Module_addChunk m c st :
  same_records st (Module_addChunk m c st).
Proof.
  unfold Module_addChunk. destruct (JsSet.has _ _ _).
  - apply same_records_refl.
  - apply same_records_write_module_chunks.
Qed.

Create HintDb records.
#[local] Hint Resolve same_records_refl same_records_write_chunks same_records_write_parents
  same_records_write_modules same_records_addChunk same_records_addParent
  same_records_addModule same_records_Module_removeChunk
  same_records_Module_addChunk : records.

Lemma same_records_replaceChunk a o n st : same_records st (replaceChunk a o n st).
Proof.
  unfold replaceChunk. destruct (negb (a =? n)); auto with records.
  destruct (addParent n a _) as [added st2] eqn:E.
  assert (H2 : same_records (write_chunks a (set_delete o (chunks_of st a)) st) st2).
  { change st2 with (snd (added, st2)). rewrite <- E. auto with records. }
  destruct added.
  - eapply same_records_trans; [apply same_records_write_chunks|].
    eapply same_records_trans; [exact H2 | auto with records].
  - eapply same_records_trans; [apply same_records_write_chunks | exact H2].
Qed.

Lemma same_records_replaceParentChunk a o n st :
  same_records st (replaceParentChunk a o n st).
Proof.
  unfold replaceParentChunk. destruct (negb (a =? n)); auto with records.
  destruct (addChunk n a _) as [added st2] eqn:E.
  assert (H2 : same_records (write_parents a (set_delete o (parents_of st a)) st) st2).
  { change st2 with (snd (added, st2)). rewrite <- E. auto with records. }
  destruct added.
  - eapply same_records_trans; [apply same_records_write_parents|].
    eapply same_records_trans; [exact H2 | auto with records].
  - eapply same_records_trans; [apply same_records_write_parents | exact H2].
Qed.

Lemma same_records_integrate_modules a b st : same_records st (integrate_modules a b st).
Proof.
  unfold integrate_modules.
  eapply same_records_trans; [| apply same_records_write_modules].
  apply same_records_fold. intros s m. unfold moveModule.
  eapply same_records_trans; [apply same_records_Module_removeChunk|].
  eapply same_records_trans; [apply same_records_Module_addChunk|].
  apply same_records_addModule.
Qed.

Lemma same_records_integrate_parents a b st : same_records st (integrate_parents a b st).
Proof.
  unfold integrate_parents.
  eapply same_records_trans; [| apply same_records_write_parents].
  apply same_records_fold. intros s m. apply same_records_replaceChunk.
Qed.

Lemma same_records_integrate_children a b st : same_records st (integrate_children a b st).
Proof.
  unfold integrate_children.
  eapply same_records_trans; [| apply same_records_write_chunks].
  apply same_records_fold. intros s m. apply same_records_replaceParentChunk.
Qed.

Lemma same_records_integrate_cleanup a b st : same_records st (integrate_cleanup a b st).
Proof.
  unfold integrate_cleanup.
  repeat (eapply same_records_trans;
          [| first [apply same_records_write_parents | apply same_records_write_chunks]]).
  apply same_records_refl.
Qed.

Lemma same_records_remove_modules x st : same_records st (remove_modules x st).
Proof.
  unfold remove_modules. apply same_records_fold.
  intros s m. apply same_records_Module_removeChunk.
Qed.

Lemma same_records_remove_edges x st : same_records st (remove_edges x st).
Proof.
  unfold remove_edges.
  eapply same_records_trans; apply same_records_fold.
  - intros s p. unfold remove_parent_step.
    eapply same_records_trans; [apply same_records_write_chunks|].
    apply same_records_fold. intros s' c. unfold remove_connect.
    eapply same_records_trans; [apply same_records_addParent | apply same_records_addChunk].
  - intros s c. apply same_records_write_parents.
Qed.
End RecordFacts.

(** ** Blocks under [remove] and [integrate] *)

Section BlockFacts.
Import Spec Chunk.

Lemma fold_left_rel (A : Type) (R : Store -> Store -> Prop)
    (f : Store -> A -> Store) (l : list A) :
  (forall s, R s s) -> (forall a b c, R a b -> R b c -> R a c) ->
  (forall s x, R s (f s x)) ->
  forall st, R st (fold_left f l st).
Proof.
  intros Hr Ht Hf. induction l as [| x l IH]; intros st; simpl; auto.
  eapply Ht; [apply Hf | apply IH].
Qed.

Lemma forEach_invariant (A : Type) (P : Store -> Prop)
    (body : Store -> A -> Store * Completion unit) (l : list A) :
  (forall s x, P s -> P (fst (body s x))) ->
  forall st, P st -> P (fst (forEach body l st)).
Proof.
  intros Hb. induction l as [| x l IH]; intros st H; simpl; auto.
  specialize (Hb st x H). destruct (body st x) as [st1 [u | e]]; simpl in *; auto.
Qed.

Lemma fold_left_invariant (A : Type) (P : Store -> Prop)
    (f : Store -> A -> Store) (l : list A) :
  (forall s x, P s -> P (f s x)) ->
  forall st, P st -> P (fold_left f l st).
Proof.
  intros Hf. induction l as [| x l IH]; intros st H; simpl; auto.
Qed.

Lemma same_records_blocks st st' : same_records st st' -> same_blocks st st'.
Proof. intros (H & _). exact H. Qed.

Lemma same_records_origins st st' : same_records st st' -> same_origins st st'.
Proof. intros (_ & H1 & _ & H2 & _). split; assumption. Qed.

Lemma same_blocks_trans st1 st2 st3 :
  same_blocks st1 st2 -> same_blocks st2 st3 -> same_blocks st1 st3.
Proof. intros H1 H2 b. rewrite H2. apply H1. Qed.

Lemma same_origins_trans st1 st2 st3 :
  same_origins st1 st2 -> same_origins st2 st3 -> same_origins st1 st3.
Proof.
  intros [A1 A2] [B1 B2]. split; intros x; [rewrite B1 | rewrite B2]; auto.
Qed.

Lemma block_ok_same_blocks st st' b :
  same_blocks st st' -> block_ok st b -> block_ok st' b.
Proof. intros H. unfold block_ok. now rewrite H. Qed.

Lemma remove_block_step_ok self reason st b0 b :
  block_ok st b -> block_ok (fst (remove_block_step self reason st b0)) b.
Proof.
  intros H. unfold remove_block_step.
  destruct (BlockObj.chunks (block st b0)) as [cs|] eqn:Ecs; simpl; auto.
  destruct (0 <=? JsArray.indexOf Nat.eq_dec self cs)%Z; simpl; auto.
  destruct (JsArray.splice_first Nat.eq_dec self cs) as [| c cs'] eqn:Es; simpl.
  - unfold block_ok in *. store_unfold. store_cases; auto; try congruence.
  - unfold block_ok in *. store_unfold. store_cases; auto; try congruence.
Qed.

Lemma same_blocks_addBlock self b st : same_blocks st (snd (addBlock self b st)).
Proof.
  unfold addBlock. destruct (_ <? _)%Z; simpl; intros x; store_crush.
Qed.

Lemma integrate_block_step_ok self other reason st b0 b :
  block_ok st b -> block_ok (integrate_block_step self other reason st b0) b.
Proof.
  intros H. unfold integrate_block_step.
  eapply block_ok_same_blocks; [apply same_blocks_addBlock|].
  unfold block_ok in *. store_unfold. store_cases; auto.
  destruct (BlockObj.chunks (block st b0)) as [[| c cs]|]; simpl; auto.
Qed.

Lemma same_blocks_integrate_origins self other reason st :
  same_blocks st (integrate_origins self other reason st).
Proof.
  unfold integrate_origins.
  set (st1 := write_origins self (origins_of st self ++ origins_of st other) st).
  apply same_blocks_trans with (st2 := st1).
  - intros b. subst st1. store_crush.
  - apply fold_left_rel with (R := same_blocks).
    + intros s b. reflexivity.
    + apply same_blocks_trans.
    + intros s o b. unfold integrate_origin_step.
      destruct (OriginObj.reasons (origin s o)) as [[| r rs]|];
        try destruct (string_dec r reason); store_crush.
Qed.

Lemma integrate_blocks_ok self other reason st b :
  block_ok st b -> block_ok (integrate_blocks self other reason st) b.
Proof.
  intros H. unfold integrate_blocks.
  eapply block_ok_same_blocks with (st := fold_left _ _ st).
  - intros x. store_crush.
  - apply fold_left_invariant with (P := fun s => block_ok s b); auto.
    intros s x Hs. now apply integrate_block_step_ok.
Qed.
End BlockFacts.

(** C8.  A block whose [chunks] field is a non-empty list, or [null] with
  a recorded reason, is in one of these two shapes again after
  [remove(reason)] on any chunk (whether [remove] returns or raises) and
  after [integrate(other, reason)] on any two chunks: never an empty
  list. *)
Theorem block_chunk_list_invariant
    (st : Store) (self other : ChunkRef) (reason : Reason) (b : BlockRef) :
  Spec.block_ok st b ->
  Spec.block_ok (fst (Chunk.remove self reason st)) b
  /\ Spec.block_ok (snd (Chunk.integrate self other reason st)) b.
Proof.
  intros H. split.
  - unfold Chunk.remove.
    apply forEach_invariant with (P := fun s => Spec.block_ok s b).
    + intros s x Hs. now apply remove_block_step_ok.
    + eapply block_ok_same_blocks; [| exact H].
      apply same_records_blocks.
      eapply same_records_trans;
        [apply same_records_remove_modules | apply same_records_remove_edges].
  - unfold Chunk.integrate.
    destruct (negb (Chunk.canBeIntegrated st self other)); simpl; auto.
    eapply block_ok_same_blocks;
      [apply same_records_blocks, same_records_integrate_cleanup|].
    eapply block_ok_same_blocks; [apply same_blocks_integrate_origins|].
    apply integrate_blocks_ok.
    eapply block_ok_same_blocks; [| exact H].
    apply same_records_blocks.
    eapply same_records_trans; [apply same_records_integrate_modules|].
    eapply same_records_trans;
      [apply same_records_integrate_parents | apply same_records_integrate_children].
Qed.

(** ** Origins under [integrate] *)

Section OriginFacts.
Import Spec Chunk.

Lemma reasons_after_idem reason rs :
  reasons_after reason (reasons_after reason rs) = reasons_after reason rs.
Proof.
  destruct rs as [[| r rs]|]; simpl;
    try (destruct (string_dec reason reason); congruence).
  destruct (string_dec r reason) as [E | NE]; simpl.
  - destruct (string_dec r reason); congruence.
  - destruct (string_dec reason reason); congruence.
Qed.

Lemma integrate_origin_step_reasons reason st o o' :
  OriginObj.reasons (origin (integrate_origin_step reason st o) o') =
    if o' =? o then reasons_after reason (OriginObj.reasons (origin st o))
    else OriginObj.reasons (origin st o').
Proof.
  unfold integrate_origin_step, reasons_after.
  destruct (OriginObj.reasons (origin st o)) as [[| r rs]|] eqn:E;
    try destruct (string_dec r reason); store_crush.
Qed.

Lemma integrate_origin_step_origins reason st o c :
  origins_of (integrate_origin_step reason st o) c = origins_of st c.
Proof.
  unfold integrate_origin_step.
  destruct (OriginObj.reasons (origin st o)) as [[| r rs]|];
    try destruct (string_dec r reason); store_crush.
Qed.

Lemma integrate_origin_step_other reason st o o' :
  o' <> o -> origin (integrate_origin_step reason st o) o' = origin st o'.
Proof.
  intros H. unfold integrate_origin_step.
  destruct (OriginObj.reasons (origin st o)) as [[| r rs]|];
    try destruct (string_dec r reason); store_crush.
Qed.

(** The closing loop over [this.origins]: an origin met once or several
  times ends with the reason in front; an origin not met is as
  before. *)
Lemma origin_loop_reasons reason (l : list OriginRef) : forall st o,
  (In o l ->
   OriginObj.reasons (origin (fold_left (integrate_origin_step reason) l st) o) =
     reasons_after reason (OriginObj.reasons (origin st o)))
  /\ (~ In o l ->
      origin (fold_left (integrate_origin_step reason) l st) o = origin st o).
Proof.
  induction l as [| x l IH]; intros st o; simpl.
  - split; [intros [] | reflexivity].
  - destruct (IH (integrate_origin_step reason st x) o) as [IH1 IH2]. split.
    + intros Hin. destruct (in_dec Nat.eq_dec o l) as [Hl | Hl].
      * rewrite IH1 by assumption. rewrite integrate_origin_step_reasons.
        destruct (Nat.eqb_spec o x); subst; [apply reasons_after_idem | reflexivity].
      * rewrite IH2 by assumption.
        destruct Hin as [-> | Hin]; [| contradiction].
        rewrite integrate_origin_step_reasons. now rewrite Nat.eqb_refl.
    + intros Hn. rewrite IH2 by tauto.
      apply integrate_origin_step_other. intros ->. tauto.
Qed.

Lemma origin_loop_origins reason (l : list OriginRef) : forall st c,
  origins_of (fold_left (integrate_origin_step reason) l st) c = origins_of st c.
Proof.
  induction l as [| x l IH]; intros st c; simpl; auto.
  rewrite IH. apply integrate_origin_step_origins.
Qed.

Lemma same_origins_integrate_blocks self other reason st :
  same_origins st (integrate_blocks self other reason st).
Proof.
  unfold integrate_blocks.
  set (st1 := fold_left _ _ st).
  apply same_origins_trans with (st2 := st1).
  - subst st1. apply fold_left_rel with (R := same_origins).
    + intros s. split; reflexivity.
    + apply same_origins_trans.
    + intros s b. unfold integrate_block_step, addBlock.
      destruct (_ <? _)%Z; simpl; split; intros x; store_crush.
  - split; intros x; store_crush.
Qed.

Lemma same_origins_before_origin_step self other reason st :
  same_origins st
    (integrate_blocks self other reason
       (integrate_children self other
          (integrate_parents self other (integrate_modules self other st)))).
Proof.
  eapply same_origins_trans; [| apply same_origins_integrate_blocks].
  apply same_records_origins.
  eapply same_records_trans; [apply same_records_integrate_modules|].
  eapply same_records_trans;
    [apply same_records_integrate_parents | apply same_records_integrate_children].
Qed.
End OriginFacts.

(** C7, as the code has it.  A successful [integrate(other, reason)]
  appends [other]'s origins to the receiver's, and then gives the reason
  to every origin the receiver now holds, those just taken from [other]
  included: an origin without a history gets the history [reason], any
  other gets [reason] in front unless its first entry is [reason] already.
  Origins the receiver does not hold are left as they were. *)
Theorem integrate_tags_all_origins
    (st : Store) (self other : ChunkRef) (reason : Reason) :
  Chunk.canBeIntegrated st self other = true ->
  let st' := snd (Chunk.integrate self other reason st) in
  origins_of st' self = origins_of st self ++ origins_of st other
  /\ (forall o, In o (origins_of st' self) ->
        OriginObj.reasons (origin st' o) =
          Spec.reasons_after reason (OriginObj.reasons (origin st o)))
  /\ (forall o, ~ In o (origins_of st' self) -> origin st' o = origin st o).
Proof.
  intros Hc st'. subst st'. unfold Chunk.integrate. rewrite Hc.
  cbv beta iota zeta delta [negb snd].
  set (st4 := Chunk.integrate_blocks self other reason _).
  destruct (same_origins_before_origin_step self other reason st) as [Ho Hl].
  fold st4 in Ho, Hl.
  destruct (same_records_origins
              (same_records_integrate_cleanup self other
                 (Chunk.integrate_origins self other reason st4))) as [Co Cl].
  assert (Hlist : origins_of (Chunk.integrate_origins self other reason st4) self
                  = origins_of st self ++ origins_of st other).
  { unfold Chunk.integrate_origins. rewrite origin_loop_origins.
    rewrite !Hl. now rewrite origins_write_origins, Nat.eqb_refl. }
  split; [now rewrite Cl|]. split.
  - intros o Hin. rewrite Cl, Hlist in Hin. rewrite Co.
    unfold Chunk.integrate_origins.
    set (st5 := write_origins self _ st4).
    assert (E5 : origins_of st5 self = origins_of st self ++ origins_of st other).
    { subst st5. rewrite !Hl. now rewrite origins_write_origins, Nat.eqb_refl. }
    rewrite E5.
    rewrite (proj1 (origin_loop_reasons reason _ st5 o) Hin).
    f_equal. subst st5. rewrite origin_write_origins. now rewrite Ho.
  - intros o Hn. rewrite Cl, Hlist in Hn. rewrite Co.
    unfold Chunk.integrate_origins.
    set (st5 := write_origins self _ st4).
    assert (E5 : origins_of st5 self = origins_of st self ++ origins_of st other).
    { subst st5. rewrite !Hl. now rewrite origins_write_origins, Nat.eqb_refl. }
    rewrite E5.
    rewrite (proj2 (origin_loop_reasons reason _ st5 o) Hn).
    subst st5. rewrite origin_write_origins. apply Ho.
Qed.

(** C7, the claim as stated, fails: with chunk 0 holding origin 0 and
  chunk 1 holding origin 1, [integrate] of chunk 1 into chunk 0 records
  the reason on origin 1 too, the origin taken from the other chunk. *)
Lemma integrate_tags_appended_origins :
  Chunk.canBeIntegrated Examples.two_origins 0 1 = true
  /\ OriginObj.reasons (origin Examples.two_origins 1) = None
  /\ OriginObj.reasons
       (origin (snd (Chunk.integrate 0 1 "merged"%string Examples.two_origins)) 1)
     = Some ["merged"%string]
  /\ ~ Spec.reason_for_pre_existing_origins_only.
Proof.
  split; [reflexivity|]. split; [reflexivity|]. split; [reflexivity|].
  intros H.
  destruct (H Examples.two_origins 0 1 "merged"%string eq_refl) as (_ & _ & H3).
  specialize (H3 1).
  assert (E : OriginObj.reasons
                (origin (snd (Chunk.integrate 0 1 "merged"%string Examples.two_origins)) 1)
              = Some ["merged"%string]) by reflexivity.
  rewrite E in H3.
  assert (E0 : OriginObj.reasons (origin Examples.two_origins 1) = None) by reflexivity.
  rewrite E0 in H3.
  assert (D : Some ["merged"%string] = @None (list Reason)).
  { apply H3.
    - left. reflexivity.
    - intros [F | []]. discriminate. }
  discriminate.
Qed.

(** ** getIdentForChunk *)

Section IdentFacts.
Import DependenciesBlock Spec.

Lemma repeat_snoc (A : Type) (s : A) (n : nat) (l : list A) :
  repeat s n ++ s :: l = s :: repeat s n ++ l.
Proof. induction n as [| n IH]; simpl; [reflexivity | now rewrite IH]. Qed.

Lemma walk_parents_repeats fuel : forall st self p parent ident ident',
  walk_parents fuel st self p parent ident = Some ident' ->
  exists n, ident' = repeat (own_segment st self p) n ++ ident.
Proof.
  induction fuel as [| fuel IH]; intros st self p parent ident ident' H.
  - destruct parent; simpl in H; [discriminate|]. inversion H. now exists 0.
  - destruct parent as [pr|]; simpl in H.
    + apply IH in H. destruct H as [n ->]. exists (S n).
      fold (own_segment st self p). simpl. now rewrite repeat_snoc.
    + inversion H. now exists 0.
Qed.
End IdentFacts.

(** C9, the code at a nested block.  Block 5 is the third child of block
  2, which is the second child of block 0.  Walking up from block 5 the
  loop pushes one segment per ancestor, but each of them is block 5's own
  position under block 2 ("2/2"); the position of the ancestor block 2
  under block 0 ("1/1") never appears.  A block without an [identifier]
  method gets [null]. *)
Theorem getIdentForChunk_at_nested_block :
  BlockObj.parent (block Examples.nested_blocks 5) = Some 2
  /\ BlockObj.parent (block Examples.nested_blocks 2) = Some 0
  /\ BlockObj.parent (block Examples.nested_blocks 0) = None
  /\ BlockObj.blocks (block Examples.nested_blocks 2) = [3; 4; 5]
  /\ BlockObj.blocks (block Examples.nested_blocks 0) = [1; 2]
  /\ Spec.own_segment Examples.nested_blocks 5 2 = "2/2"%string
  /\ Spec.own_segment Examples.nested_blocks 2 0 = "1/1"%string
  /\ DependenciesBlock.getIdentForChunk Examples.keep_path 10
       Examples.nested_blocks 5 7 EmptyString
     = Some (Normal (Some "lazy:2/2:2/2"%string))
  /\ DependenciesBlock.getIdentForChunk Examples.keep_path 10
       Examples.nested_blocks 2 7 EmptyString
     = Some (Normal None).
Proof. repeat split; reflexivity. Qed.

(** ** Edges after each primitive step *)

Section EdgeFacts.
Import Spec Chunk.

Lemma set_has_true v l : set_has v l = true <-> In v l.
Proof. apply has_true_iff. Qed.

Lemma set_has_false v l : set_has v l = false <-> ~ In v l.
Proof. apply has_false_iff. Qed.

Lemma addChunk_fst a b st : fst (addChunk a b st) = negb (set_has b (chunks_of st a)).
Proof. unfold addChunk. now destruct (set_has b (chunks_of st a)). Qed.

Lemma addParent_fst b a st : fst (addParent b a st) = negb (set_has a (parents_of st b)).
Proof. unfold addParent. now destruct (set_has a (parents_of st b)). Qed.

Lemma addChunk_child a b st x y :
  child_edge (snd (addChunk a b st)) x y <-> child_edge st x y \/ (x = a /\ y = b).
Proof.
  unfold addChunk, child_edge.
  destruct (set_has b (chunks_of st a)) eqn:E; simpl.
  - apply set_has_true in E. split; [auto|]. intros [H | [-> ->]]; auto.
  - rewrite chunks_write_chunks. destruct (Nat.eqb_spec x a); subst.
    + unfold set_add. rewrite add_In. intuition.
    + intuition.
Qed.

Lemma addChunk_parents a b st x :
  parents_of (snd (addChunk a b st)) x = parents_of st x.
Proof.
  unfold addChunk. destruct (set_has b (chunks_of st a)); simpl; auto.
  apply parents_write_chunks.
Qed.

Lemma addParent_parent b a st x y :
  parent_edge (snd (addParent b a st)) x y <-> parent_edge st x y \/ (x = a /\ y = b).
Proof.
  unfold addParent, parent_edge.
  destruct (set_has a (parents_of st b)) eqn:E; simpl.
  - apply set_has_true in E. split; [auto|]. intros [H | [-> ->]]; auto.
  - rewrite parents_write_parents. destruct (Nat.eqb_spec y b); subst.
    + unfold set_add. rewrite add_In. intuition.
    + intuition.
Qed.

Lemma addParent_chunks b a st x :
  chunks_of (snd (addParent b a st)) x = chunks_of st x.
Proof.
  unfold addParent. destruct (set_has a (parents_of st b)); simpl; auto.
  apply chunks_write_parents.
Qed.

Lemma addChunk_parent a b st x y :
  parent_edge (snd (addChunk a b st)) x y <-> parent_edge st x y.
Proof. unfold parent_edge. now rewrite addChunk_parents. Qed.

Lemma addParent_child b a st x y :
  child_edge (snd (addParent b a st)) x y <-> child_edge st x y.
Proof. unfold child_edge. now rewrite addParent_chunks. Qed.

(** [a._chunks.delete(b)] *)
Lemma delete_child_child a b st x y :
  child_edge (write_chunks a (set_delete b (chunks_of st a)) st) x y
  <-> child_edge st x y /\ ~ (x = a /\ y = b).
Proof.
  unfold child_edge. rewrite chunks_write_chunks.
  destruct (Nat.eqb_spec x a); subst.
  - unfold set_delete. rewrite delete_In. intuition.
  - intuition.
Qed.

Lemma write_chunks_parent a l st x y :
  parent_edge (write_chunks a l st) x y <-> parent_edge st x y.
Proof. unfold parent_edge. now rewrite parents_write_chunks. Qed.

(** [b._parents.delete(a)] *)
Lemma delete_parent_parent b a st x y :
  parent_edge (write_parents b (set_delete a (parents_of st b)) st) x y
  <-> parent_edge st x y /\ ~ (x = a /\ y = b).
Proof.
  unfold parent_edge. rewrite parents_write_parents.
  destruct (Nat.eqb_spec y b); subst.
  - unfold set_delete. rewrite delete_In. intuition.
  - intuition.
Qed.

Lemma write_parents_child b l st x y :
  child_edge (write_parents b l st) x y <-> child_edge st x y.
Proof. unfold child_edge. now rewrite chunks_write_parents. Qed.

(** [a._chunks.clear()] and [b._parents.clear()] *)
Lemma clear_child a st x y :
  child_edge (write_chunks a [] st) x y <-> child_edge st x y /\ x <> a.
Proof.
  unfold child_edge. rewrite chunks_write_chunks.
  destruct (Nat.eqb_spec x a); subst; simpl; intuition.
Qed.

Lemma clear_parent b st x y :
  parent_edge (write_parents b [] st) x y <-> parent_edge st x y /\ y <> b.
Proof.
  unfold parent_edge. rewrite parents_write_parents.
  destruct (Nat.eqb_spec y b); subst; simpl; intuition.
Qed.

(** Distinct members stay distinct. *)
Lemma no_duplicates_write_chunks a l st :
  NoDup l -> no_duplicates st -> no_duplicates (write_chunks a l st).
Proof.
  intros Hl H c. rewrite chunks_write_chunks, parents_write_chunks.
  destruct (Nat.eqb_spec c a); subst; split; auto; apply H.
Qed.

Lemma no_duplicates_write_parents a l st :
  NoDup l -> no_duplicates st -> no_duplicates (write_parents a l st).
Proof.
  intros Hl H c. rewrite chunks_write_parents, parents_write_parents.
  destruct (Nat.eqb_spec c a); subst; split; auto; apply H.
Qed.

Lemma no_duplicates_addChunk a b st :
  no_duplicates st -> no_duplicates (snd (addChunk a b st)).
Proof.
  intros H. unfold addChunk. destruct (set_has b (chunks_of st a)); simpl; auto.
  apply no_duplicates_write_chunks; auto. apply add_NoDup, H.
Qed.

Lemma no_duplicates_addParent a b st :
  no_duplicates st -> no_duplicates (snd (addParent a b st)).
Proof.
  intros H. unfold addParent. destruct (set_has b (parents_of st a)); simpl; auto.
  apply no_duplicates_write_parents; auto. apply add_NoDup, H.
Qed.

Lemma no_duplicates_delete_child a b st :
  no_duplicates st ->
  no_duplicates (write_chunks a (set_delete b (chunks_of st a)) st).
Proof. intros H. apply no_duplicates_write_chunks; auto. apply delete_NoDup, H. Qed.

Lemma no_duplicates_delete_parent a b st :
  no_duplicates st ->
  no_duplicates (write_parents a (set_delete b (parents_of st a)) st).
Proof. intros H. apply no_duplicates_write_parents; auto. apply delete_NoDup, H. Qed.
End EdgeFacts.

(** ** The two edge loops of [remove] *)

Section RemoveFacts.
Import Spec Chunk Collaborators.

Lemma addChunk_chunks_other a b st x :
  x <> a -> chunks_of (snd (addChunk a b st)) x = chunks_of st x.
Proof.
  intros H. unfold addChunk. destruct (set_has b (chunks_of st a)); simpl; auto.
  rewrite chunks_write_chunks. destruct (Nat.eqb_spec x a); congruence.
Qed.

Lemma addParent_parents_other b a st x :
  x <> b -> parents_of (snd (addParent b a st)) x = parents_of st x.
Proof.
  intros H. unfold addParent. destruct (set_has a (parents_of st b)); simpl; auto.
  rewrite parents_write_parents. destruct (Nat.eqb_spec x b); congruence.
Qed.

(** A call that finds its argument present changes nothing. *)
Lemma addChunk_present a b st : In b (chunks_of st a) -> snd (addChunk a b st) = st.
Proof. intros H. unfold addChunk. apply set_has_true in H. now rewrite H. Qed.

Lemma addParent_present b a st : In a (parents_of st b) -> snd (addParent b a st) = st.
Proof. intros H. unfold addParent. apply set_has_true in H. now rewrite H. Qed.

(** One round of the inner loop adds the edge [parentChunk -> chunk] at
  both ends. *)
Lemma remove_connect_child p st c x y :
  child_edge (remove_connect p st c) x y <-> child_edge st x y \/ (x = p /\ y = c).
Proof.
  unfold remove_connect. rewrite addChunk_child, addParent_child. reflexivity.
Qed.

Lemma remove_connect_parent p st c x y :
  parent_edge (remove_connect p st c) x y <-> parent_edge st x y \/ (x = p /\ y = c).
Proof.
  unfold remove_connect. rewrite addChunk_parent, addParent_parent. reflexivity.
Qed.

Lemma remove_connect_loop p (l : list ChunkRef) : forall st x y,
  (child_edge (fold_left (remove_connect p) l st) x y
     <-> child_edge st x y \/ (x = p /\ In y l))
  /\ (parent_edge (fold_left (remove_connect p) l st) x y
     <-> parent_edge st x y \/ (x = p /\ In y l)).
Proof.
  induction l as [| c l IH]; intros st x y; simpl.
  - split; intuition.
  - destruct (IH (remove_connect p st c) x y) as [IH1 IH2].
    rewrite IH1, IH2, remove_connect_child, remove_connect_parent.
    split; intuition (subst; auto).
Qed.

(** The inner loop never changes the set it runs over, nor the set the
  outer loop runs over. *)
Lemma remove_connect_keeps_iterated self p st c :
  In c (chunks_of st self) -> In p (parents_of st self) ->
  chunks_of (remove_connect p st c) self = chunks_of st self
  /\ parents_of (remove_connect p st c) self = parents_of st self.
Proof.
  intros Hc Hp. unfold remove_connect. split.
  - destruct (Nat.eq_dec self p) as [-> | Hn].
    + rewrite addChunk_present; [apply addParent_chunks|].
      now rewrite addParent_chunks.
    + rewrite addChunk_chunks_other by assumption. apply addParent_chunks.
  - rewrite addChunk_parents.
    destruct (Nat.eq_dec self c) as [-> | Hn].
    + now rewrite addParent_present.
    + now apply addParent_parents_other.
Qed.

(** One round of the outer loop: the edge [p -> self] leaves [p]'s child
  set, then [p] is connected to every sub chunk [self] has at that
  moment. *)
Lemma remove_parent_step_edges self st p x y :
  (child_edge (remove_parent_step self st p) x y
   <-> (child_edge st x y /\ ~ (x = p /\ y = self))
       \/ (x = p /\ child_edge st self y /\ ~ (self = p /\ y = self)))
  /\ (parent_edge (remove_parent_step self st p) x y
      <-> parent_edge st x y
          \/ (x = p /\ child_edge st self y /\ ~ (self = p /\ y = self))).
Proof.
  unfold remove_parent_step.
  set (st1 := write_chunks p (set_delete self (chunks_of st p)) st).
  destruct (remove_connect_loop p (chunks_of st1 self) st1 x y) as [H1 H2].
  rewrite H1, H2.
  fold (child_edge st1 self y). subst st1.
  rewrite !delete_child_child, write_chunks_parent. tauto.
Qed.

Lemma remove_connect_loop_chunks p self (l : list ChunkRef) : forall st,
  p <> self ->
  chunks_of (fold_left (remove_connect p) l st) self = chunks_of st self.
Proof.
  induction l as [| c l IH]; intros st Hp; simpl; auto.
  rewrite IH by assumption. unfold remove_connect.
  rewrite addChunk_chunks_other by congruence. apply addParent_chunks.
Qed.

Lemma remove_connect_loop_parents p self (l : list ChunkRef) : forall st,
  ~ In self l ->
  parents_of (fold_left (remove_connect p) l st) self = parents_of st self.
Proof.
  induction l as [| c l IH]; intros st Hl; simpl in *; auto.
  rewrite IH by tauto. unfold remove_connect.
  rewrite addChunk_parents. apply addParent_parents_other. intros ->. tauto.
Qed.

Section NoSelfEdge.
Variable self : ChunkRef.

(** The outer loop, on a chunk that is not its own child, over
  parents other than itself. *)
Lemma remove_parents_loop (l : list ChunkRef) : forall st,
  ~ In self (chunks_of st self) -> ~ In self l ->
  let st' := fold_left (remove_parent_step self) l st in
  chunks_of st' self = chunks_of st self
  /\ parents_of st' self = parents_of st self
  /\ (forall x y,
        child_edge st' x y
        <-> (child_edge st x y /\ ~ (In x l /\ y = self))
            \/ (In x l /\ child_edge st self y))
  /\ (forall x y,
        parent_edge st' x y
        <-> parent_edge st x y \/ (In x l /\ child_edge st self y)).
Proof.
  induction l as [| p l IH]; intros st Hc Hl; simpl in *.
  - repeat split; tauto.
  - assert (Hp : p <> self) by tauto.
    assert (E1 : chunks_of (remove_parent_step self st p) self = chunks_of st self).
    { unfold remove_parent_step. rewrite remove_connect_loop_chunks by assumption.
      rewrite chunks_write_chunks. destruct (Nat.eqb_spec self p); congruence. }
    assert (E2 : parents_of (remove_parent_step self st p) self = parents_of st self).
    { unfold remove_parent_step. rewrite remove_connect_loop_parents.
      - apply parents_write_chunks.
      - rewrite chunks_write_chunks.
        destruct (Nat.eqb_spec self p); [congruence | assumption]. }
    destruct (IH (remove_parent_step self st p)) as (I1 & I2 & I3 & I4).
    { now rewrite E1. }
    { tauto. }
    split; [congruence|]. split; [congruence|].
    assert (Ec : forall y, child_edge (remove_parent_step self st p) self y
                           <-> child_edge st self y).
    { intros y. unfold child_edge. now rewrite E1. }
    split; intros x y.
    + rewrite I3, Ec.
      rewrite (proj1 (remove_parent_step_edges self st p x y)).
      unfold child_edge in *.
      assert (Hy : y = self -> ~ In y (chunks_of st self)) by (intros ->; exact Hc).
      assert (Hx : x = p <-> p = x) by (split; congruence).
      assert (Hs : self <> p) by congruence.
      tauto.
    + rewrite I4, Ec.
      rewrite (proj2 (remove_parent_step_edges self st p x y)).
      unfold child_edge in *.
      assert (Hx : x = p <-> p = x) by (split; congruence).
      assert (Hs : self <> p) by congruence.
      tauto.
Qed.

(** The second loop takes [self] out of the parent set of every chunk
  in the list. *)
Lemma remove_children_loop (l : list ChunkRef) : forall st,
  let st' := fold_left (remove_child_step self) l st in
  (forall x, chunks_of st' x = chunks_of st x)
  /\ (~ In self l -> parents_of st' self = parents_of st self)
  /\ (forall x y,
        parent_edge st' x y <-> parent_edge st x y /\ ~ (x = self /\ In y l)).
Proof.
  induction l as [| c l IH]; intros st; simpl.
  - repeat split; tauto.
  - destruct (IH (remove_child_step self st c)) as (I1 & I2 & I3).
    unfold remove_child_step in *.
    split; [intros x; rewrite I1; apply chunks_write_parents|].
    split.
    + intros Hn. rewrite I2 by tauto. rewrite parents_write_parents.
      destruct (Nat.eqb_spec self c); [subst; tauto | reflexivity].
    + intros x y. rewrite I3, delete_parent_parent.
      assert (Hy : y = c <-> c = y) by (split; congruence).
      tauto.
Qed.

(** Both loops together, for a chunk that is neither its own parent
  nor its own child. *)
Lemma remove_edges_no_self_edge st :
  ~ In self (chunks_of st self) -> ~ In self (parents_of st self) ->
  let st' := remove_edges self st in
  chunks_of st' self = chunks_of st self
  /\ parents_of st' self = parents_of st self
  /\ (forall x y,
        child_edge st' x y
        <-> (child_edge st x y /\ ~ (parent_edge st x self /\ y = self))
            \/ (parent_edge st x self /\ child_edge st self y))
  /\ (forall x y,
        parent_edge st' x y
        <-> (parent_edge st x y
             \/ (parent_edge st x self /\ child_edge st self y))
            /\ ~ (x = self /\ child_edge st self y)).
Proof.
  intros Hc Hp. unfold remove_edges. cbv zeta.
  destruct (remove_parents_loop (parents_of st self) st Hc Hp) as (L1 & L2 & L3 & L4).
  set (st1 := fold_left (remove_parent_step self) (parents_of st self) st) in *.
  destruct (remove_children_loop (chunks_of st1 self) st1) as (M1 & M2 & M3).
  set (st2 := fold_left (remove_child_step self) (chunks_of st1 self) st1) in *.
  rewrite L1 in M2, M3.
  split; [now rewrite M1|]. split; [rewrite M2 by assumption; exact L2|].
  split; intros x y.
  - unfold child_edge at 1. rewrite M1. fold (child_edge st1 x y).
    rewrite L3. unfold parent_edge. reflexivity.
  - rewrite M3, L4. unfold parent_edge, child_edge. reflexivity.
Qed.
End NoSelfEdge.

Lemma same_edges_remove_modules x st : same_edges st (remove_modules x st).
Proof.
  unfold remove_modules. apply same_edges_fold.
  intros s m. split; intros c; store_crush.
Qed.

Lemma same_edges_remove_block_step x reason s b :
  same_edges s (fst (remove_block_step x reason s b)).
Proof.
  unfold remove_block_step.
  destruct (BlockObj.chunks (block s b)) as [cs|]; simpl;
    [| apply same_edges_refl].
  destruct (0 <=? _)%Z; simpl; [| apply same_edges_refl].
  destruct (JsArray.splice_first Nat.eq_dec x cs); simpl;
    split; intros c; store_crush.
Qed.

End RemoveFacts.

Section RemoveWhole.
Import Spec Chunk.

Lemma same_edges_remove_tail x reason st :
  same_edges (remove_edges x (remove_modules x st)) (fst (remove x reason st)).
Proof.
  unfold remove. cbv zeta. apply same_edges_forEach.
  intros s b. apply same_edges_remove_block_step.
Qed.

(** What [remove] does to the edges of a chunk that is neither its own
  parent nor its own child. *)
Lemma remove_no_self_edge self reason st :
  ~ In self (chunks_of st self) -> ~ In self (parents_of st self) ->
  let st' := fst (remove self reason st) in
  chunks_of st' self = chunks_of st self
  /\ parents_of st' self = parents_of st self
  /\ (forall x y,
        child_edge st' x y
        <-> (child_edge st x y /\ ~ (parent_edge st x self /\ y = self))
            \/ (parent_edge st x self /\ child_edge st self y))
  /\ (forall x y,
        parent_edge st' x y
        <-> (parent_edge st x y
             \/ (parent_edge st x self /\ child_edge st self y))
            /\ ~ (x = self /\ child_edge st self y)).
Proof.
  intros Hc Hp st'.
  destruct (same_edges_remove_modules self st) as [Mc Mp].
  destruct (same_edges_remove_tail self reason st) as [Tc Tp].
  fold st' in Tc, Tp.
  destruct (remove_edges_no_self_edge self (remove_modules self st))
    as (R1 & R2 & R3 & R4).
  { now rewrite Mc. }
  { now rewrite Mp. }
  rewrite Mc in R1. rewrite Mp in R2.
  split; [now rewrite Tc|]. split; [now rewrite Tp|].
  split; intros x y.
  - unfold child_edge at 1. rewrite Tc. fold (child_edge (remove_edges self (remove_modules self st)) x y).
    rewrite R3. unfold child_edge, parent_edge. now rewrite !Mc, !Mp.
  - unfold parent_edge at 1. rewrite Tp. fold (parent_edge (remove_edges self (remove_modules self st)) x y).
    rewrite R4. unfold child_edge, parent_edge. now rewrite !Mc, !Mp.
Qed.

(** Without a self-edge on the removed chunk, its parents and children
  end up connected directly and none of them refers to it any more. *)
Lemma remove_short_circuits_without_self_edge self reason st p c :
  ~ In self (chunks_of st self) -> ~ In self (parents_of st self) ->
  In p (parents_of st self) -> In c (chunks_of st self) ->
  let st' := fst (remove self reason st) in
  In c (chunks_of st' p) /\ In p (parents_of st' c)
  /\ ~ In self (chunks_of st' p) /\ ~ In self (parents_of st' c).
Proof.
  intros Hc Hp Hpin Hcin st'.
  destruct (remove_no_self_edge self reason st Hc Hp) as (_ & _ & R3 & R4).
  fold st' in R3, R4. unfold child_edge, parent_edge in *.
  assert (p <> self) by congruence.
  assert (c <> self) by congruence.
  split; [apply R3; tauto|]. split; [apply R4; tauto|].
  split; [rewrite R3 | rewrite R4]; tauto.
Qed.
End RemoveWhole.

(** C6, as the code has it.  [remove(reason)] on a chunk that is neither
  its own parent nor its own child takes the chunk out of the child set of
  each of its parents and out of the parent set of each of its children;
  the chunk's own parent set and child set are not cleared but left
  exactly as they were. *)
Theorem remove_detaches_neighbours_only
    (st : Store) (self : ChunkRef) (reason : Reason) :
  ~ In self (chunks_of st self) -> ~ In self (parents_of st self) ->
  let st' := fst (Chunk.remove self reason st) in
  parents_of st' self = parents_of st self
  /\ chunks_of st' self = chunks_of st self
  /\ (forall p, In p (parents_of st self) -> ~ In self (chunks_of st' p))
  /\ (forall c, In c (chunks_of st self) -> ~ In self (parents_of st' c)).
Proof.
  intros Hc Hp st'.
  destruct (remove_no_self_edge self reason st Hc Hp) as (R1 & R2 & R3 & R4).
  fold st' in R1, R2, R3, R4.
  unfold Spec.child_edge, Spec.parent_edge in *.
  split; [assumption|]. split; [assumption|]. split.
  - intros p Hin. rewrite R3. tauto.
  - intros c Hin. rewrite R4. tauto.
Qed.

(** C6, the claim as stated, fails: in the chain 0 -> 1 -> 2, after
  [remove] on chunk 1 its own parent set still holds chunk 0 and its own
  child set still holds chunk 2. *)
Lemma remove_leaves_own_edge_sets :
  let st' := fst (Chunk.remove 1 "gone"%string Examples.chain) in
  parents_of Examples.chain 1 = [0] /\ chunks_of Examples.chain 1 = [2]
  /\ parents_of st' 1 = [0] /\ chunks_of st' 1 = [2]
  /\ ~ (parents_of st' 1 = [] /\ chunks_of st' 1 = []).
Proof.
  cbv zeta.
  repeat match goal with |- _ /\ _ => apply conj end; try (vm_compute; reflexivity).
  intros [H _]. vm_compute in H. discriminate H.
Qed.

(** C2, the code on a chunk that has become its own parent and child.
  In [Examples.looped] (0 -> 1 -> 2, and 1 <-> 3) no chunk has an edge to
  itself.  [remove] on chunk 3 connects its parent 1 to its child 1, so
  chunk 1 gets a self-edge.  [remove] on chunk 1, whose parents now are 0
  and 1 and whose children are 2 and 1, then connects 0 -> 2 at both ends,
  but leaves chunk 1 in the child set of its parent 0. *)
Theorem remove_keeps_self_looped_chunk_in_parent :
  let st1 := fst (Chunk.remove 3 "r1"%string Examples.looped) in
  let st2 := fst (Chunk.remove 1 "r2"%string st1) in
  Forall (fun c => ~ In c (chunks_of Examples.looped c)
                   /\ ~ In c (parents_of Examples.looped c)) [0; 1; 2; 3]
  /\ parents_of st1 1 = [0; 1] /\ chunks_of st1 1 = [2; 1]
  /\ chunks_of st1 0 = [1] /\ parents_of st1 2 = [1]
  /\ chunks_of st2 0 = [2; 1] /\ parents_of st2 2 = [0]
  /\ In 0 (parents_of st1 1) /\ In 2 (chunks_of st1 1)
  /\ In 1 (chunks_of st2 0).
Proof.
  cbv zeta. split.
  - repeat constructor; vm_compute; intuition discriminate.
  - repeat match goal with |- _ /\ _ => apply conj end; vm_compute; auto.
Qed.

(** ** Backed edges: the invariant behind [checkConstraints] *)

Section BackedFacts.
Import Spec Chunk.

Lemma backed_weaken gone gone' st :
  (forall x, In x gone -> In x gone') -> backed gone st -> backed gone' st.
Proof.
  intros Hsub [H1 H2]. split; intros a b Hg; [apply H1 | apply H2]; auto.
Qed.

Lemma symmetric_backed st : symmetric st -> backed [] st.
Proof. intros H. split; intros a b _ Hab; now apply H. Qed.

(** An edge recorded at both ends at once. *)
Lemma backed_add_pair gone st st' a b :
  (forall x y, child_edge st' x y <-> child_edge st x y \/ (x = a /\ y = b)) ->
  (forall x y, parent_edge st' x y <-> parent_edge st x y \/ (x = a /\ y = b)) ->
  backed gone st -> backed gone st'.
Proof.
  intros Hc Hp [H1 H2]. split; intros x y Hg Hxy.
  - apply Hp. apply Hc in Hxy. destruct Hxy; [left; auto | right; auto].
  - apply Hc. apply Hp in Hxy. destruct Hxy; [left; auto | right; auto].
Qed.

(** An edge dropped at both ends at once. *)
Lemma backed_drop_pair gone st st' a b :
  (forall x y, child_edge st' x y <-> child_edge st x y /\ ~ (x = a /\ y = b)) ->
  (forall x y, parent_edge st' x y <-> parent_edge st x y /\ ~ (x = a /\ y = b)) ->
  backed gone st -> backed gone st'.
Proof.
  intros Hc Hp [H1 H2]. split; intros x y Hg Hxy.
  - apply Hp. apply Hc in Hxy. destruct Hxy; split; auto.
  - apply Hc. apply Hp in Hxy. destruct Hxy; split; auto.
Qed.

(** A child edge that points at a chunk in [gone] may be dropped. *)
Lemma backed_drop_child gone st st' a b :
  In b gone ->
  (forall x y, child_edge st' x y <-> child_edge st x y /\ ~ (x = a /\ y = b)) ->
  (forall x y, parent_edge st' x y <-> parent_edge st x y) ->
  backed gone st -> backed gone st'.
Proof.
  intros Hb Hc Hp [H1 H2]. split; intros x y Hg Hxy.
  - apply Hp. apply Hc in Hxy. destruct Hxy; auto.
  - apply Hc. apply Hp in Hxy. split; auto. intros [-> ->]. contradiction.
Qed.

(** A parent edge that comes from a chunk in [gone] may be dropped. *)
Lemma backed_drop_parent gone st st' a b :
  In a gone ->
  (forall x y, parent_edge st' x y <-> parent_edge st x y /\ ~ (x = a /\ y = b)) ->
  (forall x y, child_edge st' x y <-> child_edge st x y) ->
  backed gone st -> backed gone st'.
Proof.
  intros Ha Hp Hc [H1 H2]. split; intros x y Hg Hxy.
  - apply Hp. apply Hc in Hxy. split; auto. intros [-> ->]. contradiction.
  - apply Hc. apply Hp in Hxy. destruct Hxy; auto.
Qed.

(** *** removeChunk and removeParent *)

Lemma removeChunk_unfold a b st :
  snd (removeChunk a b st) =
    if set_has b (chunks_of st a) then
      let st1 := write_chunks a (set_delete b (chunks_of st a)) st in
      if set_has a (parents_of st1 b)
      then write_parents b (set_delete a (parents_of st1 b)) st1
      else st1
    else st.
Proof.
  unfold removeChunk. simpl.
  destruct (set_has b (chunks_of st a)) eqn:E1; simpl; [| reflexivity].
  set (st1 := write_chunks a (set_delete b (chunks_of st a)) st).
  destruct (set_has a (parents_of st1 b)) eqn:E2; simpl; [| reflexivity].
  set (st2 := write_parents b (set_delete a (parents_of st1 b)) st1).
  assert (E3 : set_has b (chunks_of st2 a) = false).
  { apply set_has_false. subst st2 st1.
    rewrite chunks_write_parents, chunks_write_chunks, Nat.eqb_refl.
    unfold set_delete. rewrite delete_In. tauto. }
  now rewrite E3.
Qed.

Lemma removeParent_unfold a b st :
  snd (removeParent a b st) =
    if set_has b (parents_of st a) then
      let st1 := write_parents a (set_delete b (parents_of st a)) st in
      if set_has a (chunks_of st1 b)
      then write_chunks b (set_delete a (chunks_of st1 b)) st1
      else st1
    else st.
Proof.
  unfold removeParent. simpl.
  destruct (set_has b (parents_of st a)) eqn:E1; simpl; [| reflexivity].
  set (st1 := write_parents a (set_delete b (parents_of st a)) st).
  destruct (set_has a (chunks_of st1 b)) eqn:E2; simpl; [| reflexivity].
  set (st2 := write_chunks b (set_delete a (chunks_of st1 b)) st1).
  assert (E3 : set_has b (parents_of st2 a) = false).
  { apply set_has_false. subst st2 st1.
    rewrite parents_write_chunks, parents_write_parents, Nat.eqb_refl.
    unfold set_delete. rewrite delete_In. tauto. }
  now rewrite E3.
Qed.

(** The mutual recursion ends within three calls, whatever the store. *)
Lemma removeChunk_fuel_enough n a b st :
  removeChunk_fuel (3 + n) a b st = Some (removeChunk a b st).
Proof.
  unfold removeChunk. simpl.
  destruct (set_has b (chunks_of st a)) eqn:E1; simpl; [| reflexivity].
  set (st1 := write_chunks a (set_delete b (chunks_of st a)) st).
  destruct (set_has a (parents_of st1 b)) eqn:E2; simpl; [| reflexivity].
  set (st2 := write_parents b (set_delete a (parents_of st1 b)) st1).
  assert (E3 : set_has b (chunks_of st2 a) = false).
  { apply set_has_false. subst st2 st1.
    rewrite chunks_write_parents, chunks_write_chunks, Nat.eqb_refl.
    unfold set_delete. rewrite delete_In. tauto. }
  rewrite E3. reflexivity.
Qed.

Lemma removeParent_fuel_enough n a b st :
  removeParent_fuel (3 + n) a b st = Some (removeParent a b st).
Proof.
  unfold removeParent. simpl.
  destruct (set_has b (parents_of st a)) eqn:E1; simpl; [| reflexivity].
  set (st1 := write_parents a (set_delete b (parents_of st a)) st).
  destruct (set_has a (chunks_of st1 b)) eqn:E2; simpl; [| reflexivity].
  set (st2 := write_chunks b (set_delete a (chunks_of st1 b)) st1).
  assert (E3 : set_has b (parents_of st2 a) = false).
  { apply set_has_false. subst st2 st1.
    rewrite parents_write_chunks, parents_write_parents, Nat.eqb_refl.
    unfold set_delete. rewrite delete_In. tauto. }
  rewrite E3. reflexivity.
Qed.

(** [removeChunk] drops the edge at both ends, or does nothing. *)
Lemma removeChunk_edges a b st :
  snd (removeChunk a b st) = st
  \/ ((forall x y, child_edge (snd (removeChunk a b st)) x y
                   <-> child_edge st x y /\ ~ (x = a /\ y = b))
      /\ (forall x y, parent_edge (snd (removeChunk a b st)) x y
                      <-> parent_edge st x y /\ ~ (x = a /\ y = b))).
Proof.
  rewrite removeChunk_unfold.
  destruct (set_has b (chunks_of st a)) eqn:E1; [| now left]. right. cbv zeta.
  set (st1 := write_chunks a (set_delete b (chunks_of st a)) st).
  destruct (set_has a (parents_of st1 b)) eqn:E2.
  - split; intros x y.
    + rewrite write_parents_child. apply delete_child_child.
    + rewrite delete_parent_parent. subst st1. now rewrite write_chunks_parent.
  - apply set_has_false in E2. split; intros x y.
    + apply delete_child_child.
    + subst st1. rewrite write_chunks_parent.
      rewrite parents_write_chunks in E2. unfold parent_edge.
      split; [| tauto]. intros H. split; [assumption|]. intros [-> ->]. contradiction.
Qed.

Lemma removeParent_edges a b st :
  snd (removeParent a b st) = st
  \/ ((forall x y, child_edge (snd (removeParent a b st)) x y
                   <-> child_edge st x y /\ ~ (x = b /\ y = a))
      /\ (forall x y, parent_edge (snd (removeParent a b st)) x y
                      <-> parent_edge st x y /\ ~ (x = b /\ y = a))).
Proof.
  rewrite removeParent_unfold.
  destruct (set_has b (parents_of st a)) eqn:E1; [| now left]. right. cbv zeta.
  set (st1 := write_parents a (set_delete b (parents_of st a)) st).
  destruct (set_has a (chunks_of st1 b)) eqn:E2.
  - split; intros x y.
    + rewrite delete_child_child. subst st1. now rewrite write_parents_child.
    + rewrite write_chunks_parent. apply delete_parent_parent.
  - apply set_has_false in E2. split; intros x y.
    + subst st1. rewrite write_parents_child.
      rewrite chunks_write_parents in E2. unfold child_edge.
      split; [| tauto]. intros H. split; [assumption|]. intros [-> ->]. contradiction.
    + apply delete_parent_parent.
Qed.

Lemma backed_removeChunk gone a b st :
  backed gone st -> backed gone (snd (removeChunk a b st)).
Proof.
  intros H. destruct (removeChunk_edges a b st) as [E | [Hc Hp]].
  - now rewrite E.
  - eapply backed_drop_pair; eauto.
Qed.

Lemma backed_removeParent gone a b st :
  backed gone st -> backed gone (snd (removeParent a b st)).
Proof.
  intros H. destruct (removeParent_edges a b st) as [E | [Hc Hp]].
  - now rewrite E.
  - eapply backed_drop_pair; eauto.
Qed.

Lemma no_duplicates_removeChunk a b st :
  no_duplicates st -> no_duplicates (snd (removeChunk a b st)).
Proof.
  intros H. rewrite removeChunk_unfold.
  destruct (set_has b (chunks_of st a)); auto. cbv zeta.
  destruct (set_has a _); auto using no_duplicates_delete_child,
    no_duplicates_delete_parent.
Qed.

Lemma no_duplicates_removeParent a b st :
  no_duplicates st -> no_duplicates (snd (removeParent a b st)).
Proof.
  intros H. rewrite removeParent_unfold.
  destruct (set_has b (parents_of st a)); auto. cbv zeta.
  destruct (set_has a _); auto using no_duplicates_delete_child,
    no_duplicates_delete_parent.
Qed.
End BackedFacts.

(** ** [remove] and [split] keep edges backed *)

Section RemoveSplitBacked.
Import Spec Chunk Collaborators.

Lemma backed_remove_connect gone p st c :
  backed gone st -> backed gone (remove_connect p st c).
Proof.
  apply backed_add_pair with (a := p) (b := c); intros x y.
  - apply remove_connect_child.
  - apply remove_connect_parent.
Qed.

Lemma backed_remove_edges gone self st :
  In self gone -> backed gone st -> backed gone (remove_edges self st).
Proof.
  intros Hg H. unfold remove_edges. cbv zeta.
  apply fold_left_invariant with (P := backed gone).
  - intros s c Hs. unfold remove_child_step.
    eapply backed_drop_parent with (a := self) (b := c); eauto; intros x y.
    + apply delete_parent_parent.
    + apply write_parents_child.
  - apply fold_left_invariant with (P := backed gone); auto.
    intros s p Hs. unfold remove_parent_step.
    apply fold_left_invariant with (P := backed gone).
    + intros s' c Hs'. now apply backed_remove_connect.
    + eapply backed_drop_child with (a := p) (b := self); eauto; intros x y.
      * apply delete_child_child.
      * apply write_chunks_parent.
Qed.

(** Once [remove] has run on a chunk, every edge of every other chunk is
  backed, whether [remove] returned or raised in its block loop. *)
Lemma backed_remove gone self reason st :
  backed gone st -> backed (self :: gone) (fst (remove self reason st)).
Proof.
  intros H.
  eapply same_edges_backed; [apply same_edges_remove_tail|].
  apply backed_remove_edges; [now left|].
  eapply same_edges_backed; [apply same_edges_remove_modules|].
  eapply backed_weaken; [| exact H]. intros x Hx. now right.
Qed.

Lemma no_duplicates_remove_connect p st c :
  no_duplicates st -> no_duplicates (remove_connect p st c).
Proof.
  intros H. unfold remove_connect.
  now apply no_duplicates_addChunk, no_duplicates_addParent.
Qed.

Lemma no_duplicates_remove self reason st :
  no_duplicates st -> no_duplicates (fst (remove self reason st)).
Proof.
  intros H.
  eapply same_edges_no_duplicates; [apply same_edges_remove_tail|].
  unfold remove_edges. cbv zeta.
  apply fold_left_invariant with (P := no_duplicates).
  - intros s c Hs. now apply no_duplicates_delete_parent.
  - apply fold_left_invariant with (P := no_duplicates).
    + intros s p Hs. unfold remove_parent_step.
      apply fold_left_invariant with (P := no_duplicates).
      * intros s' c Hs'. now apply no_duplicates_remove_connect.
      * now apply no_duplicates_delete_child.
    + eapply same_edges_no_duplicates; [apply same_edges_remove_modules | exact H].
Qed.

(** *** split *)

Lemma same_edges_split_block_step n s b :
  same_edges s (fst (split_block_step n s b)).
Proof.
  unfold split_block_step.
  destruct (BlockObj.chunks _) as [cs|]; simpl; split; intros c; store_crush.
Qed.

Lemma same_edges_putEntrySide es st : same_edges st (putEntrySide es st).
Proof. split; intros c; reflexivity. Qed.

Section WithEntrypoint.
Variable insertChunk :
  EntryRef -> ChunkRef -> ChunkRef -> EntrySide -> option EntrySide.

Lemma same_edges_split_entry_step a n s e :
  same_edges s (fst (split_entry_step insertChunk a n s e)).
Proof.
  unfold split_entry_step. destruct (insertChunk e n a (entrySide s)); simpl.
  - apply same_edges_putEntrySide.
  - apply same_edges_refl.
Qed.

(** The edges [split] leaves are those of its two edge loops, run on
  the store its block loop reached; when the block loop raises, the
  edges are untouched. *)
Lemma split_edges_cases a n st :
  same_edges st (fst (split insertChunk a n st))
  \/ exists st1, same_edges st st1
                 /\ same_edges (split_edges a n st1) (fst (split insertChunk a n st)).
Proof.
  unfold split.
  pose proof (same_edges_forEach (split_block_step n) (blocks_of st a)
                (same_edges_split_block_step n) st) as Hb.
  destruct (forEach (split_block_step n) (blocks_of st a) st) as [st1 [u | e]];
    simpl in Hb.
  - right. exists st1. split; [assumption|].
    apply same_edges_forEach. intros s x. apply same_edges_split_entry_step.
  - left. exact Hb.
Qed.
End WithEntrypoint.

Lemma backed_split_edges gone a n st :
  backed gone st -> backed gone (split_edges a n st).
Proof.
  intros H. unfold split_edges. cbv zeta.
  apply fold_left_invariant with (P := backed gone).
  - intros s p Hs. unfold split_parent_step.
    apply backed_add_pair with (a := p) (b := n) (st := s); auto; intros x y.
    + now rewrite addParent_child, addChunk_child.
    + now rewrite addParent_parent, addChunk_parent.
  - apply fold_left_invariant with (P := backed gone); auto.
    intros s c Hs. unfold split_child_step.
    apply backed_add_pair with (a := n) (b := c) (st := s); auto; intros x y.
    + now rewrite addParent_child, addChunk_child.
    + now rewrite addParent_parent, addChunk_parent.
Qed.

Lemma no_duplicates_split_edges a n st :
  no_duplicates st -> no_duplicates (split_edges a n st).
Proof.
  intros H. unfold split_edges. cbv zeta.
  apply fold_left_invariant with (P := no_duplicates).
  - intros s p Hs. now apply no_duplicates_addParent, no_duplicates_addChunk.
  - apply fold_left_invariant with (P := no_duplicates); auto.
    intros s c Hs. now apply no_duplicates_addParent, no_duplicates_addChunk.
Qed.

Lemma backed_split insertChunk gone a n st :
  backed gone st -> backed gone (fst (split insertChunk a n st)).
Proof.
  intros H. destruct (split_edges_cases insertChunk a n st) as [E | (st1 & E1 & E2)].
  - eapply same_edges_backed; eauto.
  - eapply same_edges_backed; [exact E2|]. apply backed_split_edges.
    eapply same_edges_backed; eauto.
Qed.

Lemma no_duplicates_split insertChunk a n st :
  no_duplicates st -> no_duplicates (fst (split insertChunk a n st)).
Proof.
  intros H. destruct (split_edges_cases insertChunk a n st) as [E | (st1 & E1 & E2)].
  - eapply same_edges_no_duplicates; eauto.
  - eapply same_edges_no_duplicates; [exact E2|]. apply no_duplicates_split_edges.
    eapply same_edges_no_duplicates; eauto.
Qed.
End RemoveSplitBacked.

(** ** [integrate] keeps edges backed *)

Section IntegrateBacked.
Import Spec Chunk Collaborators.

(** [p.replaceChunk(other, self)]: the child edge [p -> other] goes; when
  [p] is not [self] and [self] did not yet record [p] as a parent, the
  edge [p -> self] is recorded at both ends. *)
Lemma replaceChunk_edges p other self st x y :
  (child_edge (replaceChunk p other self st) x y
   <-> (child_edge st x y /\ ~ (x = p /\ y = other))
       \/ (x = p /\ y = self /\ p <> self /\ ~ parent_edge st p self))
  /\ (parent_edge (replaceChunk p other self st) x y
      <-> parent_edge st x y \/ (x = p /\ y = self /\ p <> self)).
Proof.
  unfold replaceChunk.
  set (st1 := write_chunks p (set_delete other (chunks_of st p)) st).
  assert (C1 : forall u v, child_edge st1 u v
                           <-> child_edge st u v /\ ~ (u = p /\ v = other)).
  { intros u v. apply delete_child_child. }
  assert (P1 : forall u v, parent_edge st1 u v <-> parent_edge st u v).
  { intros u v. apply write_chunks_parent. }
  destruct (Nat.eqb_spec p self) as [E | NE]; simpl.
  - rewrite C1, P1. tauto.
  - pose proof (addParent_fst self p st1) as Hf.
    pose proof (addParent_parent self p st1 x y) as Hp.
    pose proof (addParent_child self p st1 x y) as Hc.
    pose proof (addParent_parent self p st1 p self) as Hps.
    destruct (addParent self p st1) as [added st2]. simpl in *.
    destruct added.
    + symmetry in Hf. apply negb_true_iff, set_has_false in Hf.
      assert (Hf' : ~ parent_edge st p self) by (rewrite <- P1; exact Hf).
      rewrite addChunk_child, addChunk_parent, Hc, Hp, C1, P1. tauto.
    + symmetry in Hf. apply negb_false_iff, set_has_true in Hf.
      assert (Hf' : parent_edge st p self) by (rewrite <- P1; exact Hf).
      rewrite Hc, Hp, C1, P1. split; [tauto|].
      split; [tauto|]. intros [H | (-> & -> & _)]; tauto.
Qed.

(** [c.replaceParentChunk(other, self)], the mirror image. *)
Lemma replaceParentChunk_edges c other self st x y :
  (parent_edge (replaceParentChunk c other self st) x y
   <-> (parent_edge st x y /\ ~ (x = other /\ y = c))
       \/ (x = self /\ y = c /\ c <> self /\ ~ child_edge st self c))
  /\ (child_edge (replaceParentChunk c other self st) x y
      <-> child_edge st x y \/ (x = self /\ y = c /\ c <> self)).
Proof.
  unfold replaceParentChunk.
  set (st1 := write_parents c (set_delete other (parents_of st c)) st).
  assert (P1 : forall u v, parent_edge st1 u v
                           <-> parent_edge st u v /\ ~ (u = other /\ v = c)).
  { intros u v. apply delete_parent_parent. }
  assert (C1 : forall u v, child_edge st1 u v <-> child_edge st u v).
  { intros u v. apply write_parents_child. }
  destruct (Nat.eqb_spec c self) as [E | NE]; simpl.
  - rewrite C1, P1. tauto.
  - pose proof (addChunk_fst self c st1) as Hf.
    pose proof (addChunk_parent self c st1 x y) as Hp.
    pose proof (addChunk_child self c st1 x y) as Hc.
    destruct (addChunk self c st1) as [added st2]. simpl in *.
    destruct added.
    + symmetry in Hf. apply negb_true_iff, set_has_false in Hf.
      assert (Hf' : ~ child_edge st self c) by (rewrite <- C1; exact Hf).
      rewrite addParent_child, addParent_parent, Hc, Hp, C1, P1. tauto.
    + symmetry in Hf. apply negb_false_iff, set_has_true in Hf.
      assert (Hf' : child_edge st self c) by (rewrite <- C1; exact Hf).
      rewrite Hc, Hp, C1, P1. split; [tauto|].
      split; [tauto|]. intros [H | (-> & -> & _)]; tauto.
Qed.

Lemma no_duplicates_replaceChunk p other self st :
  no_duplicates st -> no_duplicates (replaceChunk p other self st).
Proof.
  intros H. unfold replaceChunk.
  pose proof (no_duplicates_delete_child p other H) as H1.
  destruct (negb (p =? self)); auto.
  pose proof (no_duplicates_addParent self p H1) as H2.
  destruct (addParent self p _) as [added st2]. simpl in H2.
  destruct added; auto. now apply no_duplicates_addChunk.
Qed.

Lemma no_duplicates_replaceParentChunk c other self st :
  no_duplicates st -> no_duplicates (replaceParentChunk c other self st).
Proof.
  intros H. unfold replaceParentChunk.
  pose proof (no_duplicates_delete_parent c other H) as H1.
  destruct (negb (c =? self)); auto.
  pose proof (no_duplicates_addChunk self c H1) as H2.
  destruct (addChunk self c _) as [added st2]. simpl in H2.
  destruct added; auto. now apply no_duplicates_addParent.
Qed.

Section Loops.
Variable gone : list ChunkRef.
Variables self other : ChunkRef.

Lemma parents_loop_step p todo st :
  parents_loop_inv gone other (p :: todo) st ->
  parents_loop_inv gone other todo (replaceChunk p other self st).
Proof.
  intros (I1 & I2 & I3 & I4).
  assert (Hp : parent_edge st p other) by (apply I4; now left).
  repeat split.
  - intros a b Hb Ha Hab.
    apply (proj1 (replaceChunk_edges p other self st a b)) in Hab.
    apply (proj2 (replaceChunk_edges p other self st a b)).
    destruct Hab as [[H _] | (-> & -> & Hn & _)]; [left; auto | right; auto].
  - intros a b Hb Hg Hab.
    apply (proj2 (replaceChunk_edges p other self st a b)) in Hab.
    apply (proj1 (replaceChunk_edges p other self st a b)).
    destruct Hab as [H | (-> & -> & Hn)].
    + left. split; [auto|]. intros [_ E]. contradiction.
    + destruct (in_dec Nat.eq_dec p (parents_of st self)) as [Hin | Hin].
      * left. split; [apply I2; auto|]. intros [_ E]. contradiction.
      * right. auto.
  - intros a Ha Hao.
    apply (proj1 (replaceChunk_edges p other self st a other)) in Hao.
    destruct Hao as [[H Hn] | (-> & E & _ & Hn)].
    + destruct (I3 a Ha H) as [E | Hin]; [| assumption].
      subst. exfalso. apply Hn. auto.
    + subst. contradiction.
  - intros q Hq.
    apply (proj2 (replaceChunk_edges p other self st q other)).
    left. apply I4. now right.
Qed.

Lemma parents_loop (todo : list ChunkRef) : forall st,
  parents_loop_inv gone other todo st ->
  parents_loop_inv gone other []
    (fold_left (fun s p => replaceChunk p other self s) todo st).
Proof.
  induction todo as [| p todo IH]; intros st H; simpl; auto.
  apply IH. now apply parents_loop_step.
Qed.

(** After the loop over the parents and [otherChunk._parents.clear()]:
  edges are backed again, nothing records a parent of [other], and
  no chunk outside [gone] has [other] as a child. *)
Lemma backed_integrate_parents st :
  backed gone st ->
  let st' := integrate_parents self other st in
  backed gone st'
  /\ (forall a, ~ parent_edge st' a other)
  /\ (forall a, ~ In a gone -> ~ child_edge st' a other).
Proof.
  intros [H1 H2]. unfold integrate_parents. cbv zeta.
  set (st1 := fold_left _ (parents_of st other) st).
  assert (I : parents_loop_inv gone other [] st1).
  { apply parents_loop. unfold parents_loop_inv.
    split; [intros a b _ Ha Hab; now apply H1|].
    split; [intros a b _ Hb Hab; now apply H2|].
    split; [intros a Ha Hao; now apply H1|].
    intros p Hp; exact Hp. }
  destruct I as (I1 & I2 & I3 & _).
  repeat split.
  - intros a b Ha Hab. rewrite write_parents_child in Hab.
    rewrite clear_parent.
    destruct (Nat.eq_dec b other) as [-> | Hb].
    + exfalso. exact (I3 a Ha Hab).
    + split; auto.
  - intros a b Hb Hab. rewrite clear_parent in Hab.
    rewrite write_parents_child. destruct Hab as [Hab Hn]. auto.
  - intros a Ha. rewrite clear_parent in Ha. tauto.
  - intros a Ha Hao. rewrite write_parents_child in Hao. exact (I3 a Ha Hao).
Qed.

Lemma children_loop_step c todo st :
  children_loop_inv gone other (c :: todo) st ->
  children_loop_inv gone other todo (replaceParentChunk c other self st).
Proof.
  intros (I1 & I2 & I3 & I4 & I5).
  assert (Hc : child_edge st other c) by (apply I4; now left).
  repeat split.
  - intros a b Ha Hg Hab.
    apply (proj2 (replaceParentChunk_edges c other self st a b)) in Hab.
    apply (proj1 (replaceParentChunk_edges c other self st a b)).
    destruct Hab as [H | (-> & -> & Hn)].
    + left. split; [auto|]. intros [E _]. contradiction.
    + destruct (in_dec Nat.eq_dec c (chunks_of st self)) as [Hin | Hin].
      * left. split; [apply I1; auto|]. intros [E _]. contradiction.
      * right. auto.
  - intros a b Ha Hb Hab.
    apply (proj1 (replaceParentChunk_edges c other self st a b)) in Hab.
    apply (proj2 (replaceParentChunk_edges c other self st a b)).
    destruct Hab as [[H _] | (-> & -> & Hn & _)]; [left; auto | right; auto].
  - intros b Hb Hob.
    apply (proj1 (replaceParentChunk_edges c other self st other b)) in Hob.
    destruct Hob as [[H Hn] | (E & -> & _ & Hn)].
    + destruct (I3 b Hb H) as [E | Hin]; [| assumption].
      subst. exfalso. apply Hn. auto.
    + subst. contradiction.
  - intros q Hq.
    apply (proj2 (replaceParentChunk_edges c other self st other q)).
    left. apply I4. now right.
  - destruct (I5 H) as [Hn _]. intros Hin. apply Hn. now right.
  - intros a Hao. destruct (I5 H) as [Hn Hpar].
    apply (proj1 (replaceParentChunk_edges c other self st a other)) in Hao.
    destruct Hao as [[Hp _] | (_ & E & _)].
    + exact (Hpar a Hp).
    + apply Hn. left. congruence.
Qed.

Lemma children_loop (todo : list ChunkRef) : forall st,
  children_loop_inv gone other todo st ->
  children_loop_inv gone other []
    (fold_left (fun s c => replaceParentChunk c other self s) todo st).
Proof.
  induction todo as [| c todo IH]; intros st H; simpl; auto.
  apply IH. now apply children_loop_step.
Qed.

(** After the loop over the children and [otherChunk._chunks.clear()]. *)
Lemma backed_integrate_children st :
  backed gone st ->
  (forall a, ~ parent_edge st a other) ->
  (forall a, ~ In a gone -> ~ child_edge st a other) ->
  let st' := integrate_children self other st in
  backed gone st'
  /\ (forall b, ~ child_edge st' other b)
  /\ (~ In other gone -> forall a, ~ parent_edge st' a other).
Proof.
  intros [H1 H2] Hnp Hnc. unfold integrate_children. cbv zeta.
  set (st1 := fold_left _ (chunks_of st other) st).
  assert (I : children_loop_inv gone other [] st1).
  { apply children_loop. unfold children_loop_inv.
    split; [intros a b _ Ha Hab; now apply H1|].
    split; [intros a b _ Hb Hab; now apply H2|].
    split; [intros b Hb Hob; now apply H2|].
    split; [intros c Hc; exact Hc|].
    intros Hg. split; [intros Hin; exact (Hnc other Hg Hin) | apply Hnp]. }
  destruct I as (I1 & I2 & I3 & _ & I5).
  repeat split.
  - intros a b Ha Hab. rewrite clear_child in Hab.
    rewrite write_chunks_parent. destruct Hab as [Hab Hn]. auto.
  - intros a b Hb Hab. rewrite write_chunks_parent in Hab.
    rewrite clear_child.
    destruct (Nat.eq_dec a other) as [-> | Ha].
    + exfalso. exact (I3 b Hb Hab).
    + split; auto.
  - intros b Hb. rewrite clear_child in Hb. tauto.
  - intros Hg a Ha. rewrite write_chunks_parent in Ha.
    exact (proj2 (I5 Hg) a Ha).
Qed.

(** The four closing deletes. *)
Lemma integrate_cleanup_edges st x y :
  (child_edge (integrate_cleanup self other st) x y
   <-> child_edge st x y /\ ~ (x = self /\ y = other) /\ ~ (x = self /\ y = self))
  /\ (parent_edge (integrate_cleanup self other st) x y
      <-> parent_edge st x y /\ ~ (x = other /\ y = self) /\ ~ (x = self /\ y = self)).
Proof.
  unfold integrate_cleanup. cbv zeta.
  rewrite !write_parents_child, !delete_child_child.
  rewrite !delete_parent_parent, !write_chunks_parent. tauto.
Qed.

Lemma backed_integrate_cleanup st :
  backed gone st ->
  (forall b, ~ child_edge st other b) ->
  (~ In other gone -> forall a, ~ parent_edge st a other) ->
  backed gone (integrate_cleanup self other st).
Proof.
  intros [H1 H2] Hc Hp. split; intros a b Hg Hab.
  - apply (proj1 (integrate_cleanup_edges st a b)) in Hab.
    apply (proj2 (integrate_cleanup_edges st a b)).
    destruct Hab as (Hab & N1 & N2). split; [auto|]. split; [| assumption].
    intros [-> ->]. exact (Hc self Hab).
  - apply (proj2 (integrate_cleanup_edges st a b)) in Hab.
    apply (proj1 (integrate_cleanup_edges st a b)).
    destruct Hab as (Hab & N1 & N2). split; [auto|]. split; [| assumption].
    intros [-> ->]. exact (Hp Hg self Hab).
Qed.
End Loops.

Lemma same_edges_write_modules c l st : same_edges st (write_modules c l st).
Proof. split; intros x; store_crush. Qed.

Lemma same_edges_write_blocks c l st : same_edges st (write_blocks c l st).
Proof. split; intros x; store_crush. Qed.

Lemma same_edges_write_origins c l st : same_edges st (write_origins c l st).
Proof. split; intros x; store_crush. Qed.

Lemma same_edges_Module_removeChunk m c st : same_edges st (Module_removeChunk m c st).
Proof. split; intros x; reflexivity. Qed.

Lemma same_edges_Module_addChunk m c st : same_edges st (Module_addChunk m c st).
Proof.
  unfold Module_addChunk. destruct (JsSet.has _ _ _); split; intros x; reflexivity.
Qed.

Lemma same_edges_addModule a m st : same_edges st (snd (addModule a m st)).
Proof.
  unfold addModule. destruct (negb _); simpl.
  - apply same_edges_write_modules.
  - apply same_edges_refl.
Qed.

Lemma same_edges_integrate_modules a b st : same_edges st (integrate_modules a b st).
Proof.
  unfold integrate_modules.
  eapply same_edges_trans; [| apply same_edges_write_modules].
  apply same_edges_fold. intros s m. unfold moveModule.
  eapply same_edges_trans; [apply same_edges_Module_removeChunk|].
  eapply same_edges_trans; [apply same_edges_Module_addChunk|].
  apply same_edges_addModule.
Qed.

Lemma same_edges_integrate_block_step a b reason s blk :
  same_edges s (integrate_block_step a b reason s blk).
Proof.
  unfold integrate_block_step, addBlock.
  destruct (_ <? _)%Z; simpl; split; intros c; store_crush.
Qed.

Lemma same_edges_integrate_blocks a b reason st :
  same_edges st (integrate_blocks a b reason st).
Proof.
  unfold integrate_blocks.
  eapply same_edges_trans; [| apply same_edges_write_blocks].
  apply same_edges_fold. intros s blk. apply same_edges_integrate_block_step.
Qed.

Lemma same_edges_integrate_origin_step reason s o :
  same_edges s (integrate_origin_step reason s o).
Proof.
  unfold integrate_origin_step.
  destruct (OriginObj.reasons (origin s o)) as [[| r rs]|];
    try destruct (string_dec r reason); split; intros c; reflexivity.
Qed.

Lemma same_edges_integrate_origins a b reason st :
  same_edges st (integrate_origins a b reason st).
Proof.
  unfold integrate_origins.
  eapply same_edges_trans; [apply same_edges_write_origins|].
  apply same_edges_fold. intros s o. apply same_edges_integrate_origin_step.
Qed.

(** [integrate] keeps every edge of every chunk outside [gone] backed,
  whichever two chunks it is called on and whatever it returns. *)
Lemma backed_integrate gone self other reason st :
  backed gone st -> backed gone (snd (integrate self other reason st)).
Proof.
  intros H. unfold integrate.
  destruct (negb (canBeIntegrated st self other)); simpl; auto.
  set (st1 := integrate_modules self other st).
  assert (B1 : backed gone st1).
  { eapply same_edges_backed; [apply same_edges_integrate_modules | exact H]. }
  destruct (@backed_integrate_parents gone self other st1 B1) as (B2 & Np & Nc).
  destruct (@backed_integrate_children gone self other _ B2 Np Nc) as (B3 & Nc3 & Np3).
  set (st3 := integrate_children self other (integrate_parents self other st1)) in *.
  set (st5 := integrate_origins self other reason
                (integrate_blocks self other reason st3)).
  assert (E35 : same_edges st3 st5).
  { eapply same_edges_trans;
      [apply same_edges_integrate_blocks | apply same_edges_integrate_origins]. }
  apply backed_integrate_cleanup.
  - eapply same_edges_backed; eauto.
  - intros b Hb. apply (Nc3 b). now apply (same_edges_child other b E35).
  - intros Hg a Ha. apply (Np3 Hg a). now apply (same_edges_parent a other E35).
Qed.

Lemma no_duplicates_integrate self other reason st :
  no_duplicates st -> no_duplicates (snd (integrate self other reason st)).
Proof.
  intros H. unfold integrate.
  destruct (negb (canBeIntegrated st self other)); simpl; auto.
  unfold integrate_cleanup. cbv zeta.
  repeat first [apply no_duplicates_delete_parent | apply no_duplicates_delete_child].
  eapply same_edges_no_duplicates; [apply same_edges_integrate_origins|].
  eapply same_edges_no_duplicates; [apply same_edges_integrate_blocks|].
  unfold integrate_children.
  apply no_duplicates_write_chunks; [constructor|].
  apply fold_left_invariant with (P := no_duplicates).
  { intros s c Hs. now apply no_duplicates_replaceParentChunk. }
  unfold integrate_parents.
  apply no_duplicates_write_parents; [constructor|].
  apply fold_left_invariant with (P := no_duplicates).
  { intros s c Hs. now apply no_duplicates_replaceChunk. }
  eapply same_edges_no_duplicates; [apply same_edges_integrate_modules | exact H].
Qed.
End IntegrateBacked.

(** ** checkConstraints *)

Section CheckFacts.
Import Spec Chunk.

Lemma index_from_app (x : nat) (pre r : list nat) (i : Z) :
  ~ In x pre ->
  JsArray.index_from Nat.eq_dec i x (pre ++ x :: r) = (i + Z.of_nat (List.length pre))%Z.
Proof.
  revert i. induction pre as [| y pre IH]; intros i Hn; simpl.
  - destruct (Nat.eq_dec x x); [lia | congruence].
  - destruct (Nat.eq_dec x y) as [-> | Hxy].
    + exfalso. apply Hn. now left.
    + rewrite IH; [lia|]. intros Hin. apply Hn. now right.
Qed.

Lemma index_from_In (x : nat) (l : list nat) (i : Z) :
  In x l -> (0 <= i)%Z -> (JsArray.index_from Nat.eq_dec i x l <? 0)%Z = false.
Proof.
  revert i. induction l as [| y l IH]; intros i Hin Hi; simpl.
  - contradiction.
  - destruct (Nat.eq_dec x y) as [-> | Hxy].
    + apply Z.ltb_ge. exact Hi.
    + destruct Hin as [-> | Hin]; [congruence|]. apply IH; [assumption | lia].
Qed.

Lemma check_children_ok st c (rest : list ChunkRef) : forall pre,
  NoDup (pre ++ rest) ->
  (forall child, In child rest -> In c (parents_of st child)) ->
  check_children st c (pre ++ rest) rest (Z.of_nat (List.length pre)) = Normal tt.
Proof.
  induction rest as [| child rest IH]; intros pre Hnd Hb; simpl; [reflexivity|].
  assert (Hn : ~ In child pre).
  { apply NoDup_remove_2 in Hnd. intros Hin. apply Hnd. apply in_or_app. now left. }
  unfold JsArray.indexOf. rewrite index_from_app by assumption.
  rewrite Z.add_0_l, Z.eqb_refl. simpl.
  assert (Hp : set_has c (parents_of st child) = true).
  { apply set_has_true. apply Hb. now left. }
  rewrite Hp. simpl.
  replace (Z.of_nat (List.length pre) + 1)%Z
    with (Z.of_nat (List.length (pre ++ [child]))).
  2:{ rewrite length_app. simpl. lia. }
  replace (pre ++ child :: rest) with ((pre ++ [child]) ++ rest)
    by (rewrite <- app_assoc; reflexivity).
  apply IH.
  - rewrite <- app_assoc. exact Hnd.
  - intros ch Hch. apply Hb. now right.
Qed.

Lemma check_parents_ok st c (rest : list ChunkRef) : forall pre,
  NoDup (pre ++ rest) ->
  (forall p, In p rest -> In c (chunks_of st p)) ->
  check_parents st c (pre ++ rest) rest (Z.of_nat (List.length pre)) = Normal tt.
Proof.
  induction rest as [| p rest IH]; intros pre Hnd Hb; simpl; [reflexivity|].
  assert (Hn : ~ In p pre).
  { apply NoDup_remove_2 in Hnd. intros Hin. apply Hnd. apply in_or_app. now left. }
  unfold JsArray.indexOf at 1. rewrite index_from_app by assumption.
  rewrite Z.add_0_l, Z.eqb_refl. simpl.
  unfold JsArray.indexOf. rewrite index_from_In; [| apply Hb; now left | lia].
  replace (Z.of_nat (List.length pre) + 1)%Z
    with (Z.of_nat (List.length (pre ++ [p]))).
  2:{ rewrite length_app. simpl. lia. }
  replace (pre ++ p :: rest) with ((pre ++ [p]) ++ rest)
    by (rewrite <- app_assoc; reflexivity).
  apply IH.
  - rewrite <- app_assoc. exact Hnd.
  - intros q Hq. apply Hb. now right.
Qed.

(** [checkConstraints] returns on every chunk whose edges are backed and
  free of duplicates. *)
Lemma checkConstraints_passes gone st c :
  backed gone st -> no_duplicates st -> ~ In c gone ->
  checkConstraints st c = Normal tt.
Proof.
  intros [H1 H2] Hnd Hc. unfold checkConstraints. cbv zeta.
  pose proof (check_children_ok st c (chunks_of st c) []) as Ec.
  simpl in Ec. rewrite Ec.
  - pose proof (check_parents_ok st c (parents_of st c) []) as Ep.
    simpl in Ep. apply Ep.
    + apply Hnd.
    + intros p Hp. now apply H2.
  - apply Hnd.
  - intros child Hch. now apply H1.
Qed.
End CheckFacts.

(** ** Sequences of calls *)

Section TraceFacts.
Import Spec Chunk Trace Collaborators.
Variable insertChunk :
  EntryRef -> ChunkRef -> ChunkRef -> EntrySide -> option EntrySide.

Lemma step_invariant op gone st :
  two_sided op = true -> backed gone st -> no_duplicates st ->
  backed (removed op ++ gone) (fst (step insertChunk op st))
  /\ no_duplicates (fst (step insertChunk op st)).
Proof.
  intros Hop Hb Hn. destruct op; simpl in *; try discriminate.
  - split; [now apply backed_integrate | now apply no_duplicates_integrate].
  - split; [now apply backed_split | now apply no_duplicates_split].
  - split; [now apply backed_remove | now apply no_duplicates_remove].
  - split; [now apply backed_removeChunk | now apply no_duplicates_removeChunk].
  - split; [now apply backed_removeParent | now apply no_duplicates_removeParent].
  - split.
    + apply backed_add_pair with (a := parentChunk) (b := chunk_) (st := st); auto;
        intros x y.
      * now rewrite addParent_child, addChunk_child.
      * now rewrite addParent_parent, addChunk_parent.
    + now apply no_duplicates_addParent, no_duplicates_addChunk.
Qed.

Lemma run_invariant (ops : list Op) : forall gone st,
  forallb two_sided ops = true -> backed gone st -> no_duplicates st ->
  backed (snd (fst (run insertChunk ops st gone))) (fst (fst (run insertChunk ops st gone)))
  /\ no_duplicates (fst (fst (run insertChunk ops st gone))).
Proof.
  induction ops as [| op ops IH]; intros gone st Hops Hb Hn; simpl in *.
  - split; assumption.
  - apply andb_true_iff in Hops. destruct Hops as [Hop Hops].
    destruct (step_invariant op Hop Hb Hn) as [Hb1 Hn1].
    destruct (step insertChunk op st) as [st1 [u | e]]; simpl in *.
    + now apply IH.
    + split; assumption.
Qed.
End TraceFacts.

(** C1, as the code has it.  Start from a graph in which B is a child of
  A exactly when A is a parent of B and no edge set holds a value twice.
  After any sequence of [integrate], [split], [remove], [removeChunk] and
  [removeParent] calls and matched [addChunk]/[addParent] pairs, whether
  the sequence runs to its end or is cut short by an exception, no edge
  set holds a value twice, [checkConstraints()] returns on every chunk on
  which [remove] has not been called, and among those chunks B is a child
  of A exactly when A is a parent of B. *)
Theorem graph_invariant_after_two_sided_calls
    (insertChunk : EntryRef -> ChunkRef -> ChunkRef ->
                   Collaborators.EntrySide -> option Collaborators.EntrySide)
    (ops : list Trace.Op) (st0 : Store) :
  Spec.symmetric st0 -> Spec.no_duplicates st0 ->
  forallb Trace.two_sided ops = true ->
  let st := fst (fst (Trace.run insertChunk ops st0 [])) in
  let gone := snd (fst (Trace.run insertChunk ops st0 [])) in
  Spec.no_duplicates st
  /\ (forall c, ~ In c gone -> Chunk.checkConstraints st c = Normal tt)
  /\ (forall a b, ~ In a gone -> ~ In b gone ->
        (In b (chunks_of st a) <-> In a (parents_of st b))).
Proof.
  intros Hs Hn Hops st gone.
  destruct (run_invariant insertChunk ops (gone := []) Hops (symmetric_backed Hs) Hn)
    as [Hb Hnd].
  fold st gone in Hb, Hnd.
  split; [assumption|]. split.
  - intros c Hc. eapply checkConstraints_passes; eauto.
  - intros a b Ha Hb'. destruct Hb as [H1 H2]. split; intros H.
    + now apply H1.
    + now apply H2.
Qed.

(** C1, the claim as stated, fails in three ways.  On the store in which
  every chunk is fresh, a single [addChunk] call makes chunk 1 a child of
  chunk 0 while chunk 0 is no parent of chunk 1, and [checkConstraints()]
  on chunk 0 raises "child missing parent".  After the matched pairs
  0 -> 1 and 1 -> 2 and [remove] on chunk 1, the removed chunk still lists
  chunk 2 as a child, and [checkConstraints()] on it raises.  After the
  matched pairs 0 -> 1, 1 -> 2, 1 -> 3 and 3 -> 1 and [remove] on chunk 3,
  chunk 1 is its own child and its own parent. *)
Lemma symmetry_broken_by_lone_add_and_by_remove :
  let run_on := fun ops =>
    fst (fst (Trace.run Examples.insertChunk_idle ops Examples.empty_store [])) in
  let st1 := run_on [Trace.AddChunk 0 1] in
  let st2 := run_on [Trace.Connect 0 1; Trace.Connect 1 2; Trace.Remove 1 "r"%string] in
  let st3 := run_on [Trace.Connect 0 1; Trace.Connect 1 2; Trace.Connect 1 3;
                     Trace.Connect 3 1; Trace.Remove 3 "r"%string] in
  Spec.symmetric Examples.empty_store
  /\ Spec.no_duplicates Examples.empty_store
  /\ (In 1 (chunks_of st1 0) /\ ~ In 0 (parents_of st1 1) /\ ~ Spec.symmetric st1
      /\ Chunk.checkConstraints st1 0 = Throw (Error (ChildMissingParent 0 1)))
  /\ (In 2 (chunks_of st2 1) /\ ~ In 1 (parents_of st2 2) /\ ~ Spec.symmetric st2
      /\ Chunk.checkConstraints st2 1 = Throw (Error (ChildMissingParent 1 2)))
  /\ (In 1 (chunks_of st3 1) /\ In 1 (parents_of st3 1)).
Proof.
  cbv zeta beta.
  split; [intros a b; split; intros []|].
  split; [intros c; split; constructor|].
  split; [| split].
  - split; [vm_compute; auto|]. split; [vm_compute; intuition discriminate|].
    split; [| vm_compute; reflexivity].
    intros H. specialize (H 0 1). unfold Spec.child_edge, Spec.parent_edge in H.
    vm_compute in H. destruct H as [H _]. apply H. now left.
  - split; [vm_compute; auto|]. split; [vm_compute; intuition discriminate|].
    split; [| vm_compute; reflexivity].
    intros H. specialize (H 1 2). unfold Spec.child_edge, Spec.parent_edge in H.
    vm_compute in H. destruct H as [H _].
    destruct H as [H | H]; [now left | discriminate H | destruct H].
  - split; vm_compute; auto.
Qed.

(** ** The loops run over sets their rounds leave alone

  Each [forEach] over a [Set] is modelled as a fold over the members the
  set has when the loop starts.  That is what the loop does as long as no
  round adds to, or deletes from, the set being walked; the lemmas below
  show it for every such loop, in every store. *)

Section IteratedSets.
Import Chunk.

Lemma remove_inner_loop_keeps self p (l : list ChunkRef) : forall s,
  (forall c, In c l -> In c (chunks_of s self)) -> In p (parents_of s self) ->
  chunks_of (fold_left (remove_connect p) l s) self = chunks_of s self
  /\ parents_of (fold_left (remove_connect p) l s) self = parents_of s self.
Proof.
  induction l as [| c l IH]; intros s Hl Hp; simpl; [split; reflexivity|].
  destruct (@remove_connect_keeps_iterated self p s c) as [E1 E2];
    [apply Hl; now left | assumption |].
  destruct (IH (remove_connect p s c)) as [I1 I2].
  - intros c' Hc'. rewrite E1. apply Hl. now right.
  - now rewrite E2.
  - split; congruence.
Qed.

(** The outer loop of [remove] walks [this._parents]. *)
Lemma remove_parent_step_keeps_parents self st p :
  In p (parents_of st self) ->
  parents_of (remove_parent_step self st p) self = parents_of st self.
Proof.
  intros Hp. unfold remove_parent_step.
  set (st1 := write_chunks p (set_delete self (chunks_of st p)) st).
  destruct (@remove_inner_loop_keeps self p (chunks_of st1 self) st1) as [_ E].
  - auto.
  - subst st1. now rewrite parents_write_chunks.
  - rewrite E. subst st1. apply parents_write_chunks.
Qed.

(** The second loop of [remove] walks [this._chunks]. *)
Lemma remove_child_step_keeps_chunks self st c :
  chunks_of (remove_child_step self st c) self = chunks_of st self.
Proof. apply chunks_write_parents. Qed.

(** The loops of [integrate] walk [otherChunk._parents] and
  [otherChunk._chunks]. *)
Lemma replaceChunk_keeps_parents_of_other p other self st :
  In p (parents_of st other) ->
  parents_of (replaceChunk p other self st) other = parents_of st other.
Proof.
  intros Hp. unfold replaceChunk.
  set (st1 := write_chunks p (set_delete other (chunks_of st p)) st).
  assert (E1 : forall x, parents_of st1 x = parents_of st x).
  { intros x. apply parents_write_chunks. }
  destruct (negb (p =? self)); [| apply E1].
  assert (E2 : parents_of (snd (addParent self p st1)) other = parents_of st other).
  { destruct (Nat.eq_dec other self) as [-> | Hn].
    - rewrite addParent_present; [apply E1 | now rewrite E1].
    - rewrite addParent_parents_other by assumption. apply E1. }
  destruct (addParent self p st1) as [added st2]. simpl in E2.
  destruct added; [| exact E2]. now rewrite addChunk_parents.
Qed.

Lemma replaceParentChunk_keeps_chunks_of_other c other self st :
  In c (chunks_of st other) ->
  chunks_of (replaceParentChunk c other self st) other = chunks_of st other.
Proof.
  intros Hc. unfold replaceParentChunk.
  set (st1 := write_parents c (set_delete other (parents_of st c)) st).
  assert (E1 : forall x, chunks_of st1 x = chunks_of st x).
  { intros x. apply chunks_write_parents. }
  destruct (negb (c =? self)); [| apply E1].
  assert (E2 : chunks_of (snd (addChunk self c st1)) other = chunks_of st other).
  { destruct (Nat.eq_dec other self) as [-> | Hn].
    - rewrite addChunk_present; [apply E1 | now rewrite E1].
    - rewrite addChunk_chunks_other by assumption. apply E1. }
  destruct (addChunk self c st1) as [added st2]. simpl in E2.
  destruct added; [| exact E2]. now rewrite addParent_chunks.
Qed.

(** The loops of [split] walk [this._chunks] and [this._parents]. *)
Lemma split_child_step_keeps_chunks self n st c :
  In c (chunks_of st self) ->
  chunks_of (split_child_step n st c) self = chunks_of st self.
Proof.
  intros Hc. unfold split_child_step. rewrite addParent_chunks.
  destruct (Nat.eq_dec self n) as [-> | Hn].
  - now rewrite addChunk_present.
  - now apply addChunk_chunks_other.
Qed.

Lemma split_parent_step_keeps_parents self n st p :
  In p (parents_of st self) ->
  parents_of (split_parent_step n st p) self = parents_of st self.
Proof.
  intros Hp. unfold split_parent_step.
  destruct (Nat.eq_dec self n) as [-> | Hn].
  - rewrite addParent_present; [apply addChunk_parents|].
    now rewrite addChunk_parents.
  - rewrite addParent_parents_other by assumption. apply addChunk_parents.
Qed.
End IteratedSets.

(** ** The theorems at concrete inputs *)

Lemma empty_store_symmetric : Spec.symmetric Examples.empty_store.
Proof. intros a b. split; intros []. Qed.

Lemma empty_store_no_duplicates : Spec.no_duplicates Examples.empty_store.
Proof. intros c. split; constructor. Qed.

Lemma graph_invariant_after_two_sided_calls_witness :
  Spec.symmetric Examples.empty_store
  /\ Spec.no_duplicates Examples.empty_store
  /\ forallb Trace.two_sided Examples.session = true
  /\ (let st := fst (fst (Trace.run Examples.insertChunk_idle Examples.session
                            Examples.empty_store [])) in
      let gone := snd (fst (Trace.run Examples.insertChunk_idle Examples.session
                              Examples.empty_store [])) in
      Spec.no_duplicates st
      /\ (forall c, ~ In c gone -> Chunk.checkConstraints st c = Normal tt)
      /\ (forall a b, ~ In a gone -> ~ In b gone ->
            (In b (chunks_of st a) <-> In a (parents_of st b)))).
Proof.
  split; [exact empty_store_symmetric|].
  split; [exact empty_store_no_duplicates|].
  split; [reflexivity|].
  exact (@graph_invariant_after_two_sided_calls Examples.insertChunk_idle
           Examples.session Examples.empty_store
           empty_store_symmetric empty_store_no_duplicates eq_refl).
Defined.

Lemma remove_detaches_neighbours_only_witness :
  ~ In 1 (chunks_of Examples.chain 1)
  /\ ~ In 1 (parents_of Examples.chain 1)
  /\ (let st' := fst (Chunk.remove 1 "gone"%string Examples.chain) in
      parents_of st' 1 = parents_of Examples.chain 1
      /\ chunks_of st' 1 = chunks_of Examples.chain 1
      /\ (forall p, In p (parents_of Examples.chain 1) -> ~ In 1 (chunks_of st' p))
      /\ (forall c, In c (chunks_of Examples.chain 1) -> ~ In 1 (parents_of st' c))).
Proof.
  assert (H1 : ~ In 1 (chunks_of Examples.chain 1)).
  { vm_compute. intros [H | []]. discriminate H. }
  assert (H2 : ~ In 1 (parents_of Examples.chain 1)).
  { vm_compute. intros [H | []]. discriminate H. }
  split; [exact H1|]. split; [exact H2|].
  exact (@remove_detaches_neighbours_only Examples.chain 1 "gone"%string H1 H2).
Defined.

Lemma integrate_tags_all_origins_witness :
  Chunk.canBeIntegrated Examples.two_origins 0 1 = true
  /\ (let st' := snd (Chunk.integrate 0 1 "merged"%string Examples.two_origins) in
      origins_of st' 0 = origins_of Examples.two_origins 0 ++ origins_of Examples.two_origins 1
      /\ (forall o, In o (origins_of st' 0) ->
            OriginObj.reasons (origin st' o) =
              Spec.reasons_after "merged"%string
                (OriginObj.reasons (origin Examples.two_origins o)))
      /\ (forall o, ~ In o (origins_of st' 0) ->
            origin st' o = origin Examples.two_origins o)).
Proof.
  split; [reflexivity|].
  exact (@integrate_tags_all_origins Examples.two_origins 0 1 "merged"%string eq_refl).
Defined.

Lemma block_chunk_list_invariant_witness :
  let st := MoreExamples.with_block in
  let st0 := MoreExamples.with_reasoned_null_block in
  (Spec.block_ok st 5
   /\ In 5 (blocks_of st 1)
   /\ BlockObj.chunks (block st 5) = Some [1]
   /\ BlockObj.chunks (block (fst (Chunk.remove 1 "gone"%string st)) 5) = None
   /\ BlockObj.chunkReason (block (fst (Chunk.remove 1 "gone"%string st)) 5)
      = Some "gone"%string
   /\ Spec.block_ok (fst (Chunk.remove 1 "gone"%string st)) 5
   /\ Chunk.canBeIntegrated st 0 1 = true
   /\ BlockObj.chunks (block (snd (Chunk.integrate 0 1 "merged"%string st)) 5) = Some [0]
   /\ BlockObj.chunkReason (block (snd (Chunk.integrate 0 1 "merged"%string st)) 5)
      = Some "merged"%string
   /\ Spec.block_ok (snd (Chunk.integrate 0 1 "merged"%string st)) 5)
  /\ (Spec.block_ok st0 5
      /\ In 5 (blocks_of st0 1)
      /\ BlockObj.chunks (block st0 5) = None
      /\ snd (Chunk.remove 1 "gone"%string st0) = Throw TypeError
      /\ Spec.block_ok (fst (Chunk.remove 1 "gone"%string st0)) 5
      /\ BlockObj.chunks (block (snd (Chunk.integrate 0 1 "merged"%string st0)) 5)
         = Some [0]
      /\ Spec.block_ok (snd (Chunk.integrate 0 1 "merged"%string st0)) 5).
Proof.
  intros st st0.
  assert (H : Spec.block_ok st 5) by (vm_compute; exact I).
  assert (H0 : Spec.block_ok st0 5) by (vm_compute; discriminate).
  pose proof (@block_chunk_list_invariant st 1 2 "gone"%string 5 H) as [Hr _].
  pose proof (@block_chunk_list_invariant st 0 1 "merged"%string 5 H) as [_ Hi].
  pose proof (@block_chunk_list_invariant st0 1 2 "gone"%string 5 H0) as [Hr0 _].
  pose proof (@block_chunk_list_invariant st0 0 1 "merged"%string 5 H0) as [_ Hi0].
  apply conj.
  - apply conj; [exact H|].
    apply conj; [vm_compute; now left|].
    apply conj; [vm_compute; reflexivity|].
    apply conj; [vm_compute; reflexivity|].
    apply conj; [vm_compute; reflexivity|].
    apply conj; [exact Hr|].
    apply conj; [vm_compute; reflexivity|].
    apply conj; [vm_compute; reflexivity|].
    apply conj; [vm_compute; reflexivity|].
    exact Hi.
  - apply conj; [exact H0|].
    apply conj; [vm_compute; now left|].
    apply conj; [vm_compute; reflexivity|].
    apply conj; [vm_compute; reflexivity|].
    apply conj; [exact Hr0|].
    apply conj; [vm_compute; reflexivity|].
    exact Hi0.
Defined.

Lemma addMultiplierAndOverhead_falsy_multiplier_witness :
  Chunk.isInitial Scenario.st 0 = true
  /\ Chunk.addMultiplierAndOverhead Scenario.st 0 7%Z
       {| Chunk.chunkOverhead := Some 0%Z; Chunk.entryChunkMultiplicator := Some 0%Z |}
     = (7 * 10)%Z.
Proof.
  split; [reflexivity|].
  exact (proj2 (proj2 (proj2
           (@addMultiplierAndOverhead_falsy_multiplier Scenario.st 0 7%Z eq_refl)))).
Defined.

Lemma canBeIntegrated_cases_witness :
  entrypoints_of Scenario.st 1 = []
  /\ entrypoints_of Scenario.st 0 <> []
  /\ (Chunk.canBeIntegrated Scenario.st 0 1 = true <-> parents_of Scenario.st 1 = [0])
  /\ Chunk.canBeIntegrated Scenario.st 1 0 = false.
Proof.
  assert (H1 : entrypoints_of Scenario.st 1 = []) by reflexivity.
  assert (H0 : entrypoints_of Scenario.st 0 <> []) by discriminate.
  split; [exact H1|]. split; [exact H0|]. split.
  - exact (proj1 (proj2 (canBeIntegrated_cases Scenario.st 0 1)) H1 H0).
  - exact (proj1 (canBeIntegrated_cases Scenario.st 1 0) H0).
Defined.

Lemma integratedSize_spec_witness :
  Chunk.canBeIntegrated Scenario.st 0 1 = true
  /\ Chunk.integratedSize Scenario.st 0 1 Scenario.options =
       Some (Chunk.addMultiplierAndOverhead Scenario.st 0
               (Chunk.modulesSize Scenario.st 0%nat
                + fold_right Z.add 0
                    (map (fun m => ModuleObj.size (module Scenario.st m))
                         (filter (fun m => negb (Chunk.set_has m (modules_of Scenario.st 0%nat)))
                                 (modules_of Scenario.st 1%nat))))%Z
               Scenario.options)
  /\ Chunk.canBeIntegrated Scenario.st 1 0 = false
  /\ Chunk.integratedSize Scenario.st 1 0 Scenario.options = None.
Proof.
  split; [reflexivity|].
  split; [exact (proj2 (proj1 integratedSize_spec Scenario.st 0 1 Scenario.options) eq_refl)|].
  split; [reflexivity|].
  exact (proj1 (proj1 integratedSize_spec Scenario.st 1 0 Scenario.options) eq_refl).
Defined.

Lemma sortable_set_cache_semantics_witness :
  let s1 := fst (SortableSet.sortWith Z.eq_dec Examples.ascending Examples.set312) in
  SortableSet.noCache s1 = false
  /\ SortableSet.sortWith Z.eq_dec Examples.ascending s1 = (s1, 0)
  /\ NoDup (SortableSet.elements Examples.set312)
  /\ Spec.cmp_consistent (SortableSet.fn_call Examples.ascending)
  /\ Sorted (Spec.cmp_le (SortableSet.fn_call Examples.ascending))
       (SortableSet.elements
          (fst (SortableSet.sortWith Z.eq_dec Examples.ascending Examples.set312))).
Proof.
  cbv zeta.
  pose (s1 := fst (SortableSet.sortWith Z.eq_dec Examples.ascending Examples.set312)).
  assert (Hnd : NoDup (SortableSet.elements Examples.set312)).
  { vm_compute. repeat constructor; simpl; intuition discriminate. }
  assert (Hc : Spec.cmp_consistent (SortableSet.fn_call Examples.ascending)).
  { intros a b. simpl. lia. }
  split; [reflexivity|].
  split.
  - apply (proj1 (proj2 (proj2 (proj2
             (proj1 sortable_set_cache_semantics Z Z.eq_dec s1 0%Z Examples.ascending))))).
    + reflexivity.
    + right. exists Examples.ascending. split; reflexivity.
  - split; [exact Hnd|]. split; [exact Hc|].
    apply (proj2 (proj2 (proj2 (proj2
             (proj1 sortable_set_cache_semantics Z Z.eq_dec Examples.set312 0%Z
                Examples.ascending)))) Hnd).
    + intros [_ [He | (g & Hg & _)]]; discriminate.
    + exact Hc.
Defined.


(* ================================================================== *)
(** * Part III: further properties of the code                         *)
(* ================================================================== *)

(** ** removeChunk and removeParent *)

(** X1.  The mutual recursion of [removeChunk] and [removeParent] ends
    within three nested calls in every store: any budget of three or more
    gives the result, and that is the result the two methods are defined
    by.  Two calls are not always enough. *)
Theorem removal_recursion_ends_within_three_calls
    (n : nat) (self chunk_ : ChunkRef) (st : Store) :
  3 <= n ->
  Chunk.removeChunk_fuel n self chunk_ st = Some (Chunk.removeChunk self chunk_ st)
  /\ Chunk.removeParent_fuel n self chunk_ st = Some (Chunk.removeParent self chunk_ st)
  /\ Chunk.removeChunk_fuel 2 0 1 Examples.chain = None.
Proof.
  intros Hn. replace n with (3 + (n - 3)) by lia.
  split; [apply removeChunk_fuel_enough|].
  split; [apply removeParent_fuel_enough | reflexivity].
Qed.

Lemma removal_recursion_ends_within_three_calls_witness :
  3 <= 5
  /\ Chunk.removeChunk_fuel 5 0 1 Examples.chain = Some (Chunk.removeChunk 0 1 Examples.chain)
  /\ Chunk.removeParent_fuel 5 0 1 Examples.chain = Some (Chunk.removeParent 0 1 Examples.chain)
  /\ Chunk.removeChunk_fuel 2 0 1 Examples.chain = None.
Proof.
  assert (H : 3 <= 5) by lia.
  split; [exact H|].
  exact (@removal_recursion_ends_within_three_calls 5 0 1 Examples.chain H).
Defined.

Section RemoveEdgeFacts.
Import Spec Chunk.

Lemma removeChunk_fst a b st :
  fst (removeChunk a b st) = set_has b (chunks_of st a).
Proof.
  unfold removeChunk. simpl.
  destruct (set_has b (chunks_of st a)) eqn:E1; simpl; [| reflexivity].
  set (st1 := write_chunks a (set_delete b (chunks_of st a)) st).
  destruct (set_has a (parents_of st1 b)) eqn:E2; simpl; [| reflexivity].
  set (st2 := write_parents b (set_delete a (parents_of st1 b)) st1).
  assert (E3 : set_has b (chunks_of st2 a) = false).
  { apply set_has_false. subst st2 st1.
    rewrite chunks_write_parents, chunks_write_chunks, Nat.eqb_refl.
    unfold set_delete. rewrite delete_In. tauto. }
  now rewrite E3.
Qed.

Lemma removeParent_fst a b st :
  fst (removeParent a b st) = set_has b (parents_of st a).
Proof.
  unfold removeParent. simpl.
  destruct (set_has b (parents_of st a)) eqn:E1; simpl; [| reflexivity].
  set (st1 := write_parents a (set_delete b (parents_of st a)) st).
  destruct (set_has a (chunks_of st1 b)) eqn:E2; simpl; [| reflexivity].
  set (st2 := write_chunks b (set_delete a (chunks_of st1 b)) st1).
  assert (E3 : set_has b (parents_of st2 a) = false).
  { apply set_has_false. subst st2 st1.
    rewrite parents_write_chunks, parents_write_parents, Nat.eqb_refl.
    unfold set_delete. rewrite delete_In. tauto. }
  now rewrite E3.
Qed.

Lemma removeChunk_absent a b st :
  ~ In b (chunks_of st a) -> removeChunk a b st = (false, st).
Proof.
  intros H. apply set_has_false in H. unfold removeChunk. simpl. now rewrite H.
Qed.

Lemma removeParent_absent a b st :
  ~ In b (parents_of st a) -> removeParent a b st = (false, st).
Proof.
  intros H. apply set_has_false in H. unfold removeParent. simpl. now rewrite H.
Qed.

Lemma removeChunk_present_edges a b st :
  In b (chunks_of st a) ->
  (forall x y, child_edge (snd (removeChunk a b st)) x y
               <-> child_edge st x y /\ ~ (x = a /\ y = b))
  /\ (forall x y, parent_edge (snd (removeChunk a b st)) x y
                  <-> parent_edge st x y /\ ~ (x = a /\ y = b)).
Proof.
  intros Hin. destruct (removeChunk_edges a b st) as [E | H]; [| exact H].
  exfalso. assert (Hc : child_edge (snd (removeChunk a b st)) a b)
    by (rewrite E; exact Hin).
  rewrite removeChunk_unfold in Hc. apply set_has_true in Hin. rewrite Hin in Hc.
  cbv zeta in Hc.
  destruct (set_has a _) in Hc.
  - rewrite write_parents_child, delete_child_child in Hc. tauto.
  - rewrite delete_child_child in Hc. tauto.
Qed.

Lemma removeParent_present_edges a b st :
  In b (parents_of st a) ->
  (forall x y, child_edge (snd (removeParent a b st)) x y
               <-> child_edge st x y /\ ~ (x = b /\ y = a))
  /\ (forall x y, parent_edge (snd (removeParent a b st)) x y
                  <-> parent_edge st x y /\ ~ (x = b /\ y = a)).
Proof.
  intros Hin. destruct (removeParent_edges a b st) as [E | H]; [| exact H].
  exfalso. assert (Hc : parent_edge (snd (removeParent a b st)) b a)
    by (rewrite E; exact Hin).
  rewrite removeParent_unfold in Hc. apply set_has_true in Hin. rewrite Hin in Hc.
  cbv zeta in Hc.
  destruct (set_has a _) in Hc.
  - rewrite write_chunks_parent, delete_parent_parent in Hc. tauto.
  - rewrite delete_parent_parent in Hc. tauto.
Qed.
End RemoveEdgeFacts.

(** X2.  [removeChunk(chunk)] returns true exactly when [chunk] is in the
    receiver's child set.  Then the edge is gone at both ends - [chunk] out of
    the receiver's children, the receiver out of [chunk]'s parents - and no
    other edge changes.  When [chunk] is not a child the store is left as it
    is, also when [chunk] still lists the receiver as a parent.
    [removeParent] is the mirror image. *)
Theorem removeChunk_removeParent_spec (st : Store) (self other : ChunkRef) :
  (In other (chunks_of st self) ->
     let st' := snd (Chunk.removeChunk self other st) in
     fst (Chunk.removeChunk self other st) = true
     /\ ~ In other (chunks_of st' self) /\ ~ In self (parents_of st' other)
     /\ (forall x y, ~ (x = self /\ y = other) ->
           (In y (chunks_of st' x) <-> In y (chunks_of st x))
           /\ (In x (parents_of st' y) <-> In x (parents_of st y))))
  /\ (~ In other (chunks_of st self) ->
        Chunk.removeChunk self other st = (false, st))
  /\ (In other (parents_of st self) ->
        let st' := snd (Chunk.removeParent self other st) in
        fst (Chunk.removeParent self other st) = true
        /\ ~ In other (parents_of st' self) /\ ~ In self (chunks_of st' other)
        /\ (forall x y, ~ (x = other /\ y = self) ->
              (In y (chunks_of st' x) <-> In y (chunks_of st x))
              /\ (In x (parents_of st' y) <-> In x (parents_of st y))))
  /\ (~ In other (parents_of st self) ->
        Chunk.removeParent self other st = (false, st)).
Proof.
  split; [| split; [apply removeChunk_absent | split; [| apply removeParent_absent]]].
  - intros Hin st'.
    destruct (removeChunk_present_edges self other st Hin) as [Hc Hp].
    fold st' in Hc, Hp. unfold Spec.child_edge, Spec.parent_edge in *.
    split; [rewrite removeChunk_fst; now apply set_has_true|].
    split; [rewrite Hc; tauto|]. split; [rewrite Hp; tauto|].
    intros x y Hxy. rewrite Hc, Hp. tauto.
  - intros Hin st'.
    destruct (removeParent_present_edges self other st Hin) as [Hc Hp].
    fold st' in Hc, Hp. unfold Spec.child_edge, Spec.parent_edge in *.
    split; [rewrite removeParent_fst; now apply set_has_true|].
    split; [rewrite Hp; tauto|]. split; [rewrite Hc; tauto|].
    intros x y Hxy. rewrite Hc, Hp. tauto.
Qed.

Lemma removeChunk_removeParent_spec_witness :
  In 1 (chunks_of Examples.chain 0)
  /\ ~ In 2 (chunks_of Examples.chain 0)
  /\ fst (Chunk.removeChunk 0 1 Examples.chain) = true
  /\ Chunk.removeChunk 0 2 Examples.chain = (false, Examples.chain).
Proof.
  assert (H1 : In 1 (chunks_of Examples.chain 0)) by (vm_compute; auto).
  assert (H2 : ~ In 2 (chunks_of Examples.chain 0)).
  { vm_compute. intros [H | []]. discriminate H. }
  split; [exact H1|]. split; [exact H2|]. split.
  - exact (proj1 (proj1 (removeChunk_removeParent_spec Examples.chain 0 1) H1)).
  - exact (proj1 (proj2 (removeChunk_removeParent_spec Examples.chain 0 2)) H2).
Defined.

Section RoundTripFacts.
Import Spec Chunk.

Lemma delete_appended (x : nat) (l : list nat) :
  ~ In x l -> set_delete x (l ++ [x]) = l.
Proof.
  intros H. unfold set_delete, JsSet.delete.
  rewrite remove_app, notin_remove by assumption. simpl.
  destruct (Nat.eq_dec x x); [apply app_nil_r | congruence].
Qed.

Lemma addChunk_absent a b st :
  ~ In b (chunks_of st a) ->
  snd (addChunk a b st) = write_chunks a (chunks_of st a ++ [b]) st.
Proof.
  intros H. apply set_has_false in H. unfold addChunk, set_add, JsSet.add.
  unfold set_has in *. now rewrite H.
Qed.

Lemma addParent_absent b a st :
  ~ In a (parents_of st b) ->
  snd (addParent b a st) = write_parents b (parents_of st b ++ [a]) st.
Proof.
  intros H. apply set_has_false in H. unfold addParent, set_add, JsSet.add.
  unfold set_has in *. now rewrite H.
Qed.
End RoundTripFacts.

(** X3.  Round trip.  When neither end records the edge yet, the matched
    pair [parentChunk.addChunk(chunk); chunk.addParent(parentChunk)] followed
    by [parentChunk.removeChunk(chunk)] gives every chunk back the child set
    and the parent set it had, members and order alike. *)
Theorem connect_then_removeChunk_restores
    (st : Store) (parentChunk chunk_ : ChunkRef) :
  ~ In chunk_ (chunks_of st parentChunk) ->
  ~ In parentChunk (parents_of st chunk_) ->
  let connected :=
    snd (Chunk.addParent chunk_ parentChunk
           (snd (Chunk.addChunk parentChunk chunk_ st))) in
  In chunk_ (chunks_of connected parentChunk)
  /\ In parentChunk (parents_of connected chunk_)
  /\ fst (Chunk.removeChunk parentChunk chunk_ connected) = true
  /\ (forall x, chunks_of (snd (Chunk.removeChunk parentChunk chunk_ connected)) x
                = chunks_of st x)
  /\ (forall x, parents_of (snd (Chunk.removeChunk parentChunk chunk_ connected)) x
                = parents_of st x).
Proof.
  intros Hc Hp connected.
  assert (Ec : forall x, chunks_of connected x
                         = if x =? parentChunk then chunks_of st parentChunk ++ [chunk_]
                           else chunks_of st x).
  { intros x. subst connected. rewrite addParent_chunks, addChunk_absent by assumption.
    apply chunks_write_chunks. }
  assert (Ep : forall x, parents_of connected x
                         = if x =? chunk_ then parents_of st chunk_ ++ [parentChunk]
                           else parents_of st x).
  { intros x. subst connected.
    rewrite addParent_absent by (now rewrite addChunk_parents).
    rewrite parents_write_parents, !addChunk_parents. reflexivity. }
  assert (Hin : In chunk_ (chunks_of connected parentChunk)).
  { rewrite Ec, Nat.eqb_refl. apply in_or_app. right. now left. }
  assert (Hin' : In parentChunk (parents_of connected chunk_)).
  { rewrite Ep, Nat.eqb_refl. apply in_or_app. right. now left. }
  split; [exact Hin|]. split; [exact Hin'|].
  split; [rewrite removeChunk_fst; now apply set_has_true|].
  rewrite removeChunk_unfold.
  apply set_has_true in Hin. rewrite Hin. cbv zeta.
  set (st1 := write_chunks parentChunk _ connected).
  assert (E1 : Chunk.set_has parentChunk (parents_of st1 chunk_) = true).
  { apply set_has_true. subst st1. now rewrite parents_write_chunks. }
  rewrite E1. split; intros x.
  - rewrite chunks_write_parents. subst st1. rewrite chunks_write_chunks.
    destruct (Nat.eqb_spec x parentChunk) as [-> | Hx].
    + rewrite Ec, Nat.eqb_refl. now apply delete_appended.
    + rewrite Ec. destruct (Nat.eqb_spec x parentChunk); congruence.
  - rewrite parents_write_parents.
    destruct (Nat.eqb_spec x chunk_) as [-> | Hx].
    + subst st1. rewrite parents_write_chunks, Ep, Nat.eqb_refl.
      now apply delete_appended.
    + subst st1. rewrite parents_write_chunks, Ep.
      destruct (Nat.eqb_spec x chunk_); congruence.
Qed.

Lemma connect_then_removeChunk_restores_witness :
  ~ In 2 (chunks_of Examples.chain 0)
  /\ ~ In 0 (parents_of Examples.chain 2)
  /\ (let connected :=
        snd (Chunk.addParent 2 0 (snd (Chunk.addChunk 0 2 Examples.chain))) in
      In 2 (chunks_of connected 0)
      /\ In 0 (parents_of connected 2)
      /\ fst (Chunk.removeChunk 0 2 connected) = true
      /\ (forall x, chunks_of (snd (Chunk.removeChunk 0 2 connected)) x
                    = chunks_of Examples.chain x)
      /\ (forall x, parents_of (snd (Chunk.removeChunk 0 2 connected)) x
                    = parents_of Examples.chain x)).
Proof.
  assert (H1 : ~ In 2 (chunks_of Examples.chain 0)).
  { vm_compute. intros [H | []]. discriminate H. }
  assert (H2 : ~ In 0 (parents_of Examples.chain 2)).
  { vm_compute. intros [H | []]. discriminate H. }
  split; [exact H1|]. split; [exact H2|].
  exact (@connect_then_removeChunk_restores Examples.chain 0 2 H1 H2).
Defined.

(** X4.  [replaceChunk] and [replaceParentChunk] never make a chunk its
    own child or its own parent: a self-edge found afterwards was there
    before.  And the replaced chunk is gone from the receiver's set, unless
    it is the very chunk put in its place. *)
Theorem replace_never_creates_self_loop
    (st : Store) (self oldChunk newChunk x : ChunkRef) :
  (In x (chunks_of (Chunk.replaceChunk self oldChunk newChunk st) x) ->
     In x (chunks_of st x))
  /\ (In x (parents_of (Chunk.replaceChunk self oldChunk newChunk st) x) ->
        In x (parents_of st x))
  /\ (In x (chunks_of (Chunk.replaceParentChunk self oldChunk newChunk st) x) ->
        In x (chunks_of st x))
  /\ (In x (parents_of (Chunk.replaceParentChunk self oldChunk newChunk st) x) ->
        In x (parents_of st x))
  /\ (oldChunk <> newChunk ->
        ~ In oldChunk (chunks_of (Chunk.replaceChunk self oldChunk newChunk st) self)
        /\ ~ In oldChunk
               (parents_of (Chunk.replaceParentChunk self oldChunk newChunk st) self)).
Proof.
  pose proof (replaceChunk_edges self oldChunk newChunk st x x) as [C1 P1].
  pose proof (replaceParentChunk_edges self oldChunk newChunk st x x) as [P2 C2].
  pose proof (replaceChunk_edges self oldChunk newChunk st self oldChunk) as [C3 _].
  pose proof (replaceParentChunk_edges self oldChunk newChunk st oldChunk self) as [P3 _].
  unfold Spec.child_edge, Spec.parent_edge in *.
  split; [intros H; apply C1 in H; destruct H as [[H _] | (E1 & E2 & N & _)];
          [exact H | congruence]|].
  split; [intros H; apply P1 in H; destruct H as [H | (E1 & E2 & N)];
          [exact H | congruence]|].
  split; [intros H; apply C2 in H; destruct H as [H | (E1 & E2 & N)];
          [exact H | congruence]|].
  split; [intros H; apply P2 in H; destruct H as [[H _] | (E1 & E2 & N & _)];
          [exact H | congruence]|].
  intros Hne. split; intros H.
  - apply C3 in H. destruct H as [[_ H] | (_ & E & _)]; [tauto | congruence].
  - apply P3 in H. destruct H as [[_ H] | (E & _)]; [tauto | congruence].
Qed.

Lemma replace_never_creates_self_loop_witness :
  1 <> 2
  /\ ~ In 1 (chunks_of (Chunk.replaceChunk 0 1 2 Examples.chain) 0)
  /\ ~ In 1 (parents_of (Chunk.replaceParentChunk 2 1 0 Examples.chain) 2).
Proof.
  assert (H : 1 <> 2) by discriminate.
  split; [exact H|]. split.
  - exact (proj1 (proj2 (proj2 (proj2 (proj2
             (replace_never_creates_self_loop Examples.chain 0 1 2 0)))) H)).
  - assert (H' : 1 <> 0) by discriminate.
    exact (proj2 (proj2 (proj2 (proj2 (proj2
             (replace_never_creates_self_loop Examples.chain 2 1 0 0)))) H')).
Defined.

(** ** checkConstraints, both ways *)

Section CheckConverse.
Import Spec Chunk.

Lemma index_from_lt (x : nat) (pre r : list nat) (i : Z) :
  In x pre ->
  (JsArray.index_from Nat.eq_dec i x (pre ++ r) < i + Z.of_nat (List.length pre))%Z.
Proof.
  revert i. induction pre as [| y pre IH]; intros i Hin; simpl in *.
  - contradiction.
  - destruct (Nat.eq_dec x y) as [-> | Hxy]; [lia|].
    destruct Hin as [-> | Hin]; [congruence|].
    specialize (IH (i + 1)%Z Hin). lia.
Qed.

Lemma index_from_absent (x : nat) (l : list nat) (i : Z) :
  ~ In x l -> JsArray.index_from Nat.eq_dec i x l = (-1)%Z.
Proof.
  revert i. induction l as [| y l IH]; intros i Hn; simpl; [reflexivity|].
  destruct (Nat.eq_dec x y) as [-> | Hxy].
  - exfalso. apply Hn. now left.
  - apply IH. intros Hin. apply Hn. now right.
Qed.

Lemma check_children_sound st c (rest : list ChunkRef) : forall pre,
  check_children st c (pre ++ rest) rest (Z.of_nat (List.length pre)) = Normal tt ->
  NoDup pre ->
  NoDup (pre ++ rest) /\ (forall child, In child rest -> In c (parents_of st child)).
Proof.
  induction rest as [| child rest IH]; intros pre Hck Hnd; simpl in *.
  - rewrite app_nil_r. split; [assumption | intros ch []].
  - destruct (JsArray.indexOf Nat.eq_dec child (pre ++ child :: rest)
              =? Z.of_nat (List.length pre))%Z eqn:Ei; simpl in Hck; [| discriminate].
    destruct (set_has c (parents_of st child)) eqn:Ep; simpl in Hck; [| discriminate].
    apply Z.eqb_eq in Ei. apply set_has_true in Ep.
    assert (Hn : ~ In child pre).
    { intros Hin. pose proof (index_from_lt child pre (child :: rest) 0 Hin) as Hlt.
      unfold JsArray.indexOf, ChunkRef in *. rewrite Ei in Hlt. lia. }
    replace (Z.of_nat (List.length pre) + 1)%Z
      with (Z.of_nat (List.length (pre ++ [child]))) in Hck
      by (rewrite length_app; simpl; lia).
    replace (pre ++ child :: rest) with ((pre ++ [child]) ++ rest) in *
      by (rewrite <- app_assoc; reflexivity).
    destruct (IH (pre ++ [child]) Hck) as [I1 I2].
    + apply NoDup_app; auto.
      * constructor; [intros [] | constructor].
      * intros y Hy [<- | []]. contradiction.
    + split; [assumption|]. intros ch [<- | Hch]; auto.
Qed.

Lemma check_parents_sound st c (rest : list ChunkRef) : forall pre,
  check_parents st c (pre ++ rest) rest (Z.of_nat (List.length pre)) = Normal tt ->
  NoDup pre ->
  NoDup (pre ++ rest) /\ (forall p, In p rest -> In c (chunks_of st p)).
Proof.
  induction rest as [| p rest IH]; intros pre Hck Hnd; simpl in *.
  - rewrite app_nil_r. split; [assumption | intros ch []].
  - destruct (JsArray.indexOf Nat.eq_dec p (pre ++ p :: rest)
              =? Z.of_nat (List.length pre))%Z eqn:Ei; simpl in Hck; [| discriminate].
    destruct (JsArray.indexOf Nat.eq_dec c (chunks_of st p) <? 0)%Z eqn:Ec;
      simpl in Hck; [discriminate|].
    apply Z.eqb_eq in Ei.
    assert (Hc : In c (chunks_of st p)).
    { destruct (in_dec Nat.eq_dec c (chunks_of st p)) as [H | H]; [exact H|].
      unfold JsArray.indexOf in Ec. rewrite index_from_absent in Ec by assumption.
      discriminate. }
    assert (Hn : ~ In p pre).
    { intros Hin. pose proof (index_from_lt p pre (p :: rest) 0 Hin) as Hlt.
      unfold JsArray.indexOf, ChunkRef in *. rewrite Ei in Hlt. lia. }
    replace (Z.of_nat (List.length pre) + 1)%Z
      with (Z.of_nat (List.length (pre ++ [p]))) in Hck
      by (rewrite length_app; simpl; lia).
    replace (pre ++ p :: rest) with ((pre ++ [p]) ++ rest) in *
      by (rewrite <- app_assoc; reflexivity).
    destruct (IH (pre ++ [p]) Hck) as [I1 I2].
    + apply NoDup_app; auto.
      * constructor; [intros [] | constructor].
      * intros y Hy [<- | []]. contradiction.
    + split; [assumption|]. intros q [<- | Hq]; auto.
Qed.
End CheckConverse.

(** X5.  [checkConstraints()] returns on a chunk exactly when its child
    set and its parent set hold no value twice, every child lists the chunk
    as a parent and every parent lists it as a child.  In every other store
    it raises.  (An edge from the chunk to itself does not make it raise.) *)
Theorem checkConstraints_returns_iff (st : Store) (c : ChunkRef) :
  Chunk.checkConstraints st c = Normal tt
  <-> (NoDup (chunks_of st c)
       /\ (forall child, In child (chunks_of st c) -> In c (parents_of st child))
       /\ NoDup (parents_of st c)
       /\ (forall p, In p (parents_of st c) -> In c (chunks_of st p))).
Proof.
  unfold Chunk.checkConstraints. cbv zeta. split.
  - intros H.
    destruct (Chunk.check_children st c (chunks_of st c) (chunks_of st c) 0) as [[]|e] eqn:Ec;
      [| discriminate].
    destruct (@check_children_sound st c (chunks_of st c) [] Ec) as [N1 B1];
      [constructor|].
    destruct (@check_parents_sound st c (parents_of st c) [] H) as [N2 B2];
      [constructor|].
    simpl in *. tauto.
  - intros (N1 & B1 & N2 & B2).
    pose proof (@check_children_ok st c (chunks_of st c) [] N1 B1) as Ec.
    simpl in Ec. rewrite Ec.
    exact (@check_parents_ok st c (parents_of st c) [] N2 B2).
Qed.

Lemma checkConstraints_returns_iff_witness :
  Chunk.checkConstraints Examples.chain 1 = Normal tt
  /\ NoDup (chunks_of Examples.chain 1)
  /\ (forall p, In p (parents_of Examples.chain 1) -> In 1 (chunks_of Examples.chain p)).
Proof.
  assert (H : Chunk.checkConstraints Examples.chain 1 = Normal tt) by reflexivity.
  split; [exact H|].
  destruct (proj1 (checkConstraints_returns_iff Examples.chain 1) H) as (N1 & _ & _ & B2).
  split; assumption.
Defined.

(** ** What a successful [integrate] leaves behind *)

Section IntegrateResult.
Import Spec Chunk Collaborators.

Lemma fold_left_keeps (A T : Type) (g : Store -> T) (f : Store -> A -> Store)
    (l : list A) :
  (forall s x, g (f s x) = g s) -> forall st, g (fold_left f l st) = g st.
Proof.
  intros Hf. induction l as [| x l IH]; intros st; simpl; auto.
  rewrite IH. apply Hf.
Qed.

Lemma no_members_nil (A : Type) (l : list A) : (forall y, ~ In y l) -> l = [].
Proof.
  destruct l as [| x l]; [reflexivity|]. intros H. exfalso. apply (H x). now left.
Qed.

Lemma modules_write_modules a l st c :
  modules_of (write_modules a l st) c = if c =? a then l else modules_of st c.
Proof. store_crush. Qed.

Lemma blocks_write_blocks a l st c :
  blocks_of (write_blocks a l st) c = if c =? a then l else blocks_of st c.
Proof. store_crush. Qed.

Lemma modules_addChunk a b st c : modules_of (snd (addChunk a b st)) c = modules_of st c.
Proof. unfold addChunk. destruct (set_has _ _); simpl; store_crush. Qed.

Lemma modules_addParent a b st c : modules_of (snd (addParent a b st)) c = modules_of st c.
Proof. unfold addParent. destruct (set_has _ _); simpl; store_crush. Qed.

Lemma modules_write_chunks a l st c : modules_of (write_chunks a l st) c = modules_of st c.
Proof. store_crush. Qed.

Lemma modules_write_parents a l st c : modules_of (write_parents a l st) c = modules_of st c.
Proof. store_crush. Qed.

Lemma modules_replaceChunk p o n st c :
  modules_of (replaceChunk p o n st) c = modules_of st c.
Proof.
  unfold replaceChunk. destruct (negb (p =? n)); [| apply modules_write_chunks].
  pose proof (modules_addParent n p (write_chunks p (set_delete o (chunks_of st p)) st) c) as H.
  destruct (addParent n p _) as [added st2]. simpl in H.
  destruct added; [rewrite modules_addChunk|]; rewrite H; apply modules_write_chunks.
Qed.

Lemma modules_replaceParentChunk p o n st c :
  modules_of (replaceParentChunk p o n st) c = modules_of st c.
Proof.
  unfold replaceParentChunk. destruct (negb (p =? n)); [| apply modules_write_parents].
  pose proof (modules_addChunk n p (write_parents p (set_delete o (parents_of st p)) st) c) as H.
  destruct (addChunk n p _) as [added st2]. simpl in H.
  destruct added; [rewrite modules_addParent|]; rewrite H; apply modules_write_parents.
Qed.

Lemma modules_integrate_block_step a b r s blk c :
  modules_of (integrate_block_step a b r s blk) c = modules_of s c.
Proof.
  unfold integrate_block_step, addBlock. destruct (_ <? _)%Z; simpl; store_crush.
Qed.

Lemma modules_integrate_origin_step r s o c :
  modules_of (integrate_origin_step r s o) c = modules_of s c.
Proof.
  unfold integrate_origin_step.
  destruct (OriginObj.reasons (origin s o)) as [[| r0 rs]|];
    try destruct (string_dec r0 r); reflexivity.
Qed.

(** The steps of [integrate] after the module loop leave every chunk's
    modules alone. *)
Lemma modules_after_module_step self other reason st c :
  modules_of
    (integrate_cleanup self other
       (integrate_origins self other reason
          (integrate_blocks self other reason
             (integrate_children self other (integrate_parents self other st))))) c
  = modules_of st c.
Proof.
  unfold integrate_cleanup. cbv zeta.
  rewrite !modules_write_parents, !modules_write_chunks.
  unfold integrate_origins.
  rewrite (fold_left_keeps (fun s => modules_of s c))
    by (intros s o; apply modules_integrate_origin_step).
  replace (modules_of (write_origins self _ _) c)
    with (modules_of (integrate_blocks self other reason
                        (integrate_children self other
                           (integrate_parents self other st))) c)
    by store_crush.
  unfold integrate_blocks.
  replace (modules_of (write_blocks other [] _) c)
    with (modules_of (fold_left (integrate_block_step self other reason)
                        (blocks_of (integrate_children self other
                                      (integrate_parents self other st)) other)
                        (integrate_children self other
                           (integrate_parents self other st))) c)
    by store_crush.
  rewrite (fold_left_keeps (fun s => modules_of s c))
    by (intros s o; apply modules_integrate_block_step).
  unfold integrate_children. rewrite modules_write_chunks.
  rewrite (fold_left_keeps (fun s => modules_of s c))
    by (intros s o; apply modules_replaceParentChunk).
  unfold integrate_parents. rewrite modules_write_parents.
  rewrite (fold_left_keeps (fun s => modules_of s c))
    by (intros s o; apply modules_replaceChunk).
  reflexivity.
Qed.

(** One round of the module loop puts the module into the receiver. *)
Lemma modules_moveModule other m self s c :
  modules_of (moveModule other m self s) c =
    if c =? self then set_add m (modules_of s self) else modules_of s c.
Proof.
  unfold moveModule, addModule.
  set (s2 := Module_addChunk m self (Module_removeChunk m other s)).
  assert (E : forall x, modules_of s2 x = modules_of s x).
  { intros x. subst s2. unfold Module_addChunk.
    destruct (JsSet.has _ _ _); reflexivity. }
  rewrite (E self).
  destruct (set_has m (modules_of s self)) eqn:Eh; simpl.
  - rewrite E. destruct (Nat.eqb_spec c self) as [-> | Hn]; [| reflexivity].
    unfold set_add, JsSet.add. unfold set_has in Eh. now rewrite Eh.
  - rewrite modules_write_modules.
    destruct (Nat.eqb_spec c self); [reflexivity | apply E].
Qed.

Lemma modules_module_loop other self (l : list ModuleRef) : forall s c,
  modules_of (fold_left (fun s m => moveModule other m self s) l s) c =
    if c =? self then JsSet.add_all Nat.eq_dec l (modules_of s self)
    else modules_of s c.
Proof.
  induction l as [| m l IH]; intros s c; simpl.
  - destruct (Nat.eqb_spec c self); subst; reflexivity.
  - rewrite IH. rewrite !modules_moveModule, Nat.eqb_refl.
    destruct (Nat.eqb_spec c self); reflexivity.
Qed.

Lemma blocks_integrate_origin_step r s o c :
  blocks_of (integrate_origin_step r s o) c = blocks_of s c.
Proof.
  unfold integrate_origin_step.
  destruct (OriginObj.reasons (origin s o)) as [[| r0 rs]|];
    try destruct (string_dec r0 r); reflexivity.
Qed.

Lemma blocks_integrate_origins self other reason st c :
  blocks_of (integrate_origins self other reason st) c = blocks_of st c.
Proof.
  unfold integrate_origins.
  rewrite (fold_left_keeps (fun s => blocks_of s c))
    by (intros s o; apply blocks_integrate_origin_step).
  store_crush.
Qed.
End IntegrateResult.

(** X6.  After a successful [integrate(other, reason)] the chunk merged
    away holds no modules, no children and no blocks, and - when the graph was
    symmetric before - no parents; and the receiver has neither itself nor
    [other] among its children or parents. *)
Theorem integrate_empties_other (st : Store) (self other : ChunkRef) (reason : Reason) :
  Chunk.canBeIntegrated st self other = true ->
  let st' := snd (Chunk.integrate self other reason st) in
  modules_of st' other = []
  /\ chunks_of st' other = []
  /\ blocks_of st' other = []
  /\ (Spec.symmetric st -> parents_of st' other = [])
  /\ ~ In self (chunks_of st' self) /\ ~ In self (parents_of st' self)
  /\ ~ In other (chunks_of st' self) /\ ~ In other (parents_of st' self).
Proof.
  intros Hc st'. subst st'. unfold Chunk.integrate. rewrite Hc.
  cbv beta iota zeta delta [negb snd].
  set (st1 := Chunk.integrate_modules self other st).
  set (st2 := Chunk.integrate_parents self other st1).
  set (st3 := Chunk.integrate_children self other st2).
  set (st4 := Chunk.integrate_blocks self other reason st3).
  set (st5 := Chunk.integrate_origins self other reason st4).
  assert (E35 : Spec.same_edges st3 st5).
  { eapply same_edges_trans;
      [apply same_edges_integrate_blocks | apply same_edges_integrate_origins]. }
  assert (Hcl : forall x y,
             (Spec.child_edge (Chunk.integrate_cleanup self other st5) x y
              <-> Spec.child_edge st3 x y /\ ~ (x = self /\ y = other)
                  /\ ~ (x = self /\ y = self))
             /\ (Spec.parent_edge (Chunk.integrate_cleanup self other st5) x y
                 <-> Spec.parent_edge st3 x y /\ ~ (x = other /\ y = self)
                     /\ ~ (x = self /\ y = self))).
  { intros x y. destruct (integrate_cleanup_edges self other st5 x y) as [A B].
    rewrite A, B, (same_edges_child x y E35), (same_edges_parent x y E35). tauto. }
  unfold Spec.child_edge, Spec.parent_edge in Hcl.
  assert (C3 : chunks_of st3 other = []).
  { subst st3. unfold Chunk.integrate_children.
    now rewrite chunks_write_chunks, Nat.eqb_refl. }
  split.
  { subst st5 st4 st3 st2. rewrite modules_after_module_step.
    subst st1. unfold Chunk.integrate_modules.
    now rewrite modules_write_modules, Nat.eqb_refl. }
  split.
  { apply no_members_nil. intros y Hy. apply (proj1 (Hcl other y)) in Hy.
    rewrite C3 in Hy. destruct Hy as [[] _]. }
  split.
  { destruct (same_records_integrate_cleanup self other st5) as (_ & _ & Hb & _).
    rewrite Hb. subst st5. rewrite blocks_integrate_origins.
    subst st4. unfold Chunk.integrate_blocks.
    now rewrite blocks_write_blocks, Nat.eqb_refl. }
  split.
  { intros Hs. apply no_members_nil. intros a Ha.
    apply (proj2 (Hcl a other)) in Ha. destruct Ha as [Ha _].
    assert (B1 : Spec.backed [] st1).
    { eapply same_edges_backed; [apply same_edges_integrate_modules|].
      now apply symmetric_backed. }
    destruct (@backed_integrate_parents [] self other st1 B1) as (B2 & Np & Nc).
    destruct (@backed_integrate_children [] self other _ B2 Np Nc) as (_ & _ & Np3).
    apply (Np3 (fun F => F) a). exact Ha. }
  split; [intros H; apply (proj1 (Hcl self self)) in H; tauto|].
  split; [intros H; apply (proj2 (Hcl self self)) in H; tauto|].
  split; [intros H; apply (proj1 (Hcl self other)) in H; tauto|].
  intros H; apply (proj2 (Hcl other self)) in H; tauto.
Qed.

Lemma integrate_empties_other_witness :
  Chunk.canBeIntegrated Examples.chain 0 1 = true
  /\ (let st' := snd (Chunk.integrate 0 1 "merged"%string Examples.chain) in
      modules_of st' 1 = []
      /\ chunks_of st' 1 = []
      /\ blocks_of st' 1 = []
      /\ (Spec.symmetric Examples.chain -> parents_of st' 1 = [])
      /\ ~ In 0 (chunks_of st' 0) /\ ~ In 0 (parents_of st' 0)
      /\ ~ In 1 (chunks_of st' 0) /\ ~ In 1 (parents_of st' 0)).
Proof.
  split; [reflexivity|].
  exact (@integrate_empties_other Examples.chain 0 1 "merged"%string eq_refl).
Defined.

(** X7.  A successful [integrate(other, reason)] into a different chunk
    leaves the receiver with its own modules followed by those modules of
    [other] it did not have, each once: a module is in the receiver afterwards
    exactly when it was in the receiver or in [other] before. *)
Theorem integrate_unites_modules (st : Store) (self other : ChunkRef) (reason : Reason) :
  Chunk.canBeIntegrated st self other = true ->
  self <> other ->
  let st' := snd (Chunk.integrate self other reason st) in
  modules_of st' self = JsSet.add_all Nat.eq_dec (modules_of st other) (modules_of st self)
  /\ (forall m, In m (modules_of st' self)
                <-> In m (modules_of st self) \/ In m (modules_of st other))
  /\ (NoDup (modules_of st self) -> NoDup (modules_of st' self)).
Proof.
  intros Hc Hne st'.
  assert (E : modules_of st' self
              = JsSet.add_all Nat.eq_dec (modules_of st other) (modules_of st self)).
  { subst st'. unfold Chunk.integrate. rewrite Hc.
    cbv beta iota zeta delta [negb snd].
    rewrite modules_after_module_step.
    unfold Chunk.integrate_modules. rewrite modules_write_modules.
    destruct (Nat.eqb_spec self other) as [E | _]; [congruence|].
    rewrite modules_module_loop. now rewrite Nat.eqb_refl. }
  split; [exact E|]. rewrite E. clear E st'.
  generalize (modules_of st self) as acc. generalize (modules_of st other) as l.
  induction l as [| m l IH]; intros acc; simpl.
  - split; [intros x; tauto | auto].
  - destruct (IH (JsSet.add Nat.eq_dec m acc)) as [I1 I2]. split.
    + intros x. rewrite I1, add_In. split; intros H.
      * destruct H as [[H | ->] | H]; auto.
      * destruct H as [H | [-> | H]]; auto.
    + intros Hn. apply I2. now apply add_NoDup.
Qed.

Lemma integrate_unites_modules_witness :
  Chunk.canBeIntegrated Scenario.st 0 1 = true
  /\ 0 <> 1
  /\ modules_of (snd (Chunk.integrate 0 1 "merged"%string Scenario.st)) 0
     = JsSet.add_all Nat.eq_dec (modules_of Scenario.st 1) (modules_of Scenario.st 0).
Proof.
  assert (Hn : 0 <> 1) by discriminate.
  split; [reflexivity|]. split; [exact Hn|].
  exact (proj1 (@integrate_unites_modules Scenario.st 0 1 "merged"%string eq_refl Hn)).
Defined.

Section IntegrateBlocks.
Import Spec Chunk.
Variables self other : ChunkRef.
Variable reason : Reason.

Lemma subst_idem (cs : list ChunkRef) :
  map (fun c => if c =? other then self else c)
      (map (fun c => if c =? other then self else c) cs)
  = map (fun c => if c =? other then self else c) cs.
Proof.
  rewrite map_map. apply map_ext. intros c.
  destruct (Nat.eqb_spec c other) as [-> | Hc].
  - destruct (Nat.eqb_spec self other); congruence.
  - destruct (Nat.eqb_spec c other); congruence.
Qed.

Lemma integrate_block_step_block s b0 b :
  block (integrate_block_step self other reason s b0) b =
    if b =? b0 then
      {| BlockObj.blocks := BlockObj.blocks (block s b0);
         BlockObj.parent := BlockObj.parent (block s b0);
         BlockObj.identifier := BlockObj.identifier (block s b0);
         BlockObj.chunks :=
           Some (match BlockObj.chunks (block s b0) with
                 | Some l => map (fun c => if c =? other then self else c) l
                 | None => [self]
                 end);
         BlockObj.chunkReason := Some reason |}
    else block s b.
Proof.
  unfold integrate_block_step, addBlock.
  destruct (_ <? _)%Z; simpl; store_crush.
Qed.

Lemma integrate_block_step_blocks_of s b0 :
  In b0 (blocks_of (integrate_block_step self other reason s b0) self)
  /\ (forall c b, In b (blocks_of s c) ->
                  In b (blocks_of (integrate_block_step self other reason s b0) c)).
Proof.
  unfold integrate_block_step, addBlock.
  set (s2 := write_block_chunkReason b0 (Some reason) _).
  assert (E : forall c, blocks_of s2 c = blocks_of s c) by (intros c; reflexivity).
  destruct (-1 <? JsArray.indexOf Nat.eq_dec b0 (blocks_of s2 self))%Z eqn:Ei; simpl.
  - split; [| intros c b Hb; now rewrite E].
    rewrite E in *. destruct (in_dec Nat.eq_dec b0 (blocks_of s self)) as [H | H]; auto.
    unfold JsArray.indexOf in Ei. rewrite index_from_absent in Ei by assumption.
    discriminate.
  - split.
    + rewrite blocks_write_blocks, Nat.eqb_refl. apply in_or_app. right. now left.
    + intros c b Hb. rewrite blocks_write_blocks.
      destruct (Nat.eqb_spec c self) as [-> | Hn]; [| now rewrite E].
      apply in_or_app. left. now rewrite E.
Qed.

Lemma integrate_block_loop_block b (l : list BlockRef) : forall s,
  (In b l ->
     BlockObj.chunks (block (fold_left (integrate_block_step self other reason) l s) b)
       = Some (match BlockObj.chunks (block s b) with
               | Some cs => map (fun c => if c =? other then self else c) cs
               | None => [self]
               end)
     /\ BlockObj.chunkReason
          (block (fold_left (integrate_block_step self other reason) l s) b)
        = Some reason)
  /\ (~ In b l ->
        block (fold_left (integrate_block_step self other reason) l s) b = block s b).
Proof.
  induction l as [| b0 l IH]; intros s; simpl.
  - split; [intros [] | reflexivity].
  - destruct (IH (integrate_block_step self other reason s b0)) as [I1 I2].
    pose proof (integrate_block_step_block s b0 b) as Eb.
    destruct (Nat.eqb_spec b b0) as [<- | Hne].
    + split; [| intros H; exfalso; apply H; now left].
      intros _. destruct (in_dec Nat.eq_dec b l) as [Hl | Hl].
      * destruct (I1 Hl) as [J1 J2]. split; [| exact J2].
        rewrite J1, Eb. simpl. f_equal.
        destruct (BlockObj.chunks (block s b)) as [cs|].
        -- apply subst_idem.
        -- simpl. destruct (Nat.eqb_spec self other); congruence.
      * rewrite (I2 Hl), Eb. simpl. split; reflexivity.
    + rewrite Eb in I1, I2. split.
      * intros [E | Hl]; [congruence | exact (I1 Hl)].
      * intros H. apply I2. tauto.
Qed.

Lemma integrate_block_loop_blocks_of (l : list BlockRef) : forall s,
  (forall b, In b l ->
     In b (blocks_of (fold_left (integrate_block_step self other reason) l s) self))
  /\ (forall c b, In b (blocks_of s c) ->
        In b (blocks_of (fold_left (integrate_block_step self other reason) l s) c)).
Proof.
  induction l as [| b0 l IH]; intros s; simpl.
  - split; [intros b [] | auto].
  - destruct (IH (integrate_block_step self other reason s b0)) as [I1 I2].
    destruct (integrate_block_step_blocks_of s b0) as [S1 S2]. split.
    + intros b [<- | Hb]; [apply I2; exact S1 | now apply I1].
    + intros c b Hb. apply I2. now apply S2.
Qed.
End IntegrateBlocks.

(** X8.  A successful [integrate(other, reason)] rewrites every block of
    [other]: its chunk list is the old list with [other] replaced by the
    receiver ([[this]] when it was [null]), its [chunkReason] is [reason],
    and - when the two chunks differ - the block is among the receiver's
    blocks and [other] is gone from its chunk list.  A block that [other] did
    not hold is left as it was. *)
Theorem integrate_reassigns_blocks
    (st : Store) (self other : ChunkRef) (reason : Reason) :
  Chunk.canBeIntegrated st self other = true ->
  let st' := snd (Chunk.integrate self other reason st) in
  (forall b, In b (blocks_of st other) ->
     BlockObj.chunks (block st' b)
       = Some (match BlockObj.chunks (block st b) with
               | Some cs => map (fun c => if c =? other then self else c) cs
               | None => [self]
               end)
     /\ BlockObj.chunkReason (block st' b) = Some reason
     /\ (self <> other ->
           In b (blocks_of st' self)
           /\ forall cs, BlockObj.chunks (block st' b) = Some cs -> ~ In other cs))
  /\ (forall b, ~ In b (blocks_of st other) -> block st' b = block st b).
Proof.
  intros Hc st'. subst st'. unfold Chunk.integrate. rewrite Hc.
  cbv beta iota zeta delta [negb snd].
  set (st3 := Chunk.integrate_children self other
                (Chunk.integrate_parents self other
                   (Chunk.integrate_modules self other st))).
  assert (R3 : Spec.same_records st st3).
  { eapply same_records_trans; [apply same_records_integrate_modules|].
    eapply same_records_trans;
      [apply same_records_integrate_parents | apply same_records_integrate_children]. }
  destruct R3 as (Rb & _ & Rl & _ & _).
  set (st4 := Chunk.integrate_blocks self other reason st3).
  set (st5 := Chunk.integrate_origins self other reason st4).
  assert (B5 : forall b, block (Chunk.integrate_cleanup self other st5) b = block st4 b).
  { intros b.
    rewrite (same_records_blocks (same_records_integrate_cleanup self other st5) b).
    apply same_blocks_integrate_origins. }
  assert (L5 : forall c, blocks_of (Chunk.integrate_cleanup self other st5) c
                         = blocks_of st4 c).
  { intros c.
    destruct (same_records_integrate_cleanup self other st5) as (_ & _ & Hb & _).
    rewrite Hb. apply blocks_integrate_origins. }
  assert (B4 : forall b, block st4 b
                         = block (fold_left (Chunk.integrate_block_step self other reason)
                                    (blocks_of st other) st3) b).
  { intros b. subst st4. unfold Chunk.integrate_blocks. rewrite Rl. reflexivity. }
  split.
  - intros b Hb.
    destruct (integrate_block_loop_block self other reason b (blocks_of st other) st3)
      as [I1 _].
    destruct (I1 Hb) as [J1 J2]. rewrite Rb in J1.
    rewrite B5, B4. split; [exact J1|]. split; [exact J2|].
    intros Hne. split.
    + rewrite L5. subst st4. unfold Chunk.integrate_blocks.
      rewrite blocks_write_blocks. destruct (Nat.eqb_spec self other); [congruence|].
      rewrite Rl.
      apply (proj1 (integrate_block_loop_blocks_of self other reason
                      (blocks_of st other) st3)). exact Hb.
    + intros cs Hcs. rewrite J1 in Hcs. inversion Hcs; subst cs. clear Hcs.
      destruct (BlockObj.chunks (block st b)) as [l|].
      * intros Hin. apply in_map_iff in Hin. destruct Hin as (c & Ec & _).
        destruct (Nat.eqb_spec c other); congruence.
      * intros [E | []]. congruence.
  - intros b Hb. rewrite B5, B4.
    rewrite (proj2 (integrate_block_loop_block self other reason b
                      (blocks_of st other) st3) Hb).
    apply Rb.
Qed.

Lemma integrate_reassigns_blocks_witness :
  Chunk.canBeIntegrated MoreExamples.with_block 0 1 = true
  /\ In 5 (blocks_of MoreExamples.with_block 1)
  /\ 0 <> 1
  /\ BlockObj.chunks
       (block (snd (Chunk.integrate 0 1 "merged"%string MoreExamples.with_block)) 5)
     = Some (match BlockObj.chunks (block MoreExamples.with_block 5) with
             | Some cs => map (fun c => if c =? 1 then 0 else c) cs
             | None => [0]
             end)
  /\ In 5 (blocks_of (snd (Chunk.integrate 0 1 "merged"%string MoreExamples.with_block)) 0).
Proof.
  assert (Hb : In 5 (blocks_of MoreExamples.with_block 1)) by (vm_compute; auto).
  assert (Hn : 0 <> 1) by discriminate.
  split; [reflexivity|]. split; [exact Hb|]. split; [exact Hn|].
  pose proof (proj1 (@integrate_reassigns_blocks MoreExamples.with_block 0 1
                       "merged"%string eq_refl) 5 Hb) as (H1 & _ & H3).
  split; [exact H1 | exact (proj1 (H3 Hn))].
Defined.

(** ** split *)

Section SplitFacts.
Import Spec Chunk Collaborators.
Variable n : ChunkRef.

Lemma split_child_loop (l : list ChunkRef) : forall s x y,
  (child_edge (fold_left (split_child_step n) l s) x y
     <-> child_edge s x y \/ (x = n /\ In y l))
  /\ (parent_edge (fold_left (split_child_step n) l s) x y
     <-> parent_edge s x y \/ (x = n /\ In y l)).
Proof.
  induction l as [| c l IH]; intros s x y; simpl.
  - split; tauto.
  - destruct (IH (split_child_step n s c) x y) as [I1 I2].
    rewrite I1, I2. unfold split_child_step.
    rewrite addParent_child, addChunk_child, addParent_parent, addChunk_parent.
    assert (Hy : y = c <-> c = y) by (split; congruence).
    tauto.
Qed.

Lemma split_parent_loop (l : list ChunkRef) : forall s x y,
  (child_edge (fold_left (split_parent_step n) l s) x y
     <-> child_edge s x y \/ (In x l /\ y = n))
  /\ (parent_edge (fold_left (split_parent_step n) l s) x y
     <-> parent_edge s x y \/ (In x l /\ y = n)).
Proof.
  induction l as [| p l IH]; intros s x y; simpl.
  - split; tauto.
  - destruct (IH (split_parent_step n s p) x y) as [I1 I2].
    rewrite I1, I2. unfold split_parent_step.
    rewrite addParent_child, addChunk_child, addParent_parent, addChunk_parent.
    assert (Hx : x = p <-> p = x) by (split; congruence).
    tauto.
Qed.

(** The two edge loops of [split]. *)
Lemma split_edges_spec self s x y :
  (child_edge (split_edges self n s) x y
     <-> child_edge s x y \/ (x = n /\ child_edge s self y)
         \/ (y = n /\ (parent_edge s x self \/ (x = n /\ child_edge s self self))))
  /\ (parent_edge (split_edges self n s) x y
     <-> parent_edge s x y \/ (x = n /\ child_edge s self y)
         \/ (y = n /\ (parent_edge s x self \/ (x = n /\ child_edge s self self)))).
Proof.
  unfold split_edges. cbv zeta.
  set (s1 := fold_left (split_child_step n) (chunks_of s self) s).
  destruct (split_parent_loop (parents_of s1 self) s1 x y) as [C2 P2].
  rewrite C2, P2.
  destruct (split_child_loop (chunks_of s self) s x y) as [C1 P1].
  fold s1 in C1, P1. rewrite C1, P1.
  destruct (split_child_loop (chunks_of s self) s x self) as [_ P1'].
  fold s1 in P1'. fold (parent_edge s1 x self). rewrite P1'.
  unfold child_edge, parent_edge. tauto.
Qed.

Lemma split_block_loop_ok (l : list BlockRef) : forall s,
  (forall b, In b l -> BlockObj.chunks (block s b) <> None) ->
  snd (forEach (split_block_step n) l s) = Normal tt.
Proof.
  induction l as [| b l IH]; intros s H; simpl; [reflexivity|].
  unfold split_block_step at 1.
  set (s1 := write_blocks n (blocks_of s n ++ [b]) s).
  assert (Eb : forall x, block s1 x = block s x) by (intros x; reflexivity).
  destruct (BlockObj.chunks (block s1 b)) as [cs|] eqn:Ec.
  - apply IH. intros b' Hb'.
    replace (BlockObj.chunks (block (write_block_chunks b (Some (cs ++ [n])) s1) b'))
      with (if b' =? b then Some (cs ++ [n]) else BlockObj.chunks (block s b'))
      by store_crush.
    destruct (b' =? b); [discriminate|]. apply H. now right.
  - exfalso. rewrite Eb in Ec. apply (H b); [now left | exact Ec].
Qed.

Lemma split_block_loop_null (l : list BlockRef) : forall s b,
  In b l -> BlockObj.chunks (block s b) = None ->
  snd (forEach (split_block_step n) l s) = Throw TypeError
  /\ List.length (blocks_of s n)
     < List.length (blocks_of (fst (forEach (split_block_step n) l s)) n).
Proof.
  induction l as [| b0 l IH]; intros s b Hin Hnull; simpl; [destruct Hin|].
  unfold split_block_step at 1 3.
  set (s1 := write_blocks n (blocks_of s n ++ [b0]) s).
  assert (Eb : forall x, block s1 x = block s x) by (intros x; reflexivity).
  assert (El : List.length (blocks_of s1 n) = S (List.length (blocks_of s n))).
  { subst s1. rewrite blocks_write_blocks, Nat.eqb_refl, length_app. simpl. lia. }
  destruct (BlockObj.chunks (block s1 b0)) as [cs|] eqn:Ec; simpl.
  - set (s2 := write_block_chunks b0 (Some (cs ++ [n])) s1).
    assert (Hb : b <> b0).
    { intros ->. rewrite Eb in Ec. congruence. }
    destruct (IH s2 b) as [I1 I2].
    + destruct Hin as [E | Hin]; [congruence | exact Hin].
    + subst s2. replace (block (write_block_chunks b0 (Some (cs ++ [n])) s1) b)
        with (block s b) by store_crush. exact Hnull.
    + split; [exact I1|].
      assert (E2 : blocks_of s2 n = blocks_of s1 n) by reflexivity.
      rewrite E2 in I2. lia.
  - split; [reflexivity | lia].
Qed.
End SplitFacts.

(** X9.  [split(newChunk)], when every block of the receiver has a chunk
    list, gets past its block loop and copies the receiver's position: every
    child of the receiver becomes a child of [newChunk] and lists [newChunk]
    as a parent, every parent of the receiver lists [newChunk] as a child and
    becomes a parent of [newChunk].  No edge is lost, and every new edge has
    [newChunk] at one end. *)
Theorem split_copies_edges
    (insertChunk : EntryRef -> ChunkRef -> ChunkRef ->
                   Collaborators.EntrySide -> option Collaborators.EntrySide)
    (st : Store) (self newChunk : ChunkRef) :
  (forall b, In b (blocks_of st self) -> BlockObj.chunks (block st b) <> None) ->
  let st' := fst (Chunk.split insertChunk self newChunk st) in
  snd (Chunk.split insertChunk self newChunk st) <> Throw TypeError
  /\ (forall c, In c (chunks_of st self) ->
        In c (chunks_of st' newChunk) /\ In newChunk (parents_of st' c))
  /\ (forall p, In p (parents_of st self) ->
        In newChunk (chunks_of st' p) /\ In p (parents_of st' newChunk))
  /\ (forall x y, In y (chunks_of st x) -> In y (chunks_of st' x))
  /\ (forall x y, In x (parents_of st y) -> In x (parents_of st' y))
  /\ (forall x y, In y (chunks_of st' x) ->
        In y (chunks_of st x) \/ x = newChunk \/ y = newChunk)
  /\ (forall x y, In x (parents_of st' y) ->
        In x (parents_of st y) \/ x = newChunk \/ y = newChunk).
Proof.
  intros Hb st'. subst st'. unfold Chunk.split.
  pose proof (@split_block_loop_ok newChunk (blocks_of st self) st Hb) as Hok.
  pose proof (same_edges_forEach (Chunk.split_block_step newChunk) (blocks_of st self)
                (same_edges_split_block_step newChunk) st) as He.
  destruct (Chunk.forEach (Chunk.split_block_step newChunk) (blocks_of st self) st)
    as [st1 [u | e]]; simpl in Hok, He; [| discriminate].
  set (st2 := Chunk.split_edges self newChunk st1).
  pose proof (same_edges_forEach (Chunk.split_entry_step insertChunk self newChunk)
                (entrypoints_of st2 self)
                (same_edges_split_entry_step insertChunk self newChunk) st2) as He2.
  assert (Ht : snd (Chunk.forEach (Chunk.split_entry_step insertChunk self newChunk)
                      (entrypoints_of st2 self) st2) <> Throw TypeError).
  { generalize (entrypoints_of st2 self) as l. generalize st2 as s.
    intros s l. revert s. induction l as [| e l IH]; intros s; simpl; [discriminate|].
    unfold Chunk.split_entry_step at 1.
    destruct (insertChunk e newChunk self (Collaborators.entrySide s)); simpl.
    - apply IH.
    - discriminate. }
  split; [exact Ht|].
  set (st3 := fst (Chunk.forEach _ (entrypoints_of st2 self) st2)) in *.
  assert (C : forall x y, Spec.child_edge st3 x y
              <-> Spec.child_edge st x y \/ (x = newChunk /\ Spec.child_edge st self y)
                  \/ (y = newChunk /\ (Spec.parent_edge st x self
                                       \/ (x = newChunk /\ Spec.child_edge st self self)))).
  { intros x y. rewrite (same_edges_child x y He2).
    destruct (split_edges_spec newChunk self st1 x y) as [SC _]. fold st2 in SC.
    rewrite SC.
    rewrite !(same_edges_child _ _ He), !(same_edges_parent _ _ He). reflexivity. }
  assert (P : forall x y, Spec.parent_edge st3 x y
              <-> Spec.parent_edge st x y \/ (x = newChunk /\ Spec.child_edge st self y)
                  \/ (y = newChunk /\ (Spec.parent_edge st x self
                                       \/ (x = newChunk /\ Spec.child_edge st self self)))).
  { intros x y. rewrite (same_edges_parent x y He2).
    destruct (split_edges_spec newChunk self st1 x y) as [_ SP]. fold st2 in SP.
    rewrite SP.
    rewrite !(same_edges_child _ _ He), !(same_edges_parent _ _ He). reflexivity. }
  unfold Spec.child_edge, Spec.parent_edge in C, P.
  split; [intros c Hc; split; [apply C | apply P]; tauto|].
  split; [intros p Hp; split; [apply C | apply P]; tauto|].
  split; [intros x y H; apply C; tauto|].
  split; [intros x y H; apply P; tauto|].
  split; [intros x y H; apply C in H; tauto|].
  intros x y H; apply P in H; tauto.
Qed.

Lemma split_copies_edges_witness :
  (forall b, In b (blocks_of MoreExamples.with_block 1) ->
     BlockObj.chunks (block MoreExamples.with_block b) <> None)
  /\ (let st' := fst (Chunk.split Examples.insertChunk_idle 1 3 MoreExamples.with_block) in
      (forall c, In c (chunks_of MoreExamples.with_block 1) ->
         In c (chunks_of st' 3) /\ In 3 (parents_of st' c))
      /\ (forall p, In p (parents_of MoreExamples.with_block 1) ->
            In 3 (chunks_of st' p) /\ In p (parents_of st' 3))).
Proof.
  assert (H : forall b, In b (blocks_of MoreExamples.with_block 1) ->
                BlockObj.chunks (block MoreExamples.with_block b) <> None).
  { intros b Hb. vm_compute in Hb. destruct Hb as [<- | []]. vm_compute. discriminate. }
  split; [exact H|].
  pose proof (@split_copies_edges Examples.insertChunk_idle MoreExamples.with_block 1 3 H)
    as (_ & H1 & H2 & _).
  split; [exact H1 | exact H2].
Defined.

(** X10.  [split(newChunk)] on a chunk one of whose blocks has no chunk
    list raises a TypeError in its block loop.  No edge of any chunk has
    changed by then, but [newChunk.blocks] has already grown: the failed call
    is not rolled back. *)
Theorem split_raises_on_null_block
    (insertChunk : EntryRef -> ChunkRef -> ChunkRef ->
                   Collaborators.EntrySide -> option Collaborators.EntrySide)
    (st : Store) (self newChunk : ChunkRef) (b : BlockRef) :
  In b (blocks_of st self) -> BlockObj.chunks (block st b) = None ->
  let st' := fst (Chunk.split insertChunk self newChunk st) in
  snd (Chunk.split insertChunk self newChunk st) = Throw TypeError
  /\ (forall x, chunks_of st' x = chunks_of st x)
  /\ (forall x, parents_of st' x = parents_of st x)
  /\ List.length (blocks_of st newChunk) < List.length (blocks_of st' newChunk).
Proof.
  intros Hin Hnull st'. subst st'. unfold Chunk.split.
  destruct (@split_block_loop_null newChunk (blocks_of st self) st b Hin Hnull) as [H1 H2].
  pose proof (same_edges_forEach (Chunk.split_block_step newChunk) (blocks_of st self)
                (same_edges_split_block_step newChunk) st) as [Hc Hp].
  destruct (Chunk.forEach (Chunk.split_block_step newChunk) (blocks_of st self) st)
    as [st1 [u | e]]; simpl in *; [discriminate|].
  inversion H1; subst e. auto.
Qed.

Lemma split_raises_on_null_block_witness :
  In 5 (blocks_of MoreExamples.with_null_block 1)
  /\ BlockObj.chunks (block MoreExamples.with_null_block 5) = None
  /\ snd (Chunk.split Examples.insertChunk_idle 1 3 MoreExamples.with_null_block)
     = Throw TypeError.
Proof.
  assert (H1 : In 5 (blocks_of MoreExamples.with_null_block 1)) by (vm_compute; auto).
  split; [exact H1|]. split; [reflexivity|].
  exact (proj1 (@split_raises_on_null_block Examples.insertChunk_idle
                  MoreExamples.with_null_block 1 3 5 H1 eq_refl)).
Defined.

(** ** The block loop of [remove] *)

Section RemoveBlocks.
Import Spec Chunk.
Variable self : ChunkRef.
Variable reason : Reason.

Lemma remove_block_step_other s b0 b :
  b <> b0 -> block (fst (remove_block_step self reason s b0)) b = block s b.
Proof.
  intros Hn. unfold remove_block_step.
  destruct (BlockObj.chunks (block s b0)) as [cs|]; simpl; [| reflexivity].
  destruct (0 <=? _)%Z; simpl; [| reflexivity].
  destruct (JsArray.splice_first Nat.eq_dec self cs); simpl; store_crush.
Qed.

Lemma remove_block_step_blocks_of s b0 c :
  blocks_of (fst (remove_block_step self reason s b0)) c = blocks_of s c.
Proof.
  unfold remove_block_step.
  destruct (BlockObj.chunks (block s b0)) as [cs|]; simpl; [| reflexivity].
  destruct (0 <=? _)%Z; simpl; [| reflexivity].
  destruct (JsArray.splice_first Nat.eq_dec self cs); reflexivity.
Qed.

Lemma remove_block_step_local s1 s b :
  block s1 b = block s b ->
  block (fst (remove_block_step self reason s1 b)) b
  = block (fst (remove_block_step self reason s b)) b.
Proof.
  intros H. unfold remove_block_step. rewrite H.
  destruct (BlockObj.chunks (block s b)) as [cs|]; simpl; [| exact H].
  destruct (0 <=? _)%Z; simpl; [| exact H].
  destruct (JsArray.splice_first Nat.eq_dec self cs); simpl;
    store_unfold; rewrite !Nat.eqb_refl; simpl; now rewrite H.
Qed.

Lemma remove_block_loop_other (l : list BlockRef) : forall s b,
  ~ In b l -> block (fst (forEach (remove_block_step self reason) l s)) b = block s b.
Proof.
  induction l as [| b0 l IH]; intros s b Hn; simpl; [reflexivity|].
  pose proof (@remove_block_step_other s b0 b) as Hs.
  destruct (remove_block_step self reason s b0) as [s1 [u | e]]; simpl in *.
  - rewrite IH by tauto. apply Hs. intros ->. tauto.
  - apply Hs. intros ->. tauto.
Qed.

Lemma remove_block_loop_blocks_of (l : list BlockRef) : forall s c,
  blocks_of (fst (forEach (remove_block_step self reason) l s)) c = blocks_of s c.
Proof.
  induction l as [| b0 l IH]; intros s c; simpl; [reflexivity|].
  pose proof (remove_block_step_blocks_of s b0 c) as Hs.
  destruct (remove_block_step self reason s b0) as [s1 [u | e]]; simpl in *.
  - now rewrite IH.
  - exact Hs.
Qed.

Lemma remove_block_loop_null (l : list BlockRef) : forall s b,
  In b l -> BlockObj.chunks (block s b) = None ->
  snd (forEach (remove_block_step self reason) l s) = Throw TypeError.
Proof.
  induction l as [| b0 l IH]; intros s b Hin Hnull; simpl; [destruct Hin|].
  destruct (Nat.eq_dec b b0) as [<- | Hne].
  - unfold remove_block_step. rewrite Hnull. reflexivity.
  - pose proof (@remove_block_step_other s b0 b Hne) as Hs.
    assert (Hk : snd (remove_block_step self reason s b0) = Throw TypeError
                 \/ snd (remove_block_step self reason s b0) = Normal tt).
    { unfold remove_block_step.
      destruct (BlockObj.chunks (block s b0)) as [cs|]; simpl; [| now left].
      destruct (0 <=? _)%Z; simpl; [| now right].
      destruct (JsArray.splice_first Nat.eq_dec self cs); simpl; now right. }
    destruct (remove_block_step self reason s b0) as [s1 [u | e]]; simpl in *.
    + apply IH with (b := b); [destruct Hin; congruence | now rewrite Hs].
    + destruct Hk as [Hk | Hk]; congruence.
Qed.

Lemma remove_block_loop_ok (l : list BlockRef) : forall s,
  NoDup l -> (forall b, In b l -> BlockObj.chunks (block s b) <> None) ->
  snd (forEach (remove_block_step self reason) l s) = Normal tt
  /\ (forall b, In b l ->
        block (fst (forEach (remove_block_step self reason) l s)) b
        = block (fst (remove_block_step self reason s b)) b).
Proof.
  induction l as [| b0 l IH]; intros s Hnd Hl; simpl.
  - split; [reflexivity | intros b []].
  - inversion Hnd as [| ? ? Hn0 Hnd']; subst.
    assert (Hk : snd (remove_block_step self reason s b0) = Normal tt).
    { unfold remove_block_step.
      destruct (BlockObj.chunks (block s b0)) as [cs|] eqn:E; simpl.
      - destruct (0 <=? _)%Z; simpl; [| reflexivity].
        destruct (JsArray.splice_first Nat.eq_dec self cs); reflexivity.
      - exfalso. apply (Hl b0); [now left | exact E]. }
    pose proof (fun b => @remove_block_step_other s b0 b) as Hs.
    destruct (remove_block_step self reason s b0) as [s1 [u | e]] eqn:Estep;
      simpl in *; [| discriminate].
    destruct (IH s1 Hnd') as [I1 I2].
    { intros b Hb. rewrite Hs by (intros ->; contradiction). apply Hl. now right. }
    split; [exact I1|].
    intros b [<- | Hb].
    + rewrite remove_block_loop_other by assumption. now rewrite Estep.
    + rewrite (I2 b Hb).
      assert (Hne : b <> b0) by (intros ->; contradiction).
      apply remove_block_step_local. now apply Hs.
Qed.

Lemma remove_block_loop_emptied (l : list BlockRef) : forall s b,
  snd (forEach (remove_block_step self reason) l s) = Normal tt ->
  In b l -> BlockObj.chunks (block s b) = Some [self] ->
  BlockObj.chunks (block (fst (forEach (remove_block_step self reason) l s)) b) = None.
Proof.
  induction l as [| b0 l IH]; intros s b Hok Hin Hcs; simpl in *; [destruct Hin|].
  destruct (Nat.eq_dec b b0) as [<- | Hne].
  - assert (E : remove_block_step self reason s b
                = (write_block_chunkReason b (Some reason) (write_block_chunks b None s),
                   Normal tt)).
    { unfold remove_block_step. rewrite Hcs. unfold JsArray.indexOf. simpl.
      destruct (Nat.eq_dec self self); [reflexivity | congruence]. }
    rewrite E in *. simpl in *.
    set (s1 := write_block_chunkReason b (Some reason) (write_block_chunks b None s)) in *.
    assert (Hnull : BlockObj.chunks (block s1 b) = None).
    { subst s1. store_unfold. now rewrite !Nat.eqb_refl. }
    destruct (in_dec Nat.eq_dec b l) as [Hl | Hl].
    + rewrite (remove_block_loop_null l s1 b Hl Hnull) in Hok. discriminate.
    + now rewrite remove_block_loop_other.
  - pose proof (@remove_block_step_other s b0 b Hne) as Hs.
    destruct (remove_block_step self reason s b0) as [s1 [u | e]]; simpl in *;
      [| discriminate].
    apply IH; [exact Hok | destruct Hin; congruence | now rewrite Hs].
Qed.

Lemma splice_first_NoDup (cs : list ChunkRef) :
  NoDup cs -> ~ In self (JsArray.splice_first Nat.eq_dec self cs).
Proof.
  induction 1 as [| y cs Hy Hnd IH]; simpl; [tauto|].
  destruct (Nat.eq_dec self y) as [-> | Hne]; [exact Hy|].
  intros [E | Hin]; [congruence | tauto].
Qed.

Lemma indexOf_nonneg_iff (x : nat) (l : list nat) :
  (0 <=? JsArray.indexOf Nat.eq_dec x l)%Z = true <-> In x l.
Proof.
  unfold JsArray.indexOf. split.
  - intros H. destruct (in_dec Nat.eq_dec x l) as [Hin | Hn]; [exact Hin|].
    rewrite index_from_absent in H by assumption. discriminate.
  - intros Hin. pose proof (@index_from_In x l 0%Z Hin (Z.le_refl 0)) as H.
    apply Z.ltb_ge in H. now apply Z.leb_le.
Qed.
End RemoveBlocks.

(** X11.  [remove] does not bear being called twice.  When a block of the
    chunk lists that chunk alone and the first [remove(reason)] returns, the
    block's chunk list has become [null] while the chunk still holds the
    block, and a second [remove] on the same chunk raises a TypeError. *)
Theorem remove_twice_raises
    (st : Store) (self : ChunkRef) (reason reason' : Reason) (b : BlockRef) :
  In b (blocks_of st self) ->
  BlockObj.chunks (block st b) = Some [self] ->
  snd (Chunk.remove self reason st) = Normal tt ->
  let st' := fst (Chunk.remove self reason st) in
  BlockObj.chunks (block st' b) = None
  /\ In b (blocks_of st' self)
  /\ snd (Chunk.remove self reason' st') = Throw TypeError.
Proof.
  intros Hin Hcs Hok st'.
  assert (Frame : forall s,
            Spec.same_records s (Chunk.remove_edges self (Chunk.remove_modules self s))).
  { intros s. eapply same_records_trans;
      [apply same_records_remove_modules | apply same_records_remove_edges]. }
  destruct (Frame st) as (Rb & _ & Rl & _).
  assert (Hnull : BlockObj.chunks (block st' b) = None).
  { subst st'. unfold Chunk.remove in *. cbv zeta in *.
    apply remove_block_loop_emptied; [exact Hok | now rewrite Rl | now rewrite Rb]. }
  assert (Hin' : In b (blocks_of st' self)).
  { subst st'. unfold Chunk.remove. cbv zeta.
    rewrite remove_block_loop_blocks_of. now rewrite Rl. }
  split; [exact Hnull|]. split; [exact Hin'|].
  destruct (Frame st') as (Rb' & _ & Rl' & _).
  unfold Chunk.remove. cbv zeta.
  apply remove_block_loop_null with (b := b); [now rewrite Rl' | now rewrite Rb'].
Qed.

Lemma remove_twice_raises_witness :
  In 5 (blocks_of MoreExamples.with_block 1)
  /\ BlockObj.chunks (block MoreExamples.with_block 5) = Some [1]
  /\ snd (Chunk.remove 1 "first"%string MoreExamples.with_block) = Normal tt
  /\ snd (Chunk.remove 1 "second"%string
            (fst (Chunk.remove 1 "first"%string MoreExamples.with_block)))
     = Throw TypeError.
Proof.
  assert (H1 : In 5 (blocks_of MoreExamples.with_block 1)) by (vm_compute; auto).
  split; [exact H1|]. split; [reflexivity|]. split; [reflexivity|].
  exact (proj2 (proj2 (@remove_twice_raises MoreExamples.with_block 1 "first"%string
                         "second"%string 5 H1 eq_refl eq_refl))).
Defined.

(** X12.  [remove(reason)] on a chunk whose blocks are all different and
    all have a chunk list returns normally.  A block of the chunk that lists
    the chunk then has its first occurrence spliced out: if nothing is left
    the list becomes [null] and [chunkReason] is [reason], otherwise the rest
    stays, and no longer holds the chunk when the list had no duplicates.  A
    block of the chunk that does not list it, and every block the chunk does
    not hold, is left as it was. *)
Theorem remove_cleans_blocks (st : Store) (self : ChunkRef) (reason : Reason) :
  NoDup (blocks_of st self) ->
  (forall b, In b (blocks_of st self) -> BlockObj.chunks (block st b) <> None) ->
  let st' := fst (Chunk.remove self reason st) in
  snd (Chunk.remove self reason st) = Normal tt
  /\ (forall b cs, In b (blocks_of st self) ->
        BlockObj.chunks (block st b) = Some cs ->
        (~ In self cs -> block st' b = block st b)
        /\ (In self cs -> JsArray.splice_first Nat.eq_dec self cs = [] ->
              BlockObj.chunks (block st' b) = None
              /\ BlockObj.chunkReason (block st' b) = Some reason)
        /\ (In self cs -> JsArray.splice_first Nat.eq_dec self cs <> [] ->
              BlockObj.chunks (block st' b)
                = Some (JsArray.splice_first Nat.eq_dec self cs)
              /\ (NoDup cs -> ~ In self (JsArray.splice_first Nat.eq_dec self cs))))
  /\ (forall b, ~ In b (blocks_of st self) -> block st' b = block st b).
Proof.
  intros Hnd Hl st'. subst st'. unfold Chunk.remove. cbv zeta.
  set (st2 := Chunk.remove_edges self (Chunk.remove_modules self st)).
  assert (R : Spec.same_records st st2).
  { eapply same_records_trans;
      [apply same_records_remove_modules | apply same_records_remove_edges]. }
  destruct R as (Rb & _ & Rl & _).
  rewrite Rl.
  destruct (@remove_block_loop_ok self reason (blocks_of st self) st2 Hnd) as [Hok Hb].
  { intros b Hin. rewrite Rb. now apply Hl. }
  split; [exact Hok|]. split.
  - intros b cs Hin Hcs. rewrite (Hb b Hin).
    unfold Chunk.remove_block_step. rewrite Rb, Hcs.
    destruct (0 <=? JsArray.indexOf Nat.eq_dec self cs)%Z eqn:Ei.
    + apply indexOf_nonneg_iff in Ei. split; [tauto|].
      destruct (JsArray.splice_first Nat.eq_dec self cs) as [| c cs'] eqn:Es; simpl.
      * split; [| intros _ F; congruence]. intros _ _.
        store_unfold. rewrite !Nat.eqb_refl. simpl. split; reflexivity.
      * split; [intros _ F; discriminate|]. intros _ _. split.
        -- store_unfold. rewrite !Nat.eqb_refl. reflexivity.
        -- intros Hn. pose proof (@splice_first_NoDup self cs Hn) as HN.
           rewrite Es in HN. exact HN.
    + assert (Hn : ~ In self cs).
      { intros H. apply indexOf_nonneg_iff in H. congruence. }
      simpl. split; [intros _; apply Rb|]. split; intros H; contradiction.
  - intros b Hn. rewrite remove_block_loop_other by assumption. apply Rb.
Qed.

Lemma remove_cleans_blocks_witness :
  NoDup (blocks_of MoreExamples.with_block 1)
  /\ (forall b, In b (blocks_of MoreExamples.with_block 1) ->
        BlockObj.chunks (block MoreExamples.with_block b) <> None)
  /\ snd (Chunk.remove 1 "gone"%string MoreExamples.with_block) = Normal tt.
Proof.
  assert (H1 : NoDup (blocks_of MoreExamples.with_block 1)).
  { vm_compute. repeat constructor. intros []. }
  assert (H2 : forall b, In b (blocks_of MoreExamples.with_block 1) ->
                 BlockObj.chunks (block MoreExamples.with_block b) <> None).
  { intros b Hb. vm_compute in Hb. destruct Hb as [<- | []]. vm_compute. discriminate. }
  split; [exact H1|]. split; [exact H2|].
  exact (proj1 (@remove_cleans_blocks MoreExamples.with_block 1 "gone"%string H1 H2)).
Defined.

(** ** The cost model on chunks outside every entrypoint *)

Section CostMore.
Import Chunk.

Lemma filtered_sum_le (f : ModuleRef -> Z) (p : ModuleRef -> bool) (l : list ModuleRef) :
  (forall m, In m l -> (0 <= f m)%Z) ->
  (fold_right Z.add 0 (map f (filter p l)) <= fold_right Z.add 0 (map f l))%Z.
Proof.
  induction l as [| m l IH]; intros H; simpl; [lia|].
  assert (H0 : (0 <= f m)%Z) by (apply H; now left).
  assert (IH' : (fold_right Z.add 0 (map f (filter p l)) <= fold_right Z.add 0 (map f l))%Z).
  { apply IH. intros x Hx. apply H. now right. }
  destruct (p m); simpl; lia.
Qed.

Lemma sum_nonneg (f : ModuleRef -> Z) (l : list ModuleRef) :
  (forall m, In m l -> (0 <= f m)%Z) ->
  (0 <= fold_right Z.add 0 (map f l))%Z.
Proof.
  induction l as [| m l IH]; intros H; simpl; [lia|].
  assert (H0 : (0 <= f m)%Z) by (apply H; now left).
  assert (IH' : (0 <= fold_right Z.add 0 (map f l))%Z).
  { apply IH. intros x Hx. apply H. now right. }
  lia.
Qed.

Lemma filter_all (A : Type) (p : A -> bool) (l : list A) :
  (forall x, In x l -> p x = true) -> filter p l = l.
Proof.
  induction l as [| x l IH]; intros H; simpl; [reflexivity|].
  rewrite (H x) by now left. f_equal. apply IH. intros y Hy. apply H. now right.
Qed.
End CostMore.

(** X13.  Where the code's arithmetic is exact - [chunkOverhead] a
    non-negative integer or absent, the module sizes of both chunks
    non-negative integers, and the two chunks' [size]s together at most
    2^53 - the following holds for two chunks outside every entrypoint:
    [integratedSize] is a number, and it is at most the two chunks' [size]s
    together less one chunk overhead, so merging saves the overhead at
    least.  When the two chunks share no module it is exactly that.
    (Outside that range, with a fractional [chunkOverhead] say, the sums
    round and the comparison can fail.) *)
Theorem integratedSize_saves_overhead
    (st : Store) (self other : ChunkRef) (options : Chunk.Options) :
  Chunk.isInitial st self = false -> Chunk.isInitial st other = false ->
  (forall m, In m (modules_of st self) -> (0 <= ModuleObj.size (module st m))%Z) ->
  (forall m, In m (modules_of st other) -> (0 <= ModuleObj.size (module st m))%Z) ->
  let overhead := match Chunk.chunkOverhead options with
                  | Some n => n
                  | None => 10000%Z
                  end in
  (0 <= overhead)%Z ->
  (Chunk.size st self options + Chunk.size st other options <= 2 ^ 53)%Z ->
  exists z,
    Chunk.integratedSize st self other options = Some z
    /\ (0 <= z <= 2 ^ 53)%Z
    /\ (z <= Chunk.size st self options + Chunk.size st other options - overhead)%Z
    /\ ((forall m, In m (modules_of st other) -> ~ In m (modules_of st self)) ->
        z = (Chunk.size st self options + Chunk.size st other options - overhead)%Z).
Proof.
  intros Hs Ho Hpos1 Hpos overhead Hov Hbound.
  assert (Hc : Chunk.canBeIntegrated st self other = true).
  { unfold Chunk.canBeIntegrated. now rewrite Ho, Hs. }
  unfold Chunk.integratedSize. rewrite Hc. cbv zeta. simpl negb. cbv iota.
  rewrite integrated_fold. eexists. split; [reflexivity|].
  revert Hbound.
  unfold Chunk.size, Chunk.addMultiplierAndOverhead. rewrite Hs, Ho.
  fold overhead. rewrite (modulesSize_sum st other), (modulesSize_sum st self).
  set (S1 := fold_right Z.add 0%Z
               (map (fun m => ModuleObj.size (module st m)) (modules_of st self))).
  set (F := fold_right Z.add 0%Z
              (map (fun m => ModuleObj.size (module st m))
                 (filter (fun m => negb (Chunk.set_has m (modules_of st self)))
                    (modules_of st other)))).
  set (S2 := fold_right Z.add 0%Z
               (map (fun m => ModuleObj.size (module st m)) (modules_of st other))).
  intros Hbound.
  assert (Hle : (F <= S2)%Z) by (apply filtered_sum_le; exact Hpos).
  assert (H1 : (0 <= S1)%Z) by (apply sum_nonneg; exact Hpos1).
  assert (HF : (0 <= F)%Z).
  { apply sum_nonneg. intros m Hm. apply filter_In in Hm. now apply Hpos. }
  split; [lia|]. split; [lia|].
  intros Hdis.
  assert (HF' : F = S2).
  { unfold F. rewrite filter_all; [reflexivity|].
    intros m Hm. apply negb_true_iff. apply set_has_false. now apply Hdis. }
  lia.
Qed.

Lemma integratedSize_saves_overhead_witness :
  Chunk.isInitial MoreExamples.shared_module 1 = false
  /\ Chunk.isInitial MoreExamples.shared_module 2 = false
  /\ (forall m, In m (modules_of MoreExamples.shared_module 1) ->
        (0 <= ModuleObj.size (module MoreExamples.shared_module m))%Z)
  /\ (forall m, In m (modules_of MoreExamples.shared_module 2) ->
        (0 <= ModuleObj.size (module MoreExamples.shared_module m))%Z)
  /\ (Chunk.size MoreExamples.shared_module 1%nat Scenario.options
      + Chunk.size MoreExamples.shared_module 2%nat Scenario.options <= 2 ^ 53)%Z
  /\ exists z,
       Chunk.integratedSize MoreExamples.shared_module 1 2 Scenario.options = Some z
       /\ (z <= Chunk.size MoreExamples.shared_module 1%nat Scenario.options
                + Chunk.size MoreExamples.shared_module 2%nat Scenario.options - 10000)%Z.
Proof.
  assert (H1 : forall m, In m (modules_of MoreExamples.shared_module 1) ->
                 (0 <= ModuleObj.size (module MoreExamples.shared_module m))%Z).
  { intros m Hm. vm_compute in Hm. destruct Hm as [<- | [<- | []]]; vm_compute; discriminate. }
  assert (H2 : forall m, In m (modules_of MoreExamples.shared_module 2) ->
                 (0 <= ModuleObj.size (module MoreExamples.shared_module m))%Z).
  { intros m Hm. vm_compute in Hm. destruct Hm as [<- | [<- | []]]; vm_compute; discriminate. }
  assert (Hb : (Chunk.size MoreExamples.shared_module 1%nat Scenario.options
                + Chunk.size MoreExamples.shared_module 2%nat Scenario.options <= 2 ^ 53)%Z).
  { vm_compute. discriminate. }
  assert (Hov : (0 <= 10000)%Z) by lia.
  split; [reflexivity|]. split; [reflexivity|]. split; [exact H1|]. split; [exact H2|].
  split; [exact Hb|].
  destruct (@integratedSize_saves_overhead MoreExamples.shared_module 1 2 Scenario.options
              eq_refl eq_refl H1 H2 Hov Hb) as (z & Hz & _ & Hle & _).
  exists z. split; [exact Hz | exact Hle].
Defined.

(** X14.  A chunk that has the runtime is initial, and such a chunk is
    never merged away: with it as argument [canBeIntegrated] is false,
    [integratedSize] gives the "not mergeable" value and [integrate] returns
    false and leaves the store as it is. *)
Theorem runtime_chunk_is_never_merged
    (st : Store) (self other : ChunkRef) (reason : Reason) (options : Chunk.Options) :
  ChunkQueries.hasRuntime st other = true ->
  Chunk.isInitial st other = true
  /\ Chunk.canBeIntegrated st self other = false
  /\ Chunk.integratedSize st self other options = None
  /\ Chunk.integrate self other reason st = (false, st).
Proof.
  intros Hr.
  assert (Hi : Chunk.isInitial st other = true).
  { unfold ChunkQueries.hasRuntime in Hr. unfold Chunk.isInitial.
    destruct (entrypoints_of st other); [discriminate | reflexivity]. }
  assert (Hc : Chunk.canBeIntegrated st self other = false).
  { unfold Chunk.canBeIntegrated. now rewrite Hi. }
  split; [exact Hi|]. split; [exact Hc|].
  unfold Chunk.integratedSize, Chunk.integrate. rewrite Hc. simpl. split; reflexivity.
Qed.

Lemma runtime_chunk_is_never_merged_witness :
  ChunkQueries.hasRuntime Scenario.st 0 = true
  /\ Chunk.canBeIntegrated Scenario.st 1 0 = false
  /\ Chunk.integrate 1 0 "merged"%string Scenario.st = (false, Scenario.st).
Proof.
  split; [reflexivity|].
  pose proof (@runtime_chunk_is_never_merged Scenario.st 1 0 "merged"%string
                Scenario.options eq_refl) as (_ & H2 & _ & H4).
  split; [exact H2 | exact H4].
Defined.

(** ** The remembered comparator of a SortableSet *)

Section SortableSetRuns.
Variable A : Type.
Variable eq_dec : forall x y : A, {x = y} + {x <> y}.
Variable cs : list (SortableSet.Comparator A).
Hypothesis cs_lawful : SetTrace.lawful_family cs.

Let cache_sound := SetTrace.cache_sound cs.

Lemma StronglySorted_remove (R : A -> A -> Prop) (v : A) (l : list A) :
  StronglySorted R l -> StronglySorted R (remove eq_dec v l).
Proof.
  induction 1 as [| x l Hs IH Hall]; simpl; [constructor|].
  destruct (eq_dec v x); [exact IH|].
  constructor; [exact IH|].
  apply Forall_forall. intros y Hy. apply in_remove in Hy.
  rewrite Forall_forall in Hall. apply Hall. tauto.
Qed.

Lemma StronglySorted_ext (R R' : A -> A -> Prop) (l : list A) :
  (forall a b, R a b -> R' a b) -> StronglySorted R l -> StronglySorted R' l.
Proof.
  intros HR. induction 1 as [| x l Hs IH Hall]; constructor; auto.
  eapply Forall_impl; [| exact Hall]. intros y. apply HR.
Qed.

Lemma array_sort_strongly (f : A -> A -> Z) (l : list A) :
  SetTrace.lawful f ->
  StronglySorted (Spec.cmp_le f) (fst (SortableSet.array_sort f l)).
Proof.
  intros [Hc Ht]. apply Sorted_StronglySorted.
  - intros a b c. apply Ht.
  - now apply array_sort_sorted.
Qed.

Lemma sortWith_sound (f : SortableSet.Comparator A) (s : SortableSet.t A) :
  In f cs -> cache_sound s ->
  let s' := fst (SortableSet.sortWith eq_dec f s) in
  cache_sound s'
  /\ StronglySorted (Spec.cmp_le (SortableSet.fn_call f)) (SortableSet.elements s')
  /\ Permutation (SortableSet.elements s) (SortableSet.elements s').
Proof.
  intros Hf (Hnd & Hd & Hlast) s'.
  destruct (negb (SortableSet.noCache s)
            && ((SortableSet.size s =? 0) || SortableSet.is_last f s)) eqn:Hc.
  - assert (Es : s' = s).
    { subst s'. unfold SortableSet.sortWith. now rewrite Hc. }
    rewrite Es. split; [exact (conj Hnd (conj Hd Hlast))|]. split; [|apply Permutation_refl].
    apply andb_true_iff in Hc. destruct Hc as [_ Hc].
    apply orb_true_iff in Hc. destruct Hc as [Hz | Hl].
    + apply Nat.eqb_eq in Hz. unfold SortableSet.size in Hz.
      apply length_zero_iff_nil in Hz. rewrite Hz. constructor.
    + unfold SortableSet.is_last in Hl.
      destruct (SortableSet._lastActiveSortFn s) as [g|] eqn:Hg; [|discriminate].
      destruct (Hlast g eq_refl) as [Hgin Hsorted].
      unfold SortableSet.same_fn in Hl. apply Nat.eqb_eq in Hl.
      apply StronglySorted_ext with (R := Spec.cmp_le (SortableSet.fn_call g)); auto.
      intros a b. unfold Spec.cmp_le.
      now rewrite (proj2 cs_lawful f g Hf Hgin Hl a b).
  - subst s'. rewrite (sortWith_miss eq_dec f s Hc Hnd). simpl.
    pose proof (array_sort_perm (SortableSet.fn_call f) (SortableSet.elements s)) as Hp.
    pose proof (@array_sort_strongly (SortableSet.fn_call f) (SortableSet.elements s)
                  (proj1 cs_lawful f Hf)) as Hs.
    split; [|split; assumption].
    unfold cache_sound, SetTrace.cache_sound. simpl.
    split; [eapply Permutation_NoDup; eauto|]. split; [exact Hd|].
    intros g Hg. inversion Hg; subst g. now split.
Qed.

Lemma step_sound (o : SetTrace.Op A) (s : SortableSet.t A) :
  incl (SetTrace.comparators [o]) cs ->
  cache_sound s -> cache_sound (SetTrace.step eq_dec o s).
Proof.
  intros Ho Hs. pose proof Hs as (Hnd & Hd & Hlast).
  unfold cache_sound, SetTrace.cache_sound.
  destruct o as [v | v | | f |]; simpl.
  - split; [now apply add_NoDup|]. split; [exact Hd|]. intros g Hg. discriminate.
  - split; [now apply delete_NoDup|]. split; [exact Hd|].
    intros g Hg. destruct (Hlast g Hg) as [Hin Hsorted]. split; [exact Hin|].
    now apply StronglySorted_remove.
  - split; [constructor|]. split; [exact Hd|].
    intros g Hg. destruct (Hlast g Hg) as [Hin _]. split; [exact Hin | constructor].
  - apply sortWith_sound; [|exact Hs]. apply Ho. simpl. now left.
  - unfold SortableSet.sort. apply sortWith_sound; [exact Hd | exact Hs].
Qed.

Lemma run_sound (ops : list (SetTrace.Op A)) (s : SortableSet.t A) :
  incl (SetTrace.comparators ops) cs ->
  cache_sound s -> cache_sound (SetTrace.run eq_dec ops s).
Proof.
  revert s. induction ops as [| o ops IH]; intros s Ho Hs; simpl; [exact Hs|].
  apply IH.
  - intros g Hg. apply Ho. unfold SetTrace.comparators in *. simpl.
    apply in_or_app. now right.
  - apply step_sound; [|exact Hs].
    intros g Hg. apply Ho. unfold SetTrace.comparators in *. simpl in *.
    rewrite app_nil_r in Hg. apply in_or_app. now left.
Qed.
End SortableSetRuns.

(** X15.  The comparator cache of a SortableSet is sound for lawful
    comparators.  Take a set made by the constructor and any run of [add],
    [delete], [clear], [sortWith] and [sort] calls on it, all comparators
    involved being total preorders and determined by their reference.
    Whether the next [sortWith(f)] sorts or skips the work, afterwards the
    members are in the order of [f]; they are the members from before, each
    once. *)
Theorem sortWith_leaves_set_sorted
    (A : Type) (eq_dec : forall x y : A, {x = y} + {x <> y})
    (ops : list (SetTrace.Op A)) (initialIterable : list A)
    (defaultSort f : SortableSet.Comparator A) (noCache : bool) :
  SetTrace.lawful_family (f :: defaultSort :: SetTrace.comparators ops) ->
  let s := SetTrace.run eq_dec ops
             (SortableSet.make eq_dec initialIterable defaultSort noCache) in
  let s' := fst (SortableSet.sortWith eq_dec f s) in
  StronglySorted (Spec.cmp_le (SortableSet.fn_call f)) (SortableSet.elements s')
  /\ Permutation (SortableSet.elements s) (SortableSet.elements s')
  /\ NoDup (SortableSet.elements s').
Proof.
  intros Hfam s s'.
  set (cs := f :: defaultSort :: SetTrace.comparators ops) in *.
  assert (H0 : SetTrace.cache_sound cs (SortableSet.make eq_dec initialIterable defaultSort noCache)).
  { split; [apply make_NoDup|]. split; [simpl; right; now left|].
    intros g Hg. discriminate. }
  assert (Hs : SetTrace.cache_sound cs s).
  { apply run_sound; [exact Hfam | | exact H0].
    intros g Hg. right. now right. }
  destruct (@sortWith_sound A eq_dec cs Hfam f s (or_introl eq_refl) Hs)
    as ((Hnd & _) & Hsorted & Hperm).
  split; [exact Hsorted|]. split; [exact Hperm | exact Hnd].
Qed.

Lemma sortWith_leaves_set_sorted_witness :
  let ops := [SetTrace.Add 3%Z; SetTrace.Add 1%Z; SetTrace.Add 2%Z;
              SetTrace.SortWith Examples.ascending; SetTrace.Delete 2%Z] in
  SetTrace.lawful_family
    (Examples.ascending :: Examples.descending :: SetTrace.comparators ops)
  /\ StronglySorted (Spec.cmp_le (SortableSet.fn_call Examples.ascending))
       (SortableSet.elements
          (fst (SortableSet.sortWith Z.eq_dec Examples.ascending
                  (SetTrace.run Z.eq_dec ops
                     (SortableSet.make Z.eq_dec [] Examples.descending false))))).
Proof.
  intros ops.
  assert (H : SetTrace.lawful_family
                (Examples.ascending :: Examples.descending :: SetTrace.comparators ops)).
  { split.
    - intros g Hg. simpl in Hg.
      destruct Hg as [<- | [<- | [<- | []]]]; split;
        unfold Spec.cmp_consistent, Spec.cmp_le; simpl; intros; lia.
    - intros g h Hg Hh. simpl in Hg, Hh.
      destruct Hg as [<- | [<- | [<- | []]]];
        destruct Hh as [<- | [<- | [<- | []]]]; simpl; intros E a b;
        try reflexivity; discriminate. }
  split; [exact H|].
  exact (proj1 (@sortWith_leaves_set_sorted Z Z.eq_dec ops [] Examples.descending
                  Examples.ascending false H)).
Defined.

(** ** Block variables *)

Section VariableFacts.
Import BlockVariables.

Lemma matches_iff n e v : matches n e v = true <-> key v = (n, e).
Proof.
  unfold matches, key. rewrite andb_true_iff, !String.eqb_eq.
  split.
  - intros [H1 H2]. now rewrite H1, H2.
  - intros H. inversion H. split; reflexivity.
Qed.

Lemma existsb_matches n e vs :
  existsb (matches n e) vs = true <-> In (n, e) (map key vs).
Proof.
  rewrite existsb_exists, in_map_iff. split.
  - intros (v & Hv & Hm). exists v. split; [now apply matches_iff | exact Hv].
  - intros (v & Hk & Hv). exists v. split; [exact Hv | now apply matches_iff].
Qed.
End VariableFacts.

(** X16.  [addVariable] keeps the variables of a block distinct by
    (name, expression).  A call whose name and expression are already
    recorded changes nothing, whatever dependencies it brings: the first
    registration wins.  Any other call appends one variable, behind the
    ones there.  In both cases the pair is recorded afterwards and a
    repeated call is a no-op. *)
Theorem addVariable_keeps_keys_distinct
    (variables : list BlockVariables.DependenciesBlockVariable)
    (name expression : string) (dependencies : list nat) :
  NoDup (map BlockVariables.key variables) ->
  let variables' :=
    BlockVariables.addVariable variables name expression dependencies in
  NoDup (map BlockVariables.key variables')
  /\ In (name, expression) (map BlockVariables.key variables')
  /\ (In (name, expression) (map BlockVariables.key variables) ->
      variables' = variables)
  /\ (~ In (name, expression) (map BlockVariables.key variables) ->
      variables' =
        variables ++ [BlockVariables.mkVariable name expression dependencies])
  /\ (forall dependencies',
        BlockVariables.addVariable variables' name expression dependencies'
        = variables').
Proof.
  intros Hnd variables'.
  destruct (existsb (BlockVariables.matches name expression) variables) eqn:E.
  - assert (Ev : variables' = variables).
    { subst variables'. unfold BlockVariables.addVariable. now rewrite E. }
    rewrite Ev.
    pose proof (proj1 (existsb_matches name expression variables) E) as Hin.
    split; [exact Hnd|]. split; [exact Hin|]. split; [reflexivity|].
    split; [intros Hn; contradiction|].
    intros d'. unfold BlockVariables.addVariable. now rewrite E.
  - assert (Ev : variables' =
                 variables ++ [BlockVariables.mkVariable name expression dependencies]).
    { subst variables'. unfold BlockVariables.addVariable. now rewrite E. }
    rewrite Ev.
    assert (Hn : ~ In (name, expression) (map BlockVariables.key variables)).
    { intros Hin. apply existsb_matches in Hin. congruence. }
    assert (Hin' : In (name, expression)
                     (map BlockVariables.key
                        (variables ++ [BlockVariables.mkVariable name expression dependencies]))).
    { rewrite map_app. apply in_or_app. right. now left. }
    split.
    { rewrite map_app. simpl. apply NoDup_app; auto.
      - constructor; [intros [] | constructor].
      - intros x Hx [<- | []]. contradiction. }
    split; [exact Hin'|]. split; [intros Hin; contradiction|].
    split; [reflexivity|].
    intros d'. unfold BlockVariables.addVariable.
    apply existsb_matches in Hin'. now rewrite Hin'.
Qed.

Lemma addVariable_keeps_keys_distinct_witness :
  let vs := BlockVariables.addVariable [] "x" "e1" [] in
  NoDup (map BlockVariables.key vs)
  /\ BlockVariables.addVariable vs "x" "e1" [4] = vs
  /\ List.length (BlockVariables.addVariable vs "x" "e2" []) = 2.
Proof.
  intros vs.
  assert (H : NoDup (map BlockVariables.key vs)).
  { vm_compute. repeat constructor. intros []. }
  split; [exact H|].
  destruct (@addVariable_keeps_keys_distinct vs "x" "e1" [4] H) as (_ & _ & Hsame & _).
  split; [apply Hsame; vm_compute; now left | reflexivity].
Defined.

(** ** Star re-exports *)

Section HarmonyFacts.
Import HarmonyExportImportedSpecifierDependency.

Lemma index_from_sign (A : Type) (eq_dec : forall x y : A, {x = y} + {x <> y})
    (x : A) (l : list A) (i : Z) :
  (0 <= i)%Z ->
  (In x l -> (0 <= JsArray.index_from eq_dec i x l)%Z)
  /\ (~ In x l -> JsArray.index_from eq_dec i x l = (-1)%Z).
Proof.
  revert i. induction l as [| y l IH]; intros i Hi; simpl.
  - split; [contradiction | reflexivity].
  - destruct (eq_dec x y) as [-> | Hxy].
    + split; [intros _; exact Hi | intros Hn; exfalso; apply Hn; now left].
    + destruct (IH (i + 1)%Z ltac:(lia)) as [IH1 IH2]. split.
      * intros [-> | Hin]; [congruence | now apply IH1].
      * intros Hn. apply IH2. intros Hin. apply Hn. now right.
Qed.

Lemma index_of_absent (i : string) (l : list string) :
  (index_of i l <? 0)%Z = true <-> ~ In i l.
Proof.
  unfold index_of, JsArray.indexOf.
  destruct (@index_from_sign string string_dec i l 0%Z (Z.le_refl 0)) as [H1 H2].
  rewrite Z.ltb_lt. split.
  - intros Hlt Hin. specialize (H1 Hin). lia.
  - intros Hn. rewrite (H2 Hn). lia.
Qed.

Lemma index_of_present (i : string) (l : list string) :
  (0 <=? index_of i l)%Z = true <-> In i l.
Proof.
  unfold index_of, JsArray.indexOf.
  destruct (@index_from_sign string string_dec i l 0%Z (Z.le_refl 0)) as [H1 H2].
  rewrite Z.leb_le. split.
  - intros Hle. destruct (in_dec string_dec i l) as [Hin | Hn]; [exact Hin|].
    rewrite (H2 Hn) in Hle. lia.
  - exact H1.
Qed.

Lemma not_default_iff (i : string) :
  negb (is_default i) = true <-> i <> "default"%string.
Proof.
  unfold is_default. rewrite negb_true_iff. apply String.eqb_neq.
Qed.

Lemma star_exports_of (dep : t) :
  truthy (name dep) = false -> getExports dep = star_exports dep.
Proof.
  unfold getExports. destruct (name dep) as [n|]; [|reflexivity].
  intros H. now rewrite H.
Qed.

(** What [getReference] answers for a star re-export. *)
Lemma star_reference (used active : bool) (activeExports : list string)
    (dep : t) (r : Reference) (l : list string) :
  truthy (name dep) = false ->
  getReference used active activeExports dep = Some r ->
  importedNames r = Names l ->
  exists importedModule,
    importDependency_module dep = Some importedModule
    /\ module r = importedModule
    /\ ((exists used_, originModule_usedExports dep = Listed used_ /\
           forall i, In i l <->
             In i used_ /\ ~ In i activeExports /\ i <> "default"%string
             /\ (forall provided, providedExports importedModule = Listed provided ->
                   In i provided))
        \/ (originModule_usedExports dep = Truthy /\
            exists provided,
              providedExports importedModule = Listed provided
              /\ l = filter (fun i => negb (is_default i)) provided)).
Proof.
  intros Hname Href Hl. unfold getReference in Href.
  destruct (importDependency_module dep) as [im|]; [|discriminate].
  exists im. split; [reflexivity|].
  destruct (negb used || negb active); [discriminate|].
  rewrite Hname in Href. simpl in Href.
  destruct (originModule_usedExports dep) as [u | |] eqn:Eu; [| |discriminate].
  - destruct (providedExports im) as [p | |] eqn:Ep;
      inversion Href; subst r; simpl in Hl; inversion Hl; subst l;
      (split; [reflexivity|]); left; exists u; (split; [reflexivity|]);
      intros i; rewrite filter_In, ?andb_true_iff, ?index_of_absent,
                  ?index_of_present, not_default_iff.
    + split.
      * intros (Hu & (Ha & Hp) & Hd). repeat split; auto.
        intros p' Hp'. inversion Hp'; subst p'. exact Hp.
      * intros (Hu & Ha & Hd & Hp). repeat split; auto.
    + split.
      * intros (Hu & Ha & Hd). repeat split; auto. intros p' Hp'. discriminate.
      * intros (Hu & Ha & Hd & _). repeat split; auto.
    + split.
      * intros (Hu & Ha & Hd). repeat split; auto. intros p' Hp'. discriminate.
      * intros (Hu & Ha & Hd & _). repeat split; auto.
  - destruct (providedExports im) as [p | |] eqn:Ep;
      inversion Href; subst r; simpl in Hl; inversion Hl; subst l.
    split; [reflexivity|]. right. split; [reflexivity|]. exists p. now split.
Qed.
End HarmonyFacts.

(** X17.  A star re-export ([export * from ...], no [name]) never touches
    [default]: the names [getReference] asks of the imported module and the
    names [getExports] declares both leave it out.  When the used exports of
    the re-exporting module are known, [getReference] asks exactly for the
    used names that no other export of the module defines, that are not
    [default] and that the imported module provides (as far as its exports
    are known). *)
Theorem star_reexport_leaves_default_out
    (used active : bool) (activeExports : list string)
    (dep : HarmonyExportImportedSpecifierDependency.t) :
  HarmonyExportImportedSpecifierDependency.truthy
    (HarmonyExportImportedSpecifierDependency.name dep) = false ->
  (forall r l,
      HarmonyExportImportedSpecifierDependency.getReference used active activeExports dep
        = Some r ->
      HarmonyExportImportedSpecifierDependency.importedNames r
        = HarmonyExportImportedSpecifierDependency.Names l ->
      ~ In "default"%string l
      /\ (forall used_,
            HarmonyExportImportedSpecifierDependency.originModule_usedExports dep
              = HarmonyExportImportedSpecifierDependency.Listed used_ ->
            forall i, In i l <->
              In i used_ /\ ~ In i activeExports /\ i <> "default"%string
              /\ (forall provided,
                    HarmonyExportImportedSpecifierDependency.providedExports
                      (HarmonyExportImportedSpecifierDependency.module r)
                      = HarmonyExportImportedSpecifierDependency.Listed provided ->
                    In i provided)))
  /\ (forall l,
        HarmonyExportImportedSpecifierDependency.exports
          (HarmonyExportImportedSpecifierDependency.getExports dep)
          = HarmonyExportImportedSpecifierDependency.Listed l ->
        ~ In "default"%string l).
Proof.
  intros Hname. split.
  - intros r l Href Hl.
    destruct (@star_reference used active activeExports dep r l Hname Href Hl)
      as (im & Him & Hm & [(u & Hu & Hiff) | (Hu & p & Hp & El)]).
    + split.
      * intros Hd. apply Hiff in Hd. destruct Hd as (_ & _ & Hd & _). now apply Hd.
      * intros u' Hu'. rewrite Hu in Hu'. inversion Hu'; subst u'.
        rewrite Hm. exact Hiff.
    + split.
      * rewrite El. intros Hd. apply filter_In in Hd. destruct Hd as [_ Hd].
        apply not_default_iff in Hd. now apply Hd.
      * intros u' Hu'. rewrite Hu in Hu'. discriminate.
  - intros l Hl. rewrite (star_exports_of dep Hname) in Hl.
    unfold HarmonyExportImportedSpecifierDependency.star_exports in Hl.
    destruct (HarmonyExportImportedSpecifierDependency.importDependency_module dep)
      as [im|]; [|discriminate].
    destruct (HarmonyExportImportedSpecifierDependency.providedExports im)
      as [p | |]; simpl in Hl; try discriminate.
    inversion Hl; subst l. intros Hd. apply filter_In in Hd. destruct Hd as [_ Hd].
    apply not_default_iff in Hd. now apply Hd.
Qed.

Lemma star_reexport_leaves_default_out_witness :
  HarmonyExportImportedSpecifierDependency.truthy
    (HarmonyExportImportedSpecifierDependency.name HarmonyExamples.star) = false
  /\ (exists r,
        HarmonyExportImportedSpecifierDependency.getReference true true ["c"%string]
          HarmonyExamples.star = Some r
        /\ HarmonyExportImportedSpecifierDependency.importedNames r
           = HarmonyExportImportedSpecifierDependency.Names ["a"%string]
        /\ ~ In "default"%string ["a"%string]).
Proof.
  split; [reflexivity|].
  eexists. split; [reflexivity|]. split; [reflexivity|].
  exact (proj1 (proj1 (@star_reexport_leaves_default_out true true ["c"%string]
                         HarmonyExamples.star eq_refl) _ _ eq_refl eq_refl)).
Defined.

(** X18.  A star re-export asks the imported module only for names it
    declares as its own exports: whenever [getReference] gives a list of
    names and [getExports] a list of exports, the first is contained in the
    second; they are the same list when the used exports of the
    re-exporting module are not tracked. *)
Theorem star_reexport_references_its_exports
    (used active : bool) (activeExports : list string)
    (dep : HarmonyExportImportedSpecifierDependency.t)
    (r : HarmonyExportImportedSpecifierDependency.Reference)
    (l e : list string) :
  HarmonyExportImportedSpecifierDependency.truthy
    (HarmonyExportImportedSpecifierDependency.name dep) = false ->
  HarmonyExportImportedSpecifierDependency.getReference used active activeExports dep
    = Some r ->
  HarmonyExportImportedSpecifierDependency.importedNames r
    = HarmonyExportImportedSpecifierDependency.Names l ->
  HarmonyExportImportedSpecifierDependency.exports
    (HarmonyExportImportedSpecifierDependency.getExports dep)
    = HarmonyExportImportedSpecifierDependency.Listed e ->
  incl l e
  /\ (HarmonyExportImportedSpecifierDependency.originModule_usedExports dep
        = HarmonyExportImportedSpecifierDependency.Truthy -> l = e).
Proof.
  intros Hname Href Hl He.
  rewrite (star_exports_of dep Hname) in He.
  unfold HarmonyExportImportedSpecifierDependency.star_exports in He.
  destruct (@star_reference used active activeExports dep r l Hname Href Hl)
    as (im & Him & Hm & Hcases).
  rewrite Him in He.
  destruct (HarmonyExportImportedSpecifierDependency.providedExports im)
    as [p | |] eqn:Ep; simpl in He; try discriminate.
  inversion He; subst e.
  destruct Hcases as [(u & Hu & Hiff) | (Hu & p' & Hp' & El)].
  - split.
    + intros i Hi. apply Hiff in Hi. destruct Hi as (_ & _ & Hd & Hp).
      apply filter_In. split; [now apply Hp | now apply not_default_iff].
    + intros Hu'. rewrite Hu in Hu'. discriminate.
  - inversion Hp'; subst p'. split; [rewrite El; apply incl_refl | intros _; exact El].
Qed.

Lemma star_reexport_references_its_exports_witness :
  incl ["a"%string] ["a"; "b"; "c"]%string.
Proof.
  exact (proj1 (@star_reexport_references_its_exports true true ["c"%string]
                  HarmonyExamples.star _ _ _ eq_refl eq_refl eq_refl eq_refl)).
Defined.

(** ** The traversal of [getChunkMaps] *)

Section ChunkMapsFacts.
Import ChunkMaps.
Variable st : Store.
Variable chunk_id : ChunkRef -> string.
Variable chunk_hash : ChunkRef -> string.
Variable chunk_renderedHash : ChunkRef -> string.
Variable includeEntries : bool.
Variable realHash : bool.

Let visit' := visit st chunk_id chunk_hash chunk_renderedHash includeEntries realHash.
Let addChunk' := addChunk st chunk_id chunk_hash chunk_renderedHash includeEntries realHash.
Let children_loop (fuel : nat) :=
  fold_left
    (fun acc child =>
       match acc with
       | Some a => addChunk' fuel child a
       | None => None
       end).

Lemma processed_test (c : ChunkRef) (l : list ChunkRef) :
  (0 <=? JsArray.indexOf Nat.eq_dec c l)%Z = true <-> In c l.
Proof.
  unfold JsArray.indexOf.
  destruct (@index_from_sign nat Nat.eq_dec c l 0%Z (Z.le_refl 0)) as [H1 H2].
  rewrite Z.leb_le. split.
  - intros Hle. destruct (in_dec Nat.eq_dec c l) as [Hin | Hn]; [exact Hin|].
    rewrite (H2 Hn) in Hle. lia.
  - exact H1.
Qed.

Lemma addChunk_unfold (fuel : nat) (c : ChunkRef) (s : State) :
  addChunk' (S fuel) c s =
    if (0 <=? JsArray.indexOf Nat.eq_dec c (chunksProcessed s))%Z then Some s
    else children_loop fuel (chunks_of st c) (Some (visit' c s)).
Proof. reflexivity. Qed.

Lemma children_loop_none (fuel : nat) (l : list ChunkRef) :
  children_loop fuel l None = None.
Proof. induction l as [| d l IH]; simpl; auto. Qed.

Lemma children_loop_cons (fuel : nat) (d : ChunkRef) (l : list ChunkRef) (a a' : State) :
  children_loop fuel (d :: l) (Some a) = Some a' ->
  exists a1, addChunk' fuel d a = Some a1 /\ children_loop fuel l (Some a1) = Some a'.
Proof.
  simpl. destruct (addChunk' fuel d a) as [a1|] eqn:E.
  - intros H. exists a1. now split.
  - fold (children_loop fuel). rewrite children_loop_none. discriminate.
Qed.

Lemma visit_processed (c : ChunkRef) (s : State) :
  chunksProcessed (visit' c s) = chunksProcessed s ++ [c].
Proof.
  unfold visit', visit.
  now destruct (negb (ChunkQueries.hasRuntime st c) || includeEntries).
Qed.

Lemma visit_hash (c : ChunkRef) (s : State) :
  chunkHashMap (visit' c s) =
    write (hash_entry st chunk_id chunk_hash chunk_renderedHash includeEntries realHash c)
      (chunkHashMap s).
Proof.
  unfold visit', visit, hash_entry.
  now destruct (negb (ChunkQueries.hasRuntime st c) || includeEntries).
Qed.

Lemma visit_name (c : ChunkRef) (s : State) :
  chunkNameMap (visit' c s) =
    write (name_entry st chunk_id includeEntries c) (chunkNameMap s).
Proof.
  unfold visit', visit, name_entry.
  destruct (negb (ChunkQueries.hasRuntime st c) || includeEntries); [|reflexivity].
  simpl. destruct (ChunkObj.name (chunk st c)) as [[| a n]|]; reflexivity.
Qed.

(** Any relation between states that is reflexive, transitive and holds
    across a visit holds across the whole traversal. *)
Lemma addChunk_rel (R : State -> State -> Prop) :
  (forall s, R s s) ->
  (forall a b c, R a b -> R b c -> R a c) ->
  (forall c s, ~ In c (chunksProcessed s) -> R s (visit' c s)) ->
  forall fuel c s s', addChunk' fuel c s = Some s' -> R s s'.
Proof.
  intros Hrefl Htrans Hvisit.
  induction fuel as [| fuel IH]; intros c s s' H; [discriminate|].
  rewrite addChunk_unfold in H.
  destruct (0 <=? JsArray.indexOf Nat.eq_dec c (chunksProcessed s))%Z eqn:E.
  - inversion H; subst s'. apply Hrefl.
  - assert (Hn : ~ In c (chunksProcessed s)).
    { intros Hin. apply processed_test in Hin. congruence. }
    apply Htrans with (b := visit' c s); [now apply Hvisit|].
    clear E Hn. generalize dependent (visit' c s).
    induction (chunks_of st c) as [| d l IHl]; intros a H.
    + simpl in H. inversion H; subst. apply Hrefl.
    + apply children_loop_cons in H. destruct H as (a1 & H1 & H2).
      apply Htrans with (b := a1); [now apply IH with (c := d) | now apply IHl].
Qed.

Section Extends.
Variable proj : State -> JsObject.
Variable entry : ChunkRef -> option (string * string).
Hypothesis proj_visit :
  forall c s, proj (visit' c s) = write (entry c) (proj s).

Lemma extends_refl (s : State) : extends proj entry s s.
Proof.
  split; [apply incl_refl|]. split; [auto|]. split; [now left|].
  intros x k v Hin Hn. contradiction.
Qed.

Lemma extends_trans (a b c : State) :
  extends proj entry a b -> extends proj entry b c -> extends proj entry a c.
Proof.
  intros (I1 & N1 & F1 & B1) (I2 & N2 & F2 & B2).
  assert (Hfwd : forall k v y, In y (chunksProcessed b) -> ~ In y (chunksProcessed a) ->
                   entry y = Some (k, v) -> proj b k = Some v ->
                   exists y' v', In y' (chunksProcessed c) /\ ~ In y' (chunksProcessed a)
                                 /\ entry y' = Some (k, v') /\ proj c k = Some v').
  { intros k v y Hy Hny Hey Hp. destruct (F2 k) as [E | (y' & v' & Hy' & Hny' & Hey' & Hp')].
    - exists y, v. repeat split; auto. congruence.
    - exists y', v'. repeat split; auto. }
  split; [eapply incl_tran; eauto|]. split; [auto|]. split.
  - intros k. destruct (F2 k) as [E2 | (y & v & Hy & Hny & Hey & Hp)].
    + destruct (F1 k) as [E1 | (y & v & Hy & Hny & Hey & Hp)].
      * left. congruence.
      * right. exists y, v. repeat split; auto. congruence.
    + right. exists y, v. repeat split; auto.
  - intros x k v Hx Hnx Hex.
    destruct (in_dec Nat.eq_dec x (chunksProcessed b)) as [Hb | Hnb].
    + destruct (B1 x k v Hb Hnx Hex) as (y & v' & Hy & Hny & Hey & Hp).
      now apply Hfwd with (v := v') (y := y).
    + destruct (B2 x k v Hx Hnb Hex) as (y & v' & Hy & Hny & Hey & Hp).
      exists y, v'. repeat split; auto.
Qed.

Lemma extends_visit (c : ChunkRef) (s : State) :
  ~ In c (chunksProcessed s) -> extends proj entry s (visit' c s).
Proof.
  intros Hn. unfold extends. rewrite visit_processed, proj_visit.
  assert (Hc : In c (chunksProcessed s ++ [c])) by (apply in_or_app; right; now left).
  split; [apply incl_appl, incl_refl|]. split.
  { intros Hnd. apply NoDup_app; auto.
    - constructor; [intros [] | constructor].
    - intros x Hx [<- | []]. contradiction. }
  split.
  - intros k. unfold write. destruct (entry c) as [[k' v]|] eqn:E; [|now left].
    unfold set_property. destruct (String.eqb k k') eqn:Ek; [|now left].
    apply String.eqb_eq in Ek. subst k'. right. exists c, v. repeat split; auto.
  - intros x k v Hx Hnx Hex. apply in_app_or in Hx.
    destruct Hx as [Hx | [<- | []]]; [contradiction|].
    exists c, v. rewrite Hex. unfold write, set_property. rewrite String.eqb_refl.
    repeat split; auto.
Qed.

Lemma addChunk_extends (fuel : nat) (c : ChunkRef) (s s' : State) :
  addChunk' fuel c s = Some s' -> extends proj entry s s'.
Proof.
  apply addChunk_rel.
  - apply extends_refl.
  - apply extends_trans.
  - apply extends_visit.
Qed.
End Extends.

Lemma reachable_step_left (a b c : ChunkRef) :
  In b (chunks_of st a) -> reachable st b c -> reachable st a c.
Proof.
  intros Hab. induction 1 as [| x y Hbx IH Hxy].
  - apply reach_child with (b := a); [apply reach_self | exact Hab].
  - now apply reach_child with (b := x).
Qed.

Lemma addChunk_incl (fuel : nat) (c : ChunkRef) (s s' : State) :
  addChunk' fuel c s = Some s' -> incl (chunksProcessed s) (chunksProcessed s').
Proof.
  intros H.
  exact (proj1 (@addChunk_extends chunkNameMap (name_entry st chunk_id includeEntries)
                  visit_name fuel c s s' H)).
Qed.

Lemma addChunk_explored (fuel : nat) (c : ChunkRef) (s s' : State) :
  addChunk' fuel c s = Some s' -> explored st c s s'.
Proof.
  revert c s s'. induction fuel as [| fuel IH]; intros c s s' H; [discriminate|].
  rewrite addChunk_unfold in H.
  destruct (0 <=? JsArray.indexOf Nat.eq_dec c (chunksProcessed s))%Z eqn:E.
  - inversion H; subst s'. apply processed_test in E.
    split; [apply incl_refl|]. split; [exact E|]. split; [auto|].
    intros x Hx Hnx. contradiction.
  - assert (Hn : ~ In c (chunksProcessed s)).
    { intros Hin. apply processed_test in Hin. congruence. }
    assert (Hloop : forall l a a',
              children_loop fuel l (Some a) = Some a' ->
              incl (chunksProcessed a) (chunksProcessed a')
              /\ (forall d, In d l -> In d (chunksProcessed a'))
              /\ (forall x, In x (chunksProcessed a') ->
                    In x (chunksProcessed a) \/ exists d, In d l /\ reachable st d x)
              /\ (forall x, In x (chunksProcessed a') -> ~ In x (chunksProcessed a) ->
                    forall d, In d (chunks_of st x) -> In d (chunksProcessed a'))).
    { induction l as [| d l IHl]; intros a a' Hl.
      - simpl in Hl. inversion Hl; subst a'.
        split; [apply incl_refl|]. split; [intros d []|]. split; [auto|].
        intros x Hx Hnx. contradiction.
      - apply children_loop_cons in Hl. destruct Hl as (a1 & H1 & H2).
        destruct (IH d a a1 H1) as (I1 & C1 & S1 & K1).
        destruct (IHl a1 a' H2) as (I2 & C2 & S2 & K2).
        split; [eapply incl_tran; eauto|]. split.
        { intros d' [<- | Hd']; [now apply I2 | now apply C2]. }
        split.
        { intros x Hx. destruct (S2 x Hx) as [Hx1 | (d' & Hd' & Hr)].
          - destruct (S1 x Hx1) as [Hxa | Hr]; [now left|].
            right. exists d. split; [now left | exact Hr].
          - right. exists d'. split; [now right | exact Hr]. }
        intros x Hx Hnx d' Hd'.
        destruct (in_dec Nat.eq_dec x (chunksProcessed a1)) as [Hx1 | Hnx1].
        + apply I2. now apply K1 with (x := x).
        + now apply K2 with (x := x). }
    destruct (Hloop _ _ _ H) as (I & C & S & K).
    rewrite visit_processed in I, S, K.
    split; [intros x Hx; apply I; apply in_or_app; now left|].
    split; [apply I; apply in_or_app; right; now left|].
    split.
    + intros x Hx. destruct (S x Hx) as [Hx1 | (d & Hd & Hr)].
      * apply in_app_or in Hx1. destruct Hx1 as [Hx1 | [<- | []]]; [now left|].
        right. apply reach_self.
      * right. now apply reachable_step_left with (b := d).
    + intros x Hx Hnx d Hd.
      destruct (Nat.eq_dec x c) as [-> | Hxc]; [now apply C|].
      apply K with (x := x); auto.
      intros Hin. apply in_app_or in Hin. destruct Hin as [Hin | [Heq | []]]; auto.
Qed.

Lemma pending_incl (universe p p' : list ChunkRef) :
  incl p p' -> pending universe p' <= pending universe p.
Proof.
  intros Hi. unfold pending. induction universe as [| u us IH]; simpl; [lia|].
  destruct (JsSet.has Nat.eq_dec u p) eqn:E; simpl.
  - apply has_true_iff in E. apply Hi in E.
    apply (has_true_iff Nat.eq_dec) in E. rewrite E. simpl. exact IH.
  - destruct (JsSet.has Nat.eq_dec u p'); simpl; lia.
Qed.

Lemma pending_visit (universe p : list ChunkRef) (c : ChunkRef) :
  In c universe -> ~ In c p -> pending universe (p ++ [c]) < pending universe p.
Proof.
  intros Hu Hn. unfold pending. induction universe as [| u us IH]; [contradiction|].
  assert (Hle : pending us (p ++ [c]) <= pending us p).
  { apply pending_incl. apply incl_appl, incl_refl. }
  unfold pending in Hle. simpl.
  destruct (Nat.eq_dec u c) as [-> | Huc].
  - apply (has_false_iff Nat.eq_dec) in Hn. rewrite Hn.
    assert (Hc : JsSet.has Nat.eq_dec c (p ++ [c]) = true).
    { apply has_true_iff. apply in_or_app. right. now left. }
    rewrite Hc. simpl. lia.
  - destruct Hu as [Hu | Hu]; [congruence|]. specialize (IH Hu).
    destruct (JsSet.has Nat.eq_dec u p) eqn:E; simpl.
    + assert (E' : JsSet.has Nat.eq_dec u (p ++ [c]) = true).
      { apply has_true_iff. apply has_true_iff in E. apply in_or_app. now left. }
      rewrite E'. simpl. exact IH.
    + destruct (JsSet.has Nat.eq_dec u (p ++ [c])); simpl; lia.
Qed.

Lemma pending_le (universe p : list ChunkRef) : pending universe p <= List.length universe.
Proof. unfold pending. apply filter_length_le. Qed.

Lemma addChunk_terminates (universe : list ChunkRef) :
  (forall c d, In c universe -> In d (chunks_of st c) -> In d universe) ->
  forall fuel c s,
    In c universe -> pending universe (chunksProcessed s) < fuel ->
    exists s', addChunk' fuel c s = Some s'.
Proof.
  intros Hclosed. induction fuel as [| fuel IH]; intros c s Hc Hp; [lia|].
  rewrite addChunk_unfold.
  destruct (0 <=? JsArray.indexOf Nat.eq_dec c (chunksProcessed s))%Z eqn:E;
    [now exists s|].
  assert (Hn : ~ In c (chunksProcessed s)).
  { intros Hin. apply processed_test in Hin. congruence. }
  assert (Hp2 : pending universe (chunksProcessed (visit' c s)) < fuel).
  { rewrite visit_processed.
    pose proof (@pending_visit universe (chunksProcessed s) c Hc Hn). lia. }
  assert (Hl : forall d, In d (chunks_of st c) -> In d universe).
  { intros d Hd. now apply Hclosed with (c := c). }
  clear E Hn Hp. generalize dependent (visit' c s).
  induction (chunks_of st c) as [| d l IHl]; intros a Ha.
  - exists a. reflexivity.
  - destruct (IH d a) as [a1 H1]; [apply Hl; now left | exact Ha |].
    destruct (IHl (fun d' Hd' => Hl d' (or_intror Hd')) a1) as [a' H2].
    { pose proof (pending_incl universe (addChunk_incl _ _ _ H1)). lia. }
    exists a'. simpl. rewrite H1. exact H2.
Qed.

Lemma traversal_result (universe : list ChunkRef) (self : ChunkRef) :
  In self universe ->
  (forall c d, In c universe -> In d (chunks_of st c) -> In d universe) ->
  let init := mkState [] empty_object empty_object in
  exists s,
    addChunk' (S (List.length universe)) self init = Some s
    /\ NoDup (chunksProcessed s)
    /\ (forall x, In x (chunksProcessed s) <-> reachable st self x)
    /\ extends chunkHashMap
         (hash_entry st chunk_id chunk_hash chunk_renderedHash includeEntries realHash)
         init s
    /\ extends chunkNameMap (name_entry st chunk_id includeEntries) init s.
Proof.
  intros Hself Hclosed init.
  destruct (@addChunk_terminates universe Hclosed (S (List.length universe)) self init Hself)
    as [s Hs].
  { pose proof (pending_le universe (chunksProcessed init)). lia. }
  exists s. split; [exact Hs|].
  pose proof (@addChunk_extends chunkHashMap _ visit_hash _ _ _ _ Hs) as Hh.
  pose proof (@addChunk_extends chunkNameMap _ visit_name _ _ _ _ Hs) as Hn.
  pose proof (addChunk_explored _ _ _ Hs) as (_ & Hin & Hsound & Hcl).
  split; [apply (proj1 (proj2 Hh)); constructor|].
  split; [|split; assumption].
  intros x. split.
  - intros Hx. destruct (Hsound x Hx) as [[] | Hr]. exact Hr.
  - induction 1 as [| b c Hb IH Hc]; [exact Hin|].
    apply Hcl with (x := b); auto.
Qed.
End ChunkMapsFacts.

(** X19.  The traversal of [getChunkMaps] ends on every finite chunk graph,
    cycles included: when the start chunk lies in a list of chunks that is
    closed under child edges, a depth budget of the length of that list
    plus one is enough.  It processes exactly the chunks that can be
    reached from the start chunk along child edges, each of them once. *)
Theorem getChunkMaps_visits_reachable_chunks_once
    (st : Store) (chunk_id chunk_hash chunk_renderedHash : ChunkRef -> string)
    (includeEntries realHash : bool) (universe : list ChunkRef) (self : ChunkRef) :
  In self universe ->
  (forall c d, In c universe -> In d (chunks_of st c) -> In d universe) ->
  exists s,
    ChunkMaps.addChunk st chunk_id chunk_hash chunk_renderedHash includeEntries realHash
      (S (List.length universe)) self
      (ChunkMaps.mkState [] ChunkMaps.empty_object ChunkMaps.empty_object) = Some s
    /\ NoDup (ChunkMaps.chunksProcessed s)
    /\ (forall x, In x (ChunkMaps.chunksProcessed s) <-> ChunkMaps.reachable st self x).
Proof.
  intros Hself Hclosed.
  destruct (@traversal_result st chunk_id chunk_hash chunk_renderedHash includeEntries
              realHash universe self Hself Hclosed) as (s & Hs & Hnd & Hiff & _).
  exists s. split; [exact Hs|]. split; [exact Hnd | exact Hiff].
Qed.

Lemma getChunkMaps_visits_reachable_chunks_once_witness :
  In 0 [0; 1; 2; 3]
  /\ (forall c d, In c [0; 1; 2; 3] -> In d (chunks_of MapExamples.diamond c) ->
        In d [0; 1; 2; 3])
  /\ exists s,
       ChunkMaps.addChunk MapExamples.diamond MapExamples.chunk_id MapExamples.chunk_hash
         MapExamples.chunk_renderedHash false true 5 0
         (ChunkMaps.mkState [] ChunkMaps.empty_object ChunkMaps.empty_object) = Some s
       /\ NoDup (ChunkMaps.chunksProcessed s)
       /\ (forall x, In x (ChunkMaps.chunksProcessed s) <->
                     ChunkMaps.reachable MapExamples.diamond 0 x).
Proof.
  assert (Hc : forall c d, In c [0; 1; 2; 3] -> In d (chunks_of MapExamples.diamond c) ->
                 In d [0; 1; 2; 3]).
  { intros c d Hc Hd. simpl in Hc.
    destruct Hc as [<- | [<- | [<- | [<- | []]]]]; vm_compute in Hd; simpl; tauto. }
  split; [now left|]. split; [exact Hc|].
  exact (@getChunkMaps_visits_reachable_chunks_once MapExamples.diamond
           MapExamples.chunk_id MapExamples.chunk_hash MapExamples.chunk_renderedHash
           false true [0; 1; 2; 3] 0 (or_introl eq_refl) Hc).
Defined.

(** X20.  On a finite chunk graph [getChunkMaps] returns its two maps, and
    they hold entries of reachable chunks only: every entry of the hash
    map is the hash (the full one if [realHash], else the rendered one) of
    a chunk reachable from the receiver that has no runtime or is let in
    by [includeEntries], under that chunk's id; every entry of the name
    map is the non-empty name of such a chunk.  When the reachable chunks
    have distinct ids, the hash map holds under the id of each reachable
    chunk exactly that chunk's hash, and nothing for a runtime chunk that
    [includeEntries] does not let in. *)
Theorem getChunkMaps_records_reachable_chunks
    (st : Store) (chunk_id chunk_hash chunk_renderedHash : ChunkRef -> string)
    (includeEntries realHash : bool) (universe : list ChunkRef) (self : ChunkRef) :
  In self universe ->
  (forall c d, In c universe -> In d (chunks_of st c) -> In d universe) ->
  exists hash name,
    ChunkMaps.getChunkMaps st chunk_id chunk_hash chunk_renderedHash includeEntries
      realHash (S (List.length universe)) self = Some (hash, name)
    /\ (forall k v, hash k = Some v ->
          exists x, ChunkMaps.reachable st self x
                    /\ negb (ChunkQueries.hasRuntime st x) || includeEntries = true
                    /\ chunk_id x = k
                    /\ v = (if realHash then chunk_hash x else chunk_renderedHash x))
    /\ (forall k v, name k = Some v ->
          exists x, ChunkMaps.reachable st self x
                    /\ negb (ChunkQueries.hasRuntime st x) || includeEntries = true
                    /\ chunk_id x = k
                    /\ ChunkObj.name (chunk st x) = Some v /\ v <> EmptyString)
    /\ ((forall x y, ChunkMaps.reachable st self x -> ChunkMaps.reachable st self y ->
           chunk_id x = chunk_id y -> x = y) ->
        forall x, ChunkMaps.reachable st self x ->
          hash (chunk_id x) =
            if negb (ChunkQueries.hasRuntime st x) || includeEntries
            then Some (if realHash then chunk_hash x else chunk_renderedHash x)
            else None).
Proof.
  intros Hself Hclosed.
  destruct (@traversal_result st chunk_id chunk_hash chunk_renderedHash includeEntries
              realHash universe self Hself Hclosed)
    as (s & Hs & Hnd & Hiff & (_ & _ & Fh & Bh) & (_ & _ & Fn & _)).
  exists (ChunkMaps.chunkHashMap s), (ChunkMaps.chunkNameMap s).
  split; [unfold ChunkMaps.getChunkMaps; now rewrite Hs|].
  assert (Hhash : forall k v, ChunkMaps.chunkHashMap s k = Some v ->
            exists x, ChunkMaps.reachable st self x
                      /\ negb (ChunkQueries.hasRuntime st x) || includeEntries = true
                      /\ chunk_id x = k
                      /\ v = (if realHash then chunk_hash x else chunk_renderedHash x)).
  { intros k v Hk. destruct (Fh k) as [E | (y & v' & Hy & _ & Hey & Hp)].
    - simpl in E. unfold ChunkMaps.empty_object in E. congruence.
    - exists y. split; [now apply Hiff|]. unfold ChunkMaps.hash_entry in Hey.
      destruct (negb (ChunkQueries.hasRuntime st y) || includeEntries); [|discriminate].
      inversion Hey; subst. split; [reflexivity|]. split; [reflexivity|]. congruence. }
  split; [exact Hhash|]. split.
  - intros k v Hk. destruct (Fn k) as [E | (y & v' & Hy & _ & Hey & Hp)].
    + simpl in E. unfold ChunkMaps.empty_object in E. congruence.
    + exists y. split; [now apply Hiff|]. unfold ChunkMaps.name_entry in Hey.
      destruct (negb (ChunkQueries.hasRuntime st y) || includeEntries); [|discriminate].
      split; [reflexivity|].
      assert (Ev : v' = v) by congruence. subst v'.
      destruct (ChunkObj.name (chunk st y)) as [[| a n]|]; try discriminate.
      inversion Hey; subst. split; [reflexivity|]. split; [reflexivity | discriminate].
  - intros Hinj x Hx.
    destruct (negb (ChunkQueries.hasRuntime st x) || includeEntries) eqn:El.
    + destruct (Bh x (chunk_id x)
                  (if realHash then chunk_hash x else chunk_renderedHash x))
        as (y & v' & Hy & _ & Hey & Hp).
      * now apply Hiff.
      * intros [].
      * unfold ChunkMaps.hash_entry. now rewrite El.
      * rewrite Hp. unfold ChunkMaps.hash_entry in Hey.
        destruct (negb (ChunkQueries.hasRuntime st y) || includeEntries); [|discriminate].
        inversion Hey as [[Hid Hv]].
        assert (Exy : y = x) by (apply Hinj; auto; now apply Hiff).
        now subst y.
    + destruct (ChunkMaps.chunkHashMap s (chunk_id x)) as [v|] eqn:Ev; [|reflexivity].
      destruct (Hhash _ _ Ev) as (y & Hy & Hel & Hid & _).
      assert (Exy : y = x) by (apply Hinj; auto).
      subst y. congruence.
Qed.

Lemma getChunkMaps_records_reachable_chunks_witness :
  exists hash name,
    ChunkMaps.getChunkMaps MapExamples.diamond MapExamples.chunk_id MapExamples.chunk_hash
      MapExamples.chunk_renderedHash false true 5 0 = Some (hash, name)
    /\ (forall k v, hash k = Some v ->
          exists x, ChunkMaps.reachable MapExamples.diamond 0 x
                    /\ negb (ChunkQueries.hasRuntime MapExamples.diamond x) || false = true
                    /\ MapExamples.chunk_id x = k
                    /\ v = MapExamples.chunk_hash x).
Proof.
  assert (Hc : forall c d, In c [0; 1; 2; 3] -> In d (chunks_of MapExamples.diamond c) ->
                 In d [0; 1; 2; 3]).
  { intros c d Hc Hd. simpl in Hc.
    destruct Hc as [<- | [<- | [<- | [<- | []]]]]; vm_compute in Hd; simpl; tauto. }
  destruct (@getChunkMaps_records_reachable_chunks MapExamples.diamond
              MapExamples.chunk_id MapExamples.chunk_hash MapExamples.chunk_renderedHash
              false true [0; 1; 2; 3] 0 (or_introl eq_refl) Hc)
    as (hash & name & Hg & Hh & _).
  exists hash, name. split; [exact Hg | exact Hh].
Defined.

(** ** Module membership *)

Section ModuleMembership.
Import Chunk.

Lemma modules_Module_removeChunk m c st x :
  modules_of (Collaborators.Module_removeChunk m c st) x = modules_of st x.
Proof. reflexivity. Qed.

Lemma modules_addModule self m st x :
  modules_of (snd (addModule self m st)) x =
    if x =? self then set_add m (modules_of st self) else modules_of st x.
Proof.
  unfold addModule. destruct (set_has m (modules_of st self)) eqn:E; simpl.
  - destruct (Nat.eqb_spec x self) as [-> | Hn]; [|reflexivity].
    unfold set_add, JsSet.add. unfold set_has in E. now rewrite E.
  - apply modules_write_modules.
Qed.

Lemma modules_removeModule self m st x :
  modules_of (snd (removeModule self m st)) x =
    if x =? self then set_delete m (modules_of st self) else modules_of st x.
Proof.
  unfold removeModule. destruct (set_has m (modules_of st self)) eqn:E; simpl.
  - rewrite modules_Module_removeChunk. apply modules_write_modules.
  - destruct (Nat.eqb_spec x self) as [-> | Hn]; [|reflexivity].
    apply set_has_false in E. unfold set_delete, JsSet.delete.
    now rewrite notin_remove.
Qed.
End ModuleMembership.

(** X21.  Module membership of a chunk.  [addModule] answers whether the
    module was new, and afterwards the chunk contains it; the module count
    grows by one exactly when it was new; no other chunk's modules change.
    [removeModule] answers whether the module was there, and afterwards the
    chunk does not contain it; removing a module that was just added as new
    gives back the module set from before, and a second removal answers
    false.  A chunk is not empty after [addModule]. *)
Theorem module_membership_round_trip (st : Store) (self : ChunkRef) (m : ModuleRef) :
  let st1 := snd (Chunk.addModule self m st) in
  let st2 := snd (Chunk.removeModule self m st1) in
  fst (Chunk.addModule self m st) = negb (ChunkQueries.containsModule st self m)
  /\ ChunkQueries.containsModule st1 self m = true
  /\ ChunkQueries.getNumberOfModules st1 self =
       ChunkQueries.getNumberOfModules st self
       + (if ChunkQueries.containsModule st self m then 0 else 1)
  /\ (forall c, c <> self -> modules_of st1 c = modules_of st c
                             /\ modules_of st2 c = modules_of st c)
  /\ (forall s, fst (Chunk.removeModule self m s) = ChunkQueries.containsModule s self m)
  /\ ChunkQueries.containsModule st2 self m = false
  /\ ChunkQueries.isEmpty st1 self = false
  /\ (ChunkQueries.containsModule st self m = false ->
      modules_of st2 self = modules_of st self)
  /\ fst (Chunk.removeModule self m st2) = false.
Proof.
  intros st1 st2.
  assert (E1 : forall x, modules_of st1 x =
                 if x =? self then Chunk.set_add m (modules_of st self)
                 else modules_of st x)
    by (intros x; apply modules_addModule).
  assert (E2 : forall x, modules_of st2 x =
                 if x =? self then Chunk.set_delete m (modules_of st1 self)
                 else modules_of st1 x)
    by (intros x; apply modules_removeModule).
  assert (Hrm : forall s, fst (Chunk.removeModule self m s)
                          = ChunkQueries.containsModule s self m).
  { intros s. unfold Chunk.removeModule, ChunkQueries.containsModule.
    now destruct (Chunk.set_has m (modules_of s self)). }
  assert (H2 : ChunkQueries.containsModule st2 self m = false).
  { unfold ChunkQueries.containsModule. rewrite E2, Nat.eqb_refl.
    apply set_has_false. intros Hin. apply delete_In in Hin. tauto. }
  unfold ChunkQueries.isEmpty, ChunkQueries.getNumberOfModules,
    ChunkQueries.containsModule in *.
  split.
  { unfold Chunk.addModule. now destruct (Chunk.set_has m (modules_of st self)). }
  split.
  { rewrite E1, Nat.eqb_refl. apply set_has_true. apply add_In. now right. }
  split.
  { rewrite E1, Nat.eqb_refl. unfold Chunk.set_add, JsSet.add, Chunk.set_has.
    destruct (JsSet.has Nat.eq_dec m (modules_of st self)); [apply plus_n_O|].
    rewrite length_app. reflexivity. }
  split.
  { intros c Hc. rewrite E2, E1. apply Nat.eqb_neq in Hc. rewrite Hc. now split. }
  split; [exact Hrm|]. split; [exact H2|].
  assert (E3 : modules_of st2 self = Chunk.set_delete m (modules_of st self)).
  { rewrite E2, Nat.eqb_refl, E1, Nat.eqb_refl.
    unfold Chunk.set_add, JsSet.add.
    destruct (JsSet.has Nat.eq_dec m (modules_of st self)) eqn:Eh; [reflexivity|].
    apply has_false_iff in Eh. rewrite delete_appended by assumption.
    unfold Chunk.set_delete, JsSet.delete. now rewrite notin_remove. }
  split.
  { rewrite E1, Nat.eqb_refl. unfold Chunk.set_add, JsSet.add.
    destruct (JsSet.has Nat.eq_dec m (modules_of st self)) eqn:Eh.
    - apply has_true_iff in Eh. now destruct (modules_of st self).
    - rewrite length_app. simpl. apply Nat.eqb_neq. lia. }
  split.
  { intros Hf. rewrite E3. apply set_has_false in Hf.
    unfold Chunk.set_delete, JsSet.delete. now rewrite notin_remove. }
  rewrite Hrm. exact H2.
Qed.

Lemma module_membership_round_trip_witness :
  ChunkQueries.containsModule Scenario.st 1 5 = false
  /\ modules_of (snd (Chunk.removeModule 1 5 (snd (Chunk.addModule 1 5 Scenario.st)))) 1
     = modules_of Scenario.st 1.
Proof.
  split; [reflexivity|].
  destruct (module_membership_round_trip Scenario.st 1 5)
    as (_ & _ & _ & _ & _ & _ & _ & H & _).
  exact (H eq_refl).
Defined.

(** ** [integrate] as the contraction of an edge *)

Section IntegrateContracts.
Import Spec Chunk.
Variables self other : ChunkRef.
Hypothesis distinct : self <> other.

(** The loop over [otherChunk._parents]. *)
Lemma integrate_parent_loop (l : list ChunkRef) : forall st,
  (forall x, parent_edge st x self -> child_edge st x self) ->
  let st' := fold_left (fun s p => replaceChunk p other self s) l st in
  (forall x y, child_edge st' x y <->
     (child_edge st x y /\ ~ (In x l /\ y = other)) \/ (In x l /\ y = self /\ x <> self))
  /\ (forall x y, parent_edge st' x y <->
        parent_edge st x y \/ (In x l /\ y = self /\ x <> self)).
Proof.
  induction l as [| p l IH]; intros st Hinv; simpl.
  - split; intros x y; tauto.
  - set (s1 := replaceChunk p other self st).
    assert (C1 : forall x y, child_edge s1 x y <->
                   (child_edge st x y /\ ~ (x = p /\ y = other))
                   \/ (x = p /\ y = self /\ p <> self /\ ~ parent_edge st p self))
      by (intros x y; apply replaceChunk_edges).
    assert (P1 : forall x y, parent_edge s1 x y <->
                   parent_edge st x y \/ (x = p /\ y = self /\ p <> self))
      by (intros x y; apply replaceChunk_edges).
    assert (Hinv1 : forall x, parent_edge s1 x self -> child_edge s1 x self).
    { intros x Hx. apply C1. apply P1 in Hx.
      destruct (in_dec Nat.eq_dec p (parents_of st self)) as [Hp | Hnp].
      - left. split; [|intros [_ E]; now apply distinct].
        destruct Hx as [Hx | [-> _]]; apply Hinv; [exact Hx | exact Hp].
      - destruct Hx as [Hx | (-> & _ & Hps)].
        + left. split; [now apply Hinv | intros [_ E]; now apply distinct].
        + right. repeat split; auto. }
    destruct (IH s1 Hinv1) as [C2 P2]. split.
    + intros x y. rewrite C2, C1. split.
      * intros [[[Hc | (-> & -> & Hps & _)] Hn] | (Hx & -> & Hxs)].
        -- left. split; [tauto|]. intros [[E | Hin] Ey]; [symmetry in E|]; tauto.
        -- right. split; [now left | tauto].
        -- right. split; [now right | tauto].
      * intros [[Hc Hn] | ([E | Hin] & -> & Hxs)].
        -- left. split.
           ++ left. split; [exact Hc|]. intros [-> ->]. apply Hn. split; [now left | reflexivity].
           ++ intros [Hin Ey]. apply Hn. split; [now right | exact Ey].
        -- subst x.
           destruct (in_dec Nat.eq_dec p l) as [Hl | Hnl]; [right; tauto|].
           left. split; [|tauto].
           destruct (in_dec Nat.eq_dec p (parents_of st self)) as [Hp | Hnp].
           ++ left. split; [now apply Hinv|]. intros [_ E]. now apply distinct.
           ++ right. repeat split; auto.
        -- right. tauto.
    + intros x y. rewrite P2, P1. split.
      * intros [[Hp | (-> & -> & Hps)] | (Hin & -> & Hxs)].
        -- now left.
        -- right. split; [now left | tauto].
        -- right. split; [now right | tauto].
      * intros [Hp | ([E | Hin] & -> & Hxs)].
        -- left. now left.
        -- subst x. left. right. tauto.
        -- right. tauto.
Qed.

(** The loop over [otherChunk._chunks]. *)
Lemma integrate_child_loop (l : list ChunkRef) : forall st,
  (forall y, child_edge st self y -> parent_edge st self y) ->
  let st' := fold_left (fun s c => replaceParentChunk c other self s) l st in
  (forall x y, parent_edge st' x y <->
     (parent_edge st x y /\ ~ (x = other /\ In y l)) \/ (x = self /\ In y l /\ y <> self))
  /\ (forall x y, child_edge st' x y <->
        child_edge st x y \/ (x = self /\ In y l /\ y <> self)).
Proof.
  induction l as [| c l IH]; intros st Hinv; simpl.
  - split; intros x y; tauto.
  - set (s1 := replaceParentChunk c other self st).
    assert (P1 : forall x y, parent_edge s1 x y <->
                   (parent_edge st x y /\ ~ (x = other /\ y = c))
                   \/ (x = self /\ y = c /\ c <> self /\ ~ child_edge st self c))
      by (intros x y; apply replaceParentChunk_edges).
    assert (C1 : forall x y, child_edge s1 x y <->
                   child_edge st x y \/ (x = self /\ y = c /\ c <> self))
      by (intros x y; apply replaceParentChunk_edges).
    assert (Hinv1 : forall y, child_edge s1 self y -> parent_edge s1 self y).
    { intros y Hy. apply P1. apply C1 in Hy.
      destruct (in_dec Nat.eq_dec c (chunks_of st self)) as [Hc | Hnc].
      - left. split; [|intros [E _]; now apply distinct].
        destruct Hy as [Hy | (_ & -> & _)]; apply Hinv; [exact Hy | exact Hc].
      - destruct Hy as [Hy | (_ & -> & Hcs)].
        + left. split; [now apply Hinv | intros [E _]; now apply distinct].
        + right. repeat split; auto. }
    destruct (IH s1 Hinv1) as [P2 C2]. split.
    + intros x y. rewrite P2, P1. split.
      * intros [[[Hp | (-> & -> & Hcs & _)] Hn] | (-> & Hy & Hys)].
        -- left. split; [tauto|]. intros [Ex [E | Hin]]; [symmetry in E|]; tauto.
        -- right. split; [reflexivity|]. split; [now left | exact Hcs].
        -- right. split; [reflexivity|]. split; [now right | exact Hys].
      * intros [[Hp Hn] | (-> & [E | Hin] & Hys)].
        -- left. split.
           ++ left. split; [exact Hp|]. intros [-> ->]. apply Hn. split; [reflexivity | now left].
           ++ intros [Ex Hin]. apply Hn. split; [exact Ex | now right].
        -- subst y.
           destruct (in_dec Nat.eq_dec c l) as [Hl | Hnl]; [right; tauto|].
           left. split; [|tauto].
           destruct (in_dec Nat.eq_dec c (chunks_of st self)) as [Hc | Hnc].
           ++ left. split; [now apply Hinv|]. intros [E _]. now apply distinct.
           ++ right. repeat split; auto.
        -- right. tauto.
    + intros x y. rewrite C2, C1. split.
      * intros [[Hc | (-> & -> & Hcs)] | (-> & Hin & Hys)].
        -- now left.
        -- right. split; [reflexivity|]. split; [now left | exact Hcs].
        -- right. split; [reflexivity|]. split; [now right | exact Hys].
      * intros [Hc | (-> & [E | Hin] & Hys)].
        -- left. now left.
        -- subst y. left. right. tauto.
        -- right. tauto.
Qed.

Lemma integrate_child_edges (reason : Reason) (st : Store) :
  canBeIntegrated st self other = true ->
  symmetric st ->
  forall a b,
    child_edge (snd (integrate self other reason st)) a b <->
      a <> other /\ b <> other /\ ~ (a = self /\ b = self)
      /\ (child_edge st a b
          \/ (b = self /\ child_edge st a other)
          \/ (a = self /\ child_edge st other b)).
Proof.
  intros Hc Hs a b. unfold integrate. rewrite Hc.
  cbv beta iota zeta delta [negb snd].
  set (st1 := integrate_modules self other st).
  set (st2 := integrate_parents self other st1).
  set (st3 := integrate_children self other st2).
  set (st5 := integrate_origins self other reason
                (integrate_blocks self other reason st3)).
  assert (E01 : same_edges st st1) by apply same_edges_integrate_modules.
  assert (E35 : same_edges st3 st5).
  { eapply same_edges_trans;
      [apply same_edges_integrate_blocks | apply same_edges_integrate_origins]. }
  assert (B1 : backed [] st1).
  { eapply same_edges_backed; [exact E01 | now apply symmetric_backed]. }
  destruct (@backed_integrate_parents [] self other st1 B1) as (B2 & _ & _).
  fold st2 in B2.
  (* the parents *)
  assert (C2 : forall x y, child_edge st2 x y <->
                 (child_edge st x y /\ y <> other)
                 \/ (child_edge st x other /\ y = self /\ x <> self)).
  { intros x y. subst st2. unfold integrate_parents. cbv zeta.
    rewrite write_parents_child.
    destruct (@integrate_parent_loop (parents_of st1 other) st1) as [C _].
    { intros z Hz. apply B1; [intros [] | exact Hz]. }
    rewrite C. rewrite (same_edges_child x y E01).
    change (In x (parents_of st1 other)) with (parent_edge st1 x other).
    rewrite (same_edges_parent x other E01), <- (Hs x other).
    split.
    - intros [[H1 H2] | H]; [|tauto].
      left. split; [exact H1|]. intros ->. now apply H2.
    - intros [[H1 H2] | H]; [|tauto]. left. tauto. }
  (* the children *)
  assert (C3 : forall x y, child_edge st3 x y <->
                 (child_edge st2 x y \/ (x = self /\ child_edge st2 other y /\ y <> self))
                 /\ x <> other).
  { intros x y. subst st3. unfold integrate_children. cbv zeta.
    rewrite clear_child.
    destruct (@integrate_child_loop (chunks_of st2 other) st2) as [_ C].
    { intros z Hz. apply B2; [intros [] | exact Hz]. }
    rewrite C. reflexivity. }
  destruct (integrate_cleanup_edges self other st5 a b) as [C5 _].
  rewrite C5, (same_edges_child a b E35), C3, !C2.
  pose proof distinct as Hd.
  assert (Hd' : other <> self) by congruence.
  split.
  - intros H. intuition congruence.
  - intros H. intuition congruence.
Qed.
End IntegrateContracts.

(** X22.  On a symmetric graph a successful [integrate(other, reason)]
    contracts [other] into the receiver.  Afterwards [a] has the child [b]
    exactly when neither is [other], the pair is not the receiver twice,
    and before [a] had the child [b], or [b] is the receiver and [a] had
    the child [other], or [a] is the receiver and [other] had the child
    [b].  The graph is symmetric again, so the same holds of the parent
    sets; in particular no chunk refers to [other] any more. *)
Theorem integrate_contracts_other_into_self
    (st : Store) (self other : ChunkRef) (reason : Reason) :
  Chunk.canBeIntegrated st self other = true ->
  Spec.symmetric st ->
  self <> other ->
  let st' := snd (Chunk.integrate self other reason st) in
  Spec.symmetric st'
  /\ (forall a b,
        Spec.child_edge st' a b <->
          a <> other /\ b <> other /\ ~ (a = self /\ b = self)
          /\ (Spec.child_edge st a b
              \/ (b = self /\ Spec.child_edge st a other)
              \/ (a = self /\ Spec.child_edge st other b)))
  /\ (forall x, ~ In other (chunks_of st' x) /\ ~ In other (parents_of st' x)
                /\ ~ In x (chunks_of st' other) /\ ~ In x (parents_of st' other)).
Proof.
  intros Hc Hs Hne st'.
  assert (Hsym : Spec.symmetric st').
  { destruct (@backed_integrate [] self other reason st (symmetric_backed Hs)) as [B1 B2].
    intros a b. split; intros H; [apply B1 | apply B2]; auto. }
  pose proof (@integrate_child_edges self other Hne reason st Hc Hs) as He.
  fold st' in He.
  split; [exact Hsym|]. split; [exact He|].
  intros x.
  assert (N1 : ~ Spec.child_edge st' x other) by (intros H; apply He in H; tauto).
  assert (N2 : ~ Spec.child_edge st' other x) by (intros H; apply He in H; tauto).
  split; [exact N1|]. split; [intros H; apply N2; now apply Hsym|].
  split; [exact N2|]. intros H. apply N1. now apply Hsym.
Qed.

Lemma chain_symmetric : Spec.symmetric Examples.chain.
Proof.
  intros a b. unfold Spec.child_edge, Spec.parent_edge.
  destruct a as [| [| [| a]]]; destruct b as [| [| [| b]]]; vm_compute;
    intuition (try discriminate).
Qed.

Lemma integrate_contracts_other_into_self_witness :
  Chunk.canBeIntegrated Examples.chain 0 1 = true
  /\ Spec.symmetric Examples.chain
  /\ 0 <> 1
  /\ (let st' := snd (Chunk.integrate 0 1 "merged"%string Examples.chain) in
      Spec.symmetric st'
      /\ (Spec.child_edge st' 0 2 <->
            0 <> 1 /\ 2 <> 1 /\ ~ (0 = 0 /\ 2 = 0)
            /\ (Spec.child_edge Examples.chain 0 2
                \/ (2 = 0 /\ Spec.child_edge Examples.chain 0 1)
                \/ (0 = 0 /\ Spec.child_edge Examples.chain 1 2)))).
Proof.
  split; [reflexivity|]. split; [exact chain_symmetric|]. split; [discriminate|].
  destruct (@integrate_contracts_other_into_self Examples.chain 0 1 "merged"%string
              eq_refl chain_symmetric (fun E : 0 = 1 => O_S 0 E)) as (H1 & H2 & _).
  split; [exact H1 | exact (H2 0 2)].
Defined.
